(** * Identity reconciliation: the contact store, the resolver and the boundary

    A shallow embedding of the identity-resolution service:
    - [ContactRepository] (src/repositories/contact.repository.ts),
    - [ContactService]    (services/contact.service.ts),
    - [ContactController] and [errorHandler] (controllers, middleware).

    The Contact table is a list of rows in insertion order together with the
    id sequence.  Every repository call runs in a small state-and-exception
    monad [Tx] over the table; [transaction] restores the rows when the
    callback throws.  Each query sent to the table is recorded in a journal,
    so that "no store interaction" is a statement about the journal.  The
    calls to the logger write to the console only and are left out. *)

From Stdlib Require Import List Bool Arith ZArith Lia String Ascii.
From Stdlib Require Import Permutation Sorted.
Import ListNotations.

Set Implicit Arguments.
Local Open Scope bool_scope.

(* ------------------------------------------------------------------ *)
(** ** Data model *)

(** Modelled from the spec: the [LinkPrecedence] enum of the Prisma schema,
    which is not among the sources; data model, {primary, secondary}. *)
Inductive LinkPrecedence := primary | secondary.

Definition LinkPrecedence_eqb (a b : LinkPrecedence) : bool :=
  match a, b with
  | primary, primary | secondary, secondary => true
  | _, _ => false
  end.

(** Modelled from the spec: the [Contact] model of the Prisma schema, which
    is not among the sources; the fields are those of the data model and
    those the service reads.  A row of the Contact table: [createdAt] and
    [deletedAt] are instants in milliseconds ([Date.getTime]); a null column
    is [None]. *)
Record Contact := mkContact {
  id : nat;
  email : option string;
  phoneNumber : option string;
  linkedId : option nat;
  linkPrecedence : LinkPrecedence;
  createdAt : Z;
  deletedAt : option Z
}.

(** JavaScript truthiness of [string | null | undefined] and of
    [number | null]: null, undefined, the empty string and 0 are falsy. *)
Definition truthy (s : option string) : bool :=
  match s with
  | Some EmptyString => false
  | Some _ => true
  | None => false
  end.

Definition truthy_id (n : option nat) : bool :=
  match n with
  | Some 0 => false
  | Some _ => true
  | None => false
  end.

Definition is_null {A} (o : option A) : bool :=
  match o with None => true | Some _ => false end.

(** [a === b] on [string | null] and on ids. *)
Definition str_eq (a b : option string) : bool :=
  match a, b with
  | Some x, Some y => String.eqb x y
  | None, None => true
  | _, _ => false
  end.

Definition id_eq (a : option nat) (b : nat) : bool :=
  match a with Some x => Nat.eqb x b | None => false end.

Definition isPrimary (c : Contact) : bool :=
  LinkPrecedence_eqb (linkPrecedence c) primary.

(* ------------------------------------------------------------------ *)
(** ** The store and the transaction monad *)

Inductive Query :=
| QFindMany
| QFindUnique (i : nat)
| QCreate
| QUpdate (i : nat).

Record Store := mkStore {
  rows : list Contact;
  nextId : nat;
  journal : list Query
}.

(** What a call can raise: the TypeError of reading a property of
    [undefined], the rejection of [update] on a missing row, and [AppError].
    A failure of the store itself (a query the database rejects, a lost
    connection) is not among them: the calls are described given that the
    store answers.

    Modelled from the spec: [AppError] (utils/errors is not among the
    sources) carries a message and a status code, as its constructor call in
    the controller and its use in [errorHandler] show. *)
Inductive Error :=
| TypeError
| RecordNotFound
| AppError (message : string) (statusCode : nat).

Inductive Result (A : Type) :=
| Ok (a : A)
| Throw (e : Error).
Arguments Throw {A} e.

Definition Tx (A : Type) := Store -> Store * Result A.

Definition ret {A} (a : A) : Tx A := fun s => (s, Ok a).

Definition throw {A} (e : Error) : Tx A := fun s => (s, Throw e).

Definition bind {A B} (m : Tx A) (f : A -> Tx B) : Tx B :=
  fun s => match m s with
           | (s', Ok a) => f a s'
           | (s', Throw e) => (s', Throw e)
           end.

Notation "x <- m ;; k" := (bind m (fun x => k))
  (at level 61, m at next level, right associativity).
Notation "m ;;; k" := (bind m (fun _ => k))
  (at level 61, right associativity).

(** [for (const x of l) { await f x }] *)
Fixpoint forM_ {A} (l : list A) (f : A -> Tx unit) : Tx unit :=
  match l with
  | [] => ret tt
  | x :: l' => f x ;;; forM_ l' f
  end.

(** A loop that threads a local value [b] through its iterations. *)
Fixpoint foldM {A B} (f : B -> A -> Tx B) (l : list A) (b : B) : Tx B :=
  match l with
  | [] => ret b
  | x :: l' => b' <- f b x ;; foldM f l' b'
  end.

Definition record (q : Query) (s : Store) : Store :=
  mkStore (rows s) (nextId s) (journal s ++ [q]).

(** [prisma.$transaction(cb)]: the callback's writes are kept when it
    returns and undone when it throws.  The id sequence and the journal are
    not part of what is undone. *)
Definition transaction {A} (cb : Tx A) : Tx A :=
  fun s => match cb s with
           | (s', Ok a) => (s', Ok a)
           | (s', Throw e) => (mkStore (rows s) (nextId s') (journal s'), Throw e)
           end.

(* ------------------------------------------------------------------ *)
(** ** Ordering by [createdAt]

    [orderBy: { createdAt: 'asc' }] and
    [Array.prototype.sort((a, b) => a.createdAt - b.createdAt)] are both
    stable here: rows with equal instants keep their relative order (the
    table order for a query, the array order for [sort]).  For [sort] that
    is the language's guarantee; for a query it is one of the orders the
    store may answer with, since it promises none among equal instants. *)

Fixpoint insertByCreatedAt (c : Contact) (l : list Contact) : list Contact :=
  match l with
  | [] => [c]
  | d :: l' =>
      if (createdAt c <=? createdAt d)%Z then c :: d :: l'
      else d :: insertByCreatedAt c l'
  end.

Definition sortByCreatedAt (l : list Contact) : list Contact :=
  fold_right insertByCreatedAt [] l.

(* ------------------------------------------------------------------ *)
(** ** ContactRepository *)

Module ContactRepository.

(** [tx.contact.findMany({ where, orderBy: { createdAt: 'asc' } })] *)
Definition findMany (where_ : Contact -> bool) : Tx (list Contact) :=
  fun s => (record QFindMany s,
            Ok (sortByCreatedAt (filter where_ (rows s)))).

(** [tx.contact.findUnique({ where: { id } })] *)
Definition findUnique (i : nat) : Tx (option Contact) :=
  fun s => (record (QFindUnique i) s,
            Ok (find (fun c => Nat.eqb (id c) i) (rows s))).

(** The [OR] of the conditions pushed by [findMatchingContacts]. *)
Definition anyOf (conditions : list (Contact -> bool)) (c : Contact) : bool :=
  existsb (fun p => p c) conditions.

Definition conditionsFor (email_ phoneNumber_ : option string)
  : list (Contact -> bool) :=
  (if truthy email_ then [fun c => str_eq (email c) email_] else [])
  ++ (if truthy phoneNumber_
      then [fun c => str_eq (phoneNumber c) phoneNumber_] else []).

Definition findMatchingContacts (email_ phoneNumber_ : option string)
  : Tx (list Contact) :=
  let conditions := conditionsFor email_ phoneNumber_ in
  if Nat.eqb (List.length conditions) 0 then ret []
  else findMany (fun c => anyOf conditions c && is_null (deletedAt c)).

Definition findContactsByPrimaryId (primaryId : nat) : Tx (list Contact) :=
  findMany (fun c => id_eq (linkedId c) primaryId && is_null (deletedAt c)).

Definition findContactById (i : nat) : Tx (option Contact) :=
  findUnique i.

(** The [data] argument of [createContact]. *)
Record CreateData := mkCreateData {
  cd_email : option string;
  cd_phoneNumber : option string;
  cd_linkedId : option nat;
  cd_linkPrecedence : LinkPrecedence
}.

(** [tx.contact.create]: the id comes from the table's sequence and
    [createdAt] from the store's clock, whose reading is [now].  A key that
    is absent or null is stored as null ([data.email ?? null]); the empty
    string is stored as it is. *)
Definition createContact (now : Z) (data : CreateData) : Tx Contact :=
  fun s =>
    let c := mkContact (nextId s) (cd_email data) (cd_phoneNumber data)
                       (cd_linkedId data) (cd_linkPrecedence data) now None in
    (mkStore (rows s ++ [c]) (S (nextId s)) (journal s ++ [QCreate]), Ok c).

(** [Partial<Pick<Contact, 'linkedId' | 'linkPrecedence'>>]: an absent key
    leaves the column as it is. *)
Record UpdateData := mkUpdateData {
  ud_linkedId : option (option nat);
  ud_linkPrecedence : option LinkPrecedence
}.

Definition applyUpdate (data : UpdateData) (c : Contact) : Contact :=
  mkContact (id c) (email c) (phoneNumber c)
            (match ud_linkedId data with Some l => l | None => linkedId c end)
            (match ud_linkPrecedence data with
             | Some p => p | None => linkPrecedence c end)
            (createdAt c) (deletedAt c).

Definition updateRows (i : nat) (data : UpdateData) (l : list Contact)
  : list Contact :=
  map (fun c => if Nat.eqb (id c) i then applyUpdate data c else c) l.

(** [tx.contact.update({ where: { id }, data })]; it rejects when no row
    has the id. *)
Definition updateContact (i : nat) (data : UpdateData) : Tx Contact :=
  fun s =>
    match find (fun c => Nat.eqb (id c) i) (rows s) with
    | Some c =>
        (mkStore (updateRows i data (rows s)) (nextId s)
                 (journal s ++ [QUpdate i]),
         Ok (applyUpdate data c))
    | None => (record (QUpdate i) s, Throw RecordNotFound)
    end.

End ContactRepository.

(* ------------------------------------------------------------------ *)
(** ** ContactService *)

(** [Map<number, Contact>]: iteration follows insertion order, and [set] on
    a key that is present replaces the value where it stands. *)
Fixpoint mapSet (k : nat) (v : Contact) (m : list (nat * Contact))
  : list (nat * Contact) :=
  match m with
  | [] => [(k, v)]
  | (k', v') :: m' =>
      if Nat.eqb k' k then (k, v) :: m' else (k', v') :: mapSet k v m'
  end.

Definition mapHas (k : nat) (m : list (nat * Contact)) : bool :=
  existsb (fun kv => Nat.eqb (fst kv) k) m.

Definition mapValues (m : list (nat * Contact)) : list Contact := map snd m.

Definition mapSetAll (l : list Contact) (m : list (nat * Contact))
  : list (nat * Contact) :=
  fold_left (fun m c => mapSet (id c) c m) l m.

(** [Set<number>], in insertion order. *)
Definition setAdd (k : nat) (s : list nat) : list nat :=
  if existsb (Nat.eqb k) s then s else s ++ [k].

(** Modelled from the spec: [IdentifyResponse] (the types module is not
    among the sources), the [contact] object of the outbound response. *)
Record IdentifyResponse := mkResponse {
  primaryContactId : nat;
  emails : list string;
  phoneNumbers : list string;
  secondaryContactIds : list nat
}.

Definition includes (l : list string) (s : string) : bool :=
  existsb (String.eqb s) l.

(** [if (x && !l.includes(x)) l.push(x)] *)
Definition pushFresh (l : list string) (x : option string) : list string :=
  match x with
  | Some s => if truthy x && negb (includes l s) then l ++ [s] else l
  | None => l
  end.

(** [if (x) l.push(x)] *)
Definition pushTruthy (l : list string) (x : option string) : list string :=
  match x with
  | Some s => if truthy x then l ++ [s] else l
  | None => l
  end.

Module ContactService.
Import ContactRepository.

Definition buildResponse (primary_ : Contact) (secondaries : list Contact)
  : IdentifyResponse :=
  let emails0 := pushTruthy [] (email primary_) in
  let phoneNumbers0 := pushTruthy [] (phoneNumber primary_) in
  let '(es, ps, ids) :=
    fold_left
      (fun acc secondary_ =>
         let '(es, ps, ids) := acc in
         (pushFresh es (email secondary_),
          pushFresh ps (phoneNumber secondary_),
          ids ++ [id secondary_]))
      secondaries (emails0, phoneNumbers0, []) in
  mkResponse (id primary_) es ps ids.

Definition handleNoMatch (now : Z) (email_ phoneNumber_ : option string)
  : Tx IdentifyResponse :=
  newContact <- createContact now
                  (mkCreateData email_ phoneNumber_ None primary) ;;
  ret (buildResponse newContact []).

Definition primaryIdsOf (matchingContacts : list Contact) : list nat :=
  fold_left
    (fun s c =>
       if isPrimary c then setAdd (id c) s
       else match linkedId c with
            | Some l => if truthy_id (linkedId c) then setAdd l s else s
            | None => s
            end)
    matchingContacts [].

Definition collectFullCluster (matchingContacts : list Contact)
  : Tx (list Contact) :=
  let contactMap := mapSetAll matchingContacts [] in
  let primaryIds := primaryIdsOf matchingContacts in
  contactMap' <-
    foldM
      (fun m primaryId =>
         m1 <- (if negb (mapHas primaryId m) then
                  p <- findContactById primaryId ;;
                  ret (match p with
                       | Some p' =>
                           if is_null (deletedAt p')
                           then mapSet (id p') p' m else m
                       | None => m
                       end)
                else ret m) ;;
         secondaries <- findContactsByPrimaryId primaryId ;;
         ret (mapSetAll secondaries m1))
      primaryIds contactMap ;;
  ret (sortByCreatedAt (mapValues contactMap')).

(** [primaries[0]] is [undefined] on the empty array: the result is an
    option. *)
Definition resolvePrimary (contacts : list Contact) : Tx (option Contact) :=
  let primaries := filter isPrimary contacts in
  if Nat.leb (List.length primaries) 1 then ret (hd_error primaries)
  else
    match sortByCreatedAt primaries with
    | [] => throw TypeError
    | oldestPrimary :: newer =>
        forM_ newer
          (fun newerPrimary =>
             updateContact (id newerPrimary)
               (mkUpdateData (Some (Some (id oldestPrimary)))
                             (Some secondary)) ;;;
             newerSecondaries <- findContactsByPrimaryId (id newerPrimary) ;;
             forM_ newerSecondaries
               (fun secondary_ =>
                  updateContact (id secondary_)
                    (mkUpdateData (Some (Some (id oldestPrimary))) None) ;;;
                  ret tt)) ;;;
        ret (Some oldestPrimary)
    end.

(** Reading [primary.id] of [undefined] raises a TypeError before any
    query is sent. *)
Definition refreshCluster (primary_ : option Contact) : Tx (list Contact) :=
  match primary_ with
  | Some p => findContactsByPrimaryId (id p)
  | None => throw TypeError
  end.

Definition comboExists (allContacts : list Contact)
           (email_ phoneNumber_ : option string) : bool :=
  existsb
    (fun c =>
       let emailMatch := negb (truthy email_) || str_eq (email c) email_ in
       let phoneMatch :=
         negb (truthy phoneNumber_) || str_eq (phoneNumber c) phoneNumber_ in
       emailMatch && phoneMatch)
    allContacts.

Definition hasNewInfo (allContacts : list Contact)
           (email_ phoneNumber_ : option string) : bool :=
  (truthy email_
   && negb (existsb (fun c => str_eq (email c) email_) allContacts))
  || (truthy phoneNumber_
      && negb (existsb (fun c => str_eq (phoneNumber c) phoneNumber_)
                       allContacts)).

Definition createSecondaryIfNeeded (now : Z) (cluster : list Contact)
           (primary_ : Contact) (email_ phoneNumber_ : option string)
  : Tx unit :=
  let allContacts := primary_ :: cluster in
  let combo := comboExists allContacts email_ phoneNumber_ in
  if combo then ret tt
  else
    if hasNewInfo allContacts email_ phoneNumber_
       || (negb combo && (truthy email_ || truthy phoneNumber_))
    then
      createContact now
        (mkCreateData email_ phoneNumber_ (Some (id primary_)) secondary) ;;;
      ret tt
    else ret tt.

Definition handleMatch (now : Z) (matchingContacts : list Contact)
           (email_ phoneNumber_ : option string) : Tx IdentifyResponse :=
  allContacts <- collectFullCluster matchingContacts ;;
  primary_ <- resolvePrimary allContacts ;;
  updatedCluster <- refreshCluster primary_ ;;
  match primary_ with
  | Some p =>
      createSecondaryIfNeeded now updatedCluster p email_ phoneNumber_ ;;;
      finalCluster <- refreshCluster primary_ ;;
      ret (buildResponse p finalCluster)
  | None => throw TypeError
  end.

Definition identify (now : Z) (email_ phoneNumber_ : option string)
  : Tx IdentifyResponse :=
  transaction
    (matchingContacts <- findMatchingContacts email_ phoneNumber_ ;;
     if Nat.eqb (List.length matchingContacts) 0
     then handleNoMatch now email_ phoneNumber_
     else handleMatch now matchingContacts email_ phoneNumber_).

End ContactService.

(* ------------------------------------------------------------------ *)
(** ** Boundary: error handler and controller *)

Inductive Json :=
| JsonContact (r : IdentifyResponse)
| JsonError (message : string).

Record HttpResponse := mkHttp {
  status : nat;
  json : Json
}.

Definition errorHandler (err : Error) : HttpResponse :=
  match err with
  | AppError message statusCode => mkHttp statusCode (JsonError message)
  | _ => mkHttp 500 (JsonError "Internal server error")
  end.

(** [String.prototype.trim] and [toLowerCase] on strings of 7-bit
    characters: the white space is TAB, LF, VT, FF, CR and SPACE, and the
    letters with a lower case are A to Z.  Outside that range JavaScript
    strips further white space (U+00A0, U+FEFF, ...) and lower-cases
    further letters, which these functions leave alone. *)
Definition isWhiteSpace (a : ascii) : bool :=
  let n := nat_of_ascii a in
  (Nat.leb 9 n && Nat.leb n 13) || Nat.eqb n 32.

Fixpoint trimStart (s : string) : string :=
  match s with
  | EmptyString => EmptyString
  | String a s' => if isWhiteSpace a then trimStart s' else s
  end.

Fixpoint reverse (s acc : string) : string :=
  match s with
  | EmptyString => acc
  | String a s' => reverse s' (String a acc)
  end.

Definition trim (s : string) : string :=
  reverse (trimStart (reverse (trimStart s) EmptyString)) EmptyString.

Definition lowerChar (a : ascii) : ascii :=
  let n := nat_of_ascii a in
  if Nat.leb 65 n && Nat.leb n 90 then ascii_of_nat (n + 32) else a.

Fixpoint toLowerCase (s : string) : string :=
  match s with
  | EmptyString => EmptyString
  | String a s' => String (lowerChar a) (toLowerCase s')
  end.

(** [x || null] *)
Definition orNull (x : option string) : option string :=
  if truthy x then x else None.

(** Modelled from the spec: [IdentifyRequest] (the types module is not
    among the sources), a body supplying zero or more of the two strings. *)
Record IdentifyRequest := mkRequest {
  req_email : option string;
  req_phoneNumber : option string
}.

Module ContactController.

Definition missingIdentifier : string :=
  "At least one of email or phoneNumber must be provided".

Definition identify (now : Z) (body : IdentifyRequest)
  : Store -> Store * HttpResponse :=
  fun s =>
    let email_ := req_email body in
    let phoneNumber_ := req_phoneNumber body in
    if negb (truthy email_) && negb (truthy phoneNumber_)
    then (s, errorHandler (AppError missingIdentifier 400))
    else
      let email_ :=
        if truthy email_ then option_map (fun e => toLowerCase (trim e)) email_
        else email_ in
      let phoneNumber_ :=
        if truthy phoneNumber_ then option_map trim phoneNumber_
        else phoneNumber_ in
      match ContactService.identify now (orNull email_) (orNull phoneNumber_) s
      with
      | (s', Ok result) => (s', mkHttp 200 (JsonContact result))
      | (s', Throw error) => (s', errorHandler error)
      end.

End ContactController.

(* ------------------------------------------------------------------ *)
(** ** What the queries return, as functions of the table

    The journal only grows and never influences a result, so every call is
    described by the rows and the sequence value it leaves and the value it
    returns: [runs m s rs n a]. *)

Definition live (c : Contact) : bool := is_null (deletedAt c).

Definition matchesInput (email_ phoneNumber_ : option string) (c : Contact)
  : bool :=
  ContactRepository.anyOf (ContactRepository.conditionsFor email_ phoneNumber_) c
  && live c.

Definition matchingIn (rs : list Contact) (email_ phoneNumber_ : option string)
  : list Contact :=
  if truthy email_ || truthy phoneNumber_
  then sortByCreatedAt (filter (matchesInput email_ phoneNumber_) rs)
  else [].

Definition linkedTo (pid : nat) (c : Contact) : bool :=
  id_eq (linkedId c) pid && live c.

Definition linkedLive (rs : list Contact) (pid : nat) : list Contact :=
  sortByCreatedAt (filter (linkedTo pid) rs).

Definition lookupId (rs : list Contact) (i : nat) : option Contact :=
  find (fun c => Nat.eqb (id c) i) rs.

Definition runs {A} (m : Tx A) (s : Store) (rs : list Contact) (n : nat) (a : A)
  : Prop :=
  exists j, m s = (mkStore rs n j, Ok a).

Definition throws {A} (m : Tx A) (s : Store) (rs : list Contact) (n : nat)
           (e : Error) : Prop :=
  exists j, m s = (mkStore rs n j, Throw e).

(** One iteration of the loop over [primaryIds] in [collectFullCluster]. *)
Definition collectStep (rs : list Contact) (m : list (nat * Contact))
           (primaryId : nat) : list (nat * Contact) :=
  let m1 :=
    if negb (mapHas primaryId m) then
      match lookupId rs primaryId with
      | Some p' => if is_null (deletedAt p') then mapSet (id p') p' m else m
      | None => m
      end
    else m in
  mapSetAll (linkedLive rs primaryId) m1.

Definition clusterMap (rs : list Contact) (matchingContacts : list Contact)
  : list (nat * Contact) :=
  fold_left (collectStep rs) (ContactService.primaryIdsOf matchingContacts)
            (mapSetAll matchingContacts []).

Definition clusterOf (rs : list Contact) (matchingContacts : list Contact)
  : list Contact :=
  sortByCreatedAt (mapValues (clusterMap rs matchingContacts)).

Definition demotion (old : nat) : ContactRepository.UpdateData :=
  ContactRepository.mkUpdateData (Some (Some old)) (Some secondary).

Definition relink (old : nat) : ContactRepository.UpdateData :=
  ContactRepository.mkUpdateData (Some (Some old)) None.

(** The writes of one iteration of the merge loop of [resolvePrimary]. *)
Definition demoteRows (old n : nat) (rs : list Contact) : list Contact :=
  let rs1 := ContactRepository.updateRows n (demotion old) rs in
  fold_left (fun r c => ContactRepository.updateRows (id c) (relink old) r)
            (linkedLive rs1 n) rs1.

Definition mergeRows (old : nat) (newer : list Contact) (rs : list Contact)
  : list Contact :=
  fold_left (fun r n => demoteRows old (id n) r) newer rs.

Definition primariesOf (contacts : list Contact) : list Contact :=
  filter isPrimary contacts.

Definition resolvedPrimary (contacts : list Contact) : option Contact :=
  if Nat.leb (List.length (primariesOf contacts)) 1
  then hd_error (primariesOf contacts)
  else hd_error (sortByCreatedAt (primariesOf contacts)).

Definition resolvedRows (contacts : list Contact) (rs : list Contact)
  : list Contact :=
  if Nat.leb (List.length (primariesOf contacts)) 1 then rs
  else match sortByCreatedAt (primariesOf contacts) with
       | [] => rs
       | old :: newer => mergeRows (id old) newer rs
       end.

Definition newSecondary (n : nat) (now : Z) (p : Contact)
           (email_ phoneNumber_ : option string) : Contact :=
  mkContact n email_ phoneNumber_ (Some (id p)) secondary now None.

Definition newPrimary (n : nat) (now : Z) (email_ phoneNumber_ : option string)
  : Contact :=
  mkContact n email_ phoneNumber_ None primary now None.

(** The rows after [createSecondaryIfNeeded]. *)
Definition withSecondary (n : nat) (now : Z) (p : Contact)
           (email_ phoneNumber_ : option string) (rs : list Contact)
  : list Contact :=
  if ContactService.comboExists (p :: linkedLive rs (id p)) email_ phoneNumber_
  then rs
  else rs ++ [newSecondary n now p email_ phoneNumber_].

Definition seqAfterSecondary (n : nat) (p : Contact)
           (email_ phoneNumber_ : option string) (rs : list Contact) : nat :=
  if ContactService.comboExists (p :: linkedLive rs (id p)) email_ phoneNumber_
  then n else S n.

(* ------------------------------------------------------------------ *)
(** ** Well-formed tables and the data-model invariants *)

(** The primary key and its sequence: ids are distinct, positive and below
    the next value of the sequence. *)
Definition tableOk (rs : list Contact) (n : nat) : Prop :=
  NoDup (map id rs) /\ 1 <= n /\ forall c, In c rs -> 1 <= id c < n.

(** A primary carries no [linkedId]. *)
Definition primariesUnlinked (rs : list Contact) : Prop :=
  forall c, In c rs -> linkPrecedence c = primary -> linkedId c = None.

(** Star topology over the contacts that are not soft-deleted: a secondary
    points at a row of the table whose [linkPrecedence] is primary. *)
Definition starLive (rs : list Contact) : Prop :=
  forall c, In c rs -> linkPrecedence c = secondary -> live c = true ->
    exists q p, linkedId c = Some q /\ In p rs /\ id p = q
                /\ linkPrecedence p = primary.

(** The same over every contact of the table, soft-deleted or not. *)
Definition starAll (rs : list Contact) : Prop :=
  forall c, In c rs -> linkPrecedence c = secondary ->
    exists q p, linkedId c = Some q /\ In p rs /\ id p = q
                /\ linkPrecedence p = primary.

Definition storeOk (s : Store) : Prop :=
  tableOk (rows s) (nextId s) /\ primariesUnlinked (rows s)
  /\ starLive (rows s).

(** The id that [collectFullCluster] puts in [primaryIds] for a matched
    contact: its own when it is primary, else its truthy [linkedId]. *)
Definition ownerId (c : Contact) : option nat :=
  if isPrimary c then Some (id c)
  else if truthy_id (linkedId c) then linkedId c else None.

(** The row a merge leaves in place of [c]: [newer] holds the ids of the
    primaries that lose to [old]. *)
Definition demoted (old : nat) (c : Contact) : Contact :=
  ContactRepository.applyUpdate (demotion old) c.

Definition relinked (old : nat) (c : Contact) : Contact :=
  ContactRepository.applyUpdate (relink old) c.

Definition memId (i : nat) (l : list nat) : bool := existsb (Nat.eqb i) l.

Definition linkedInto (newer : list nat) (c : Contact) : bool :=
  live c && match linkedId c with
            | Some q => memId q newer
            | None => false
            end.

Definition mergeRow (old : nat) (newer : list nat) (c : Contact) : Contact :=
  if memId (id c) newer then demoted old c
  else if linkedInto newer c then relinked old c
  else c.

(** ** One [identify] call as a function of the table

    [identifyRows], [identifySeq] and [identifyResult] give the rows and
    the sequence value that a call leaves and the value it returns or the
    error it raises. *)
Definition identifyRows (now : Z) (email_ phoneNumber_ : option string)
           (rs : list Contact) (n : nat) : list Contact :=
  match matchingIn rs email_ phoneNumber_ with
  | [] => rs ++ [newPrimary n now email_ phoneNumber_]
  | m =>
      let cl := clusterOf rs m in
      match resolvedPrimary cl with
      | Some p => withSecondary n now p email_ phoneNumber_ (resolvedRows cl rs)
      | None => rs
      end
  end.

Definition identifySeq (email_ phoneNumber_ : option string)
           (rs : list Contact) (n : nat) : nat :=
  match matchingIn rs email_ phoneNumber_ with
  | [] => S n
  | m =>
      let cl := clusterOf rs m in
      match resolvedPrimary cl with
      | Some p => seqAfterSecondary n p email_ phoneNumber_ (resolvedRows cl rs)
      | None => n
      end
  end.

Definition identifyResult (now : Z) (email_ phoneNumber_ : option string)
           (rs : list Contact) (n : nat) : Result IdentifyResponse :=
  match matchingIn rs email_ phoneNumber_ with
  | [] =>
      Ok (ContactService.buildResponse
            (newPrimary n now email_ phoneNumber_) [])
  | m =>
      let cl := clusterOf rs m in
      match resolvedPrimary cl with
      | Some p =>
          Ok (ContactService.buildResponse p
                (linkedLive
                   (withSecondary n now p email_ phoneNumber_
                                  (resolvedRows cl rs))
                   (id p)))
      | None => Throw TypeError
      end
  end.

(* ------------------------------------------------------------------ *)
(** ** Reference definitions for the response lists *)

(** The values of a column over a list of contacts, in order: those that
    [if (x)] lets through (neither null nor empty), and those that are not
    null. *)
Definition presentValues (f : Contact -> option string) (l : list Contact)
  : list string :=
  flat_map (fun c => match f c with
                     | Some s => if truthy (f c) then [s] else []
                     | None => []
                     end) l.

Definition nonNullValues (f : Contact -> option string) (l : list Contact)
  : list string :=
  flat_map (fun c => match f c with Some s => [s] | None => [] end) l.

(** Keep the first occurrence of each value that is not in [seen]. *)
Fixpoint firstSeen (seen : list string) (l : list string) : list string :=
  match l with
  | [] => []
  | x :: l' =>
      if includes seen x then firstSeen seen l'
      else x :: firstSeen (seen ++ [x]) l'
  end.

(** The order of a list sorted by [createdAt]. *)
Definition byCreatedAt (a b : Contact) : Prop := (createdAt a <= createdAt b)%Z.

(** Every entry of the map is keyed by its own id and holds a live row of
    the table. *)
Definition mapOk (rs : list Contact) (m : list (nat * Contact)) : Prop :=
  NoDup (map fst m)
  /\ forall k v, In (k, v) m -> k = id v /\ In v rs /\ live v = true.


(* ------------------------------------------------------------------ *)
(** ** Sequences of calls *)

(** The stores reached from [s0] by completed [identify] calls. *)
Inductive reachable (s0 : Store) : Store -> Prop :=
| reach_here : reachable s0 s0
| reach_call : forall s now e p s' r,
    reachable s0 s ->
    ContactService.identify now e p s = (s', Ok r) ->
    reachable s0 s'.

(** The star invariant as the data model words it, over every contact:
    it holds in every store reached from a store where it holds. *)
Definition starKeptAsStated (s0 : Store) : Prop :=
  starAll (rows s0) -> forall s, reachable s0 s -> starAll (rows s).

(* ------------------------------------------------------------------ *)
(** ** Sample tables *)

Local Open Scope string_scope.

(** Two independent primaries; the newer one has a live secondary and a
    soft-deleted one. *)
Definition alice : Contact :=
  mkContact 1 (Some "a@x.com") (Some "111") None primary 10 None.
Definition bob : Contact :=
  mkContact 2 (Some "b@x.com") (Some "222") None primary 20 None.
Definition bobAlias : Contact :=
  mkContact 3 (Some "c@x.com") (Some "222") (Some 2) secondary 30 None.
Definition bobRetired : Contact :=
  mkContact 4 (Some "d@x.com") (Some "333") (Some 2) secondary 40 (Some 50%Z).

Definition twoClusters : Store :=
  mkStore [alice; bob; bobAlias; bobRetired] 5 [].

(** The request that joins the two clusters, and the store it leaves. *)
Definition joinEmail : option string := Some "a@x.com".
Definition joinPhone : option string := Some "222".

Definition mergedClusters : Store :=
  fst (ContactService.identify 100 joinEmail joinPhone twoClusters).

Definition emptyStore : Store := mkStore [] 1 [].

(** A live secondary whose primary is soft-deleted. *)
Definition retiredOwner : Contact :=
  mkContact 1 (Some "old@x.com") (Some "900") None primary 10 (Some 15%Z).
Definition orphan : Contact :=
  mkContact 2 (Some "o@x.com") (Some "901") (Some 1) secondary 20 None.

Definition orphanStore : Store := mkStore [retiredOwner; orphan] 3 [].

(** A live primary beside a live secondary whose own primary is
    soft-deleted. *)
Definition carolRetired : Contact :=
  mkContact 2 (Some "carol@x.com") (Some "900") None primary 20 (Some 25%Z).
Definition carolAlias : Contact :=
  mkContact 3 (Some "c@x.com") (Some "901") (Some 2) secondary 30 None.

Definition strandedAlias : Store :=
  mkStore [alice; carolRetired; carolAlias] 4 [].

Local Close Scope string_scope.

(** A string made of white space only. *)
Fixpoint allWhiteSpace (s : string) : bool :=
  match s with
  | EmptyString => true
  | String a s' => isWhiteSpace a && allWhiteSpace s'
  end.

(* ------------------------------------------------------------------ *)
(** ** Properties as the specification words them

    Each is compared with the code further down. *)

Definition emailKnown (cluster : list Contact) (email_ : option string) : bool :=
  existsb (fun c => str_eq (email c) email_) cluster.

Definition phoneKnown (cluster : list Contact) (phoneNumber_ : option string)
  : bool :=
  existsb (fun c => str_eq (phoneNumber c) phoneNumber_) cluster.

(** Step 6 as worded: with the exact combination absent from the cluster, a
    contact is created if and only if the email or the phone is new to the
    cluster (and one of them was supplied). *)
Definition secondaryRuleAsStated (now : Z) (email_ phoneNumber_ : option string)
           (s : Store) : Prop :=
  forall s1 s2 s3 s4 m cl cluster pr,
    ContactRepository.findMatchingContacts email_ phoneNumber_ s = (s1, Ok m) ->
    m <> [] ->
    ContactService.collectFullCluster m s1 = (s2, Ok cl) ->
    ContactService.resolvePrimary cl s2 = (s3, Ok (Some pr)) ->
    ContactService.refreshCluster (Some pr) s3 = (s4, Ok cluster) ->
    ContactService.comboExists (pr :: cluster) email_ phoneNumber_ = false ->
    (List.length (rows (fst (ContactService.identify now email_ phoneNumber_ s)))
     = S (List.length (rows s))
     <-> (truthy email_ || truthy phoneNumber_ = true
          /\ (emailKnown (pr :: cluster) email_ = false
              \/ phoneKnown (pr :: cluster) phoneNumber_ = false))).

(** Steps 3 and 4 as worded: a non-empty match always yields a cluster with
    a primary, and [resolvePrimary] returns a contact. *)
Definition clusterHasPrimaryAsStated (email_ phoneNumber_ : option string)
           (s : Store) : Prop :=
  forall s1 m,
    ContactRepository.findMatchingContacts email_ phoneNumber_ s = (s1, Ok m) ->
    m <> [] ->
    exists s2 cl s3 pr,
      ContactService.collectFullCluster m s1 = (s2, Ok cl)
      /\ existsb isPrimary cl = true
      /\ ContactService.resolvePrimary cl s2 = (s3, Ok (Some pr)).

(** The contacts a call touched, read back from the table it leaves: the
    members of the cluster it collected and the contact it created. *)
Definition touchedAfter (now : Z) (email_ phoneNumber_ : option string)
           (s : Store) : list Contact :=
  let cl := clusterOf (rows s) (matchingIn (rows s) email_ phoneNumber_) in
  filter (fun c => memId (id c) (map id cl) || Nat.leb (nextId s) (id c))
         (rows (fst (ContactService.identify now email_ phoneNumber_ s))).

(** Step 7 as worded: with the secondaries being the non-primary members of
    the cluster after the merge, in createdAt order, the primary's email
    and phone lead if they are not null, followed by the secondaries' values
    at their first occurrence; both lists are free of duplicates; and
    [secondaryContactIds] lists every secondary, in the same order. *)
Definition responseAsStated (now : Z) (email_ phoneNumber_ : option string)
           (s : Store) : Prop :=
  forall s' r,
    ContactService.identify now email_ phoneNumber_ s = (s', Ok r) ->
    exists pr secondaries,
      In pr (rows s') /\ linkPrecedence pr = primary
      /\ primaryContactId r = id pr
      /\ Permutation secondaries
           (filter (fun c => negb (isPrimary c))
                   (touchedAfter now email_ phoneNumber_ s))
      /\ Sorted byCreatedAt secondaries
      /\ emails r = firstSeen [] (nonNullValues email (pr :: secondaries))
      /\ phoneNumbers r
         = firstSeen [] (nonNullValues phoneNumber (pr :: secondaries))
      /\ NoDup (emails r) /\ NoDup (phoneNumbers r)
      /\ secondaryContactIds r = map id secondaries.

(** The merge scenario: two live primaries, the older one [p1] holding the
    email of the request and the newer one [p2] its phone, and every matched
    contact belonging to one of their two clusters. *)
Definition mergeScenario (s : Store) (email_ phoneNumber_ : option string)
           (p1 p2 : Contact) : Prop :=
  In p1 (rows s) /\ In p2 (rows s)
  /\ linkPrecedence p1 = primary /\ linkPrecedence p2 = primary
  /\ live p1 = true /\ live p2 = true
  /\ (createdAt p1 < createdAt p2)%Z
  /\ truthy email_ = true /\ truthy phoneNumber_ = true
  /\ email p1 = email_ /\ phoneNumber p2 = phoneNumber_
  /\ (forall c, In c (rows s) -> matchesInput email_ phoneNumber_ c = true ->
        c = p1 \/ c = p2
        \/ linkedId c = Some (id p1) \/ linkedId c = Some (id p2)).

(** The merge as worded: [p2] becomes a secondary of [p1], every prior
    secondary of [p2] is re-pointed to [p1], and the response names [p1]. *)
Definition mergeAsStated (now : Z) (email_ phoneNumber_ : option string)
           (s : Store) (p1 p2 : Contact) : Prop :=
  mergeScenario s email_ phoneNumber_ p1 p2 ->
  exists s' r,
    ContactService.identify now email_ phoneNumber_ s = (s', Ok r)
    /\ primaryContactId r = id p1
    /\ (exists p2', In p2' (rows s') /\ id p2' = id p2
                    /\ linkPrecedence p2' = secondary
                    /\ linkedId p2' = Some (id p1))
    /\ forall c, In c (rows s) -> linkPrecedence c = secondary ->
                 linkedId c = Some (id p2) ->
                 exists c', In c' (rows s') /\ id c' = id c
                            /\ linkedId c' = Some (id p1).

(* ------------------------------------------------------------------ *)
(** ** Relations between a row and what a write leaves of it *)

(** The columns no write of the service touches: a row keeps its id, its
    email and phone, its creation instant and its soft-delete marker. *)
Definition keepsIdentity (c c' : Contact) : Prop :=
  id c' = id c /\ email c' = email c /\ phoneNumber c' = phoneNumber c
  /\ createdAt c' = createdAt c /\ deletedAt c' = deletedAt c.

(** A secondary stays a secondary. *)
Definition notPromoted (c c' : Contact) : Prop :=
  linkPrecedence c = secondary -> linkPrecedence c' = secondary.

(** Dropping leading white space from a list of characters. *)
Fixpoint dropWhiteSpace (l : list ascii) : list ascii :=
  match l with
  | [] => []
  | a :: l' => if isWhiteSpace a then dropWhiteSpace l' else l
  end.

(* ------------------------------------------------------------------ *)
(** ** Values as the boundary lets them through *)

(** A column or an argument that is null or a non-empty string: the
    controller sends [x || null] and so never hands over, nor stores, the
    empty string. *)
Definition notEmpty (x : option string) : Prop := x <> Some EmptyString.

Definition noEmptyFields (rs : list Contact) : Prop :=
  forall c, In c rs -> notEmpty (email c) /\ notEmpty (phoneNumber c).

(** Every matched contact is primary or is linked to a primary row that is
    not soft-deleted. *)
Definition ownersLive (rs : list Contact) (email_ phoneNumber_ : option string)
  : Prop :=
  forall c, In c rs -> matchesInput email_ phoneNumber_ c = true ->
    linkPrecedence c = primary
    \/ exists q owner,
         linkedId c = Some q /\ In owner rs /\ id owner = q
         /\ linkPrecedence owner = primary /\ live owner = true.

(** Strings of 7-bit characters: on these [trim] and [toLowerCase] above
    are the JavaScript functions. *)
Definition sevenBit (s : string) : bool :=
  forallb (fun a => Nat.ltb (nat_of_ascii a) 128) (list_ascii_of_string s).

Definition sevenBitField (x : option string) : bool :=
  match x with Some s => sevenBit s | None => true end.

(** What the controller hands to the service for a field of the body: the
    normalised string, or null when the field is absent or the normalised
    string is empty. *)
Definition sentToService (normalise : string -> string) (x : option string)
  : option string :=
  match x with
  | Some v => match normalise v with
              | EmptyString => None
              | v' => Some v'
              end
  | None => None
  end.

(* ------------------------------------------------------------------ *)
(** ** Sorting by [createdAt] *)

Lemma insertByCreatedAt_perm (c : Contact) (l : list Contact) :
  Permutation (insertByCreatedAt c l) (c :: l).
Proof.
  induction l as [|d l IH]; simpl.
  - apply Permutation_refl.
  - destruct (createdAt c <=? createdAt d)%Z.
    + apply Permutation_refl.
    + eapply perm_trans; [apply perm_skip, IH | apply perm_swap].
Qed.

Lemma sortByCreatedAt_perm (l : list Contact) :
  Permutation (sortByCreatedAt l) l.
Proof.
  induction l as [|c l IH]; simpl.
  - constructor.
  - eapply perm_trans; [apply insertByCreatedAt_perm | now apply perm_skip].
Qed.

Lemma sortByCreatedAt_In (l : list Contact) (c : Contact) :
  In c (sortByCreatedAt l) <-> In c l.
Proof.
  split; apply Permutation_in;
    [apply sortByCreatedAt_perm | apply Permutation_sym, sortByCreatedAt_perm].
Qed.

Lemma sortByCreatedAt_nil (l : list Contact) :
  sortByCreatedAt l = [] -> l = [].
Proof.
  intros H. apply Permutation_nil.
  rewrite <- H. apply sortByCreatedAt_perm.
Qed.

Lemma sortByCreatedAt_length (l : list Contact) :
  List.length (sortByCreatedAt l) = List.length l.
Proof. apply Permutation_length, sortByCreatedAt_perm. Qed.

Lemma insertByCreatedAt_sorted (c : Contact) (l : list Contact) :
  Sorted byCreatedAt l -> Sorted byCreatedAt (insertByCreatedAt c l).
Proof.
  induction l as [|d l IH]; simpl; intros Hs.
  - repeat constructor.
  - destruct (createdAt c <=? createdAt d)%Z eqn:E.
    + constructor; [exact Hs | constructor; apply Z.leb_le, E].
    + apply Z.leb_gt in E. inversion Hs as [|? ? Hs' Hd]; subst.
      constructor; [now apply IH |].
      destruct l as [|d' l']; simpl.
      * constructor. unfold byCreatedAt. lia.
      * destruct (createdAt c <=? createdAt d')%Z.
        -- constructor. unfold byCreatedAt. lia.
        -- inversion Hd; subst. now constructor.
Qed.

Lemma sortByCreatedAt_sorted (l : list Contact) :
  Sorted byCreatedAt (sortByCreatedAt l).
Proof.
  induction l as [|c l IH]; simpl.
  - constructor.
  - now apply insertByCreatedAt_sorted.
Qed.

Lemma sortByCreatedAt_ids_perm (l : list Contact) :
  Permutation (map id (sortByCreatedAt l)) (map id l).
Proof. apply Permutation_map, sortByCreatedAt_perm. Qed.

Lemma sortByCreatedAt_ids_NoDup (l : list Contact) :
  NoDup (map id l) -> NoDup (map id (sortByCreatedAt l)).
Proof.
  intros H. eapply Permutation_NoDup; [|exact H].
  apply Permutation_sym, sortByCreatedAt_ids_perm.
Qed.

(** The head of a sorted list is the oldest of its members. *)
Lemma sorted_head_oldest (c : Contact) (l : list Contact) :
  Sorted byCreatedAt (c :: l) ->
  forall d, In d l -> (createdAt c <= createdAt d)%Z.
Proof.
  intros Hs. apply Sorted_StronglySorted in Hs.
  - inversion Hs as [|? ? _ Hall]; subst.
    intros d Hd. rewrite Forall_forall in Hall. now apply Hall.
  - intros x y z. unfold byCreatedAt. lia.
Qed.

(* ------------------------------------------------------------------ *)
(** ** Running a transaction *)

Lemma runs_ret {A} (a : A) (s : Store) : runs (ret a) s (rows s) (nextId s) a.
Proof. exists (journal s). destruct s; reflexivity. Qed.

Lemma runs_ret_at {A} (a : A) rs n j : runs (ret a) (mkStore rs n j) rs n a.
Proof. exists j. reflexivity. Qed.

Lemma runs_bind {A B} (m : Tx A) (f : A -> Tx B) s rs1 n1 a rs2 n2 b :
  runs m s rs1 n1 a ->
  (forall j, runs (f a) (mkStore rs1 n1 j) rs2 n2 b) ->
  runs (bind m f) s rs2 n2 b.
Proof.
  intros [j Hm] Hf. destruct (Hf j) as [j' Hf'].
  exists j'. unfold bind. now rewrite Hm.
Qed.

Lemma throws_bind_l {A B} (m : Tx A) (f : A -> Tx B) s rs n e :
  throws m s rs n e -> throws (bind m f) s rs n e.
Proof.
  intros [j Hm]. exists j. unfold bind. now rewrite Hm.
Qed.

Lemma throws_bind_r {A B} (m : Tx A) (f : A -> Tx B) s rs1 n1 a rs2 n2 e :
  runs m s rs1 n1 a ->
  (forall j, throws (f a) (mkStore rs1 n1 j) rs2 n2 e) ->
  throws (bind m f) s rs2 n2 e.
Proof.
  intros [j Hm] Hf. destruct (Hf j) as [j' Hf'].
  exists j'. unfold bind. now rewrite Hm.
Qed.

Lemma runs_transaction {A} (cb : Tx A) s rs n a :
  runs cb s rs n a -> runs (transaction cb) s rs n a.
Proof.
  intros [j H]. exists j. unfold transaction. now rewrite H.
Qed.

Lemma throws_transaction {A} (cb : Tx A) s rs n e :
  throws cb s rs n e -> throws (transaction cb) s (rows s) n e.
Proof.
  intros [j H]. exists j. unfold transaction. now rewrite H.
Qed.

Lemma runs_inj {A} (m : Tx A) s rs n a rs' n' a' :
  runs m s rs n a -> runs m s rs' n' a' -> rs = rs' /\ n = n' /\ a = a'.
Proof.
  intros [j H] [j' H']. rewrite H in H'. now inversion H'.
Qed.

Lemma runs_not_throws {A} (m : Tx A) s rs n a rs' n' e :
  runs m s rs n a -> throws m s rs' n' e -> False.
Proof.
  intros [j H] [j' H']. rewrite H in H'. discriminate.
Qed.

Section Queries.
Import ContactRepository.

Variables (rs : list Contact) (n : nat) (j : list Query).

Lemma findMany_runs (w : Contact -> bool) :
  runs (findMany w) (mkStore rs n j) rs n (sortByCreatedAt (filter w rs)).
Proof. eexists. reflexivity. Qed.

Lemma findContactsByPrimaryId_runs (pid : nat) :
  runs (findContactsByPrimaryId pid) (mkStore rs n j) rs n (linkedLive rs pid).
Proof. eexists. reflexivity. Qed.

Lemma findContactById_runs (i : nat) :
  runs (findContactById i) (mkStore rs n j) rs n (lookupId rs i).
Proof. eexists. reflexivity. Qed.

Lemma conditionsFor_length (e p : option string) :
  Nat.eqb (List.length (conditionsFor e p)) 0 = negb (truthy e || truthy p).
Proof.
  unfold conditionsFor. destruct (truthy e), (truthy p); reflexivity.
Qed.

Lemma findMatchingContacts_runs (e p : option string) :
  runs (findMatchingContacts e p) (mkStore rs n j) rs n (matchingIn rs e p).
Proof.
  unfold findMatchingContacts, matchingIn.
  rewrite conditionsFor_length.
  destruct (truthy e || truthy p); simpl.
  - apply findMany_runs.
  - apply runs_ret_at.
Qed.

Lemma createContact_runs (now : Z) (d : CreateData) :
  runs (createContact now d) (mkStore rs n j)
       (rs ++ [mkContact n (cd_email d) (cd_phoneNumber d)
                         (cd_linkedId d) (cd_linkPrecedence d) now None])
       (S n)
       (mkContact n (cd_email d) (cd_phoneNumber d)
                  (cd_linkedId d) (cd_linkPrecedence d) now None).
Proof. eexists. reflexivity. Qed.

Lemma lookupId_some (i : nat) :
  In i (map id rs) -> exists c, lookupId rs i = Some c.
Proof.
  clear n j. induction rs as [|d l IH]; simpl; [tauto|].
  intros [H | H].
  - subst. rewrite Nat.eqb_refl. eauto.
  - destruct (Nat.eqb (id d) i); eauto.
Qed.

Lemma updateContact_runs (i : nat) (d : UpdateData) :
  In i (map id rs) ->
  exists c, runs (updateContact i d) (mkStore rs n j) (updateRows i d rs) n c.
Proof.
  intros H. destruct (lookupId_some _ H) as [c Hc].
  exists (applyUpdate d c). eexists. unfold updateContact. simpl.
  unfold lookupId in Hc. rewrite Hc. reflexivity.
Qed.

Lemma updateRows_ids (i : nat) (d : UpdateData) :
  map id (updateRows i d rs) = map id rs.
Proof.
  unfold updateRows. rewrite map_map. apply map_ext.
  intros c. now destruct (Nat.eqb (id c) i).
Qed.

End Queries.

(* ------------------------------------------------------------------ *)
(** ** The stages of [handleMatch] as functions of the table *)

Section Stages.
Import ContactRepository ContactService.

Lemma linkedLive_In (rs : list Contact) (pid : nat) (c : Contact) :
  In c (linkedLive rs pid) <-> In c rs /\ linkedTo pid c = true.
Proof.
  unfold linkedLive. rewrite sortByCreatedAt_In. apply filter_In.
Qed.

Lemma matchingIn_In (rs : list Contact) (e p : option string) (c : Contact) :
  In c (matchingIn rs e p) <->
  In c rs /\ matchesInput e p c = true.
Proof.
  unfold matchingIn. destruct (truthy e || truthy p) eqn:E.
  - rewrite sortByCreatedAt_In. apply filter_In.
  - simpl. split; [tauto|]. intros [_ H].
    unfold matchesInput, anyOf, conditionsFor in H.
    apply orb_false_iff in E. destruct E as [E1 E2].
    rewrite E1, E2 in H. discriminate.
Qed.

Lemma collectLoop_runs (rs : list Contact) (n : nat) (l : list nat) :
  forall (m : list (nat * Contact)) j,
    runs (foldM
            (fun m primaryId =>
               m1 <- (if negb (mapHas primaryId m) then
                        p <- findContactById primaryId ;;
                        ret (match p with
                             | Some p' =>
                                 if is_null (deletedAt p')
                                 then mapSet (id p') p' m else m
                             | None => m
                             end)
                      else ret m) ;;
               secondaries <- findContactsByPrimaryId primaryId ;;
               ret (mapSetAll secondaries m1))
            l m)
         (mkStore rs n j) rs n (fold_left (collectStep rs) l m).
Proof.
  induction l as [|pid l IH]; intros m j; simpl.
  - apply runs_ret_at.
  - eapply runs_bind; [|intros j'; apply IH].
    eapply runs_bind with
      (a := if negb (mapHas pid m)
            then match lookupId rs pid with
                 | Some p' => if is_null (deletedAt p')
                              then mapSet (id p') p' m else m
                 | None => m
                 end
            else m)
      (rs1 := rs) (n1 := n).
    + destruct (negb (mapHas pid m)).
      * eapply runs_bind; [apply findContactById_runs|].
        intros j'. apply runs_ret_at.
      * apply runs_ret_at.
    + intros j'. eapply runs_bind; [apply findContactsByPrimaryId_runs|].
      intros j''. apply runs_ret_at.
Qed.

Lemma collectFullCluster_runs (matchingContacts : list Contact) rs n j :
  runs (collectFullCluster matchingContacts) (mkStore rs n j) rs n
       (clusterOf rs matchingContacts).
Proof.
  unfold collectFullCluster. eapply runs_bind.
  - apply collectLoop_runs.
  - intros j'. apply runs_ret_at.
Qed.

Lemma relinkAll_ids (old : nat) (l : list Contact) :
  forall rs,
    map id (fold_left (fun r c => updateRows (id c) (relink old) r) l rs)
    = map id rs.
Proof.
  induction l as [|c l IH]; intros rs; simpl; [reflexivity|].
  rewrite IH. apply updateRows_ids.
Qed.

Lemma demoteRows_ids (old n : nat) (rs : list Contact) :
  map id (demoteRows old n rs) = map id rs.
Proof.
  unfold demoteRows. rewrite relinkAll_ids. apply updateRows_ids.
Qed.

Lemma mergeRows_ids (old : nat) (newer : list Contact) :
  forall rs, map id (mergeRows old newer rs) = map id rs.
Proof.
  induction newer as [|n newer IH]; intros rs; simpl; [reflexivity|].
  unfold mergeRows in *. simpl. rewrite IH. apply demoteRows_ids.
Qed.

Lemma relinkAll_runs (old n : nat) (l : list Contact) :
  forall rs j,
    (forall c, In c l -> In (id c) (map id rs)) ->
    runs (forM_ l (fun secondary_ =>
                     updateContact (id secondary_) (relink old) ;;; ret tt))
         (mkStore rs n j)
         (fold_left (fun r c => updateRows (id c) (relink old) r) l rs)
         n tt.
Proof.
  induction l as [|c l IH]; intros rs j Hin; simpl.
  - apply runs_ret_at.
  - destruct (updateContact_runs rs n j (id c) (relink old)) as [c' Hc'].
    { apply Hin. now left. }
    eapply runs_bind.
    + eapply runs_bind; [exact Hc'|].
      intros j'. apply runs_ret_at.
    + intros j'. apply IH.
      intros d Hd. rewrite updateRows_ids. apply Hin. now right.
Qed.

Lemma mergeLoop_runs (old n : nat) (newer : list Contact) :
  forall rs j,
    (forall c, In c newer -> In (id c) (map id rs)) ->
    runs (forM_ newer
            (fun newerPrimary =>
               updateContact (id newerPrimary) (demotion old) ;;;
               newerSecondaries <- findContactsByPrimaryId (id newerPrimary) ;;
               forM_ newerSecondaries
                 (fun secondary_ =>
                    updateContact (id secondary_) (relink old) ;;; ret tt)))
         (mkStore rs n j) (mergeRows old newer rs) n tt.
Proof.
  induction newer as [|c newer IH]; intros rs j Hin; simpl.
  - apply runs_ret_at.
  - destruct (updateContact_runs rs n j (id c) (demotion old)) as [c' Hc'].
    { apply Hin. now left. }
    eapply runs_bind with (rs1 := demoteRows old (id c) rs)
                          (n1 := n) (a := tt).
    + eapply runs_bind; [exact Hc'|].
      intros j'. eapply runs_bind.
      * apply findContactsByPrimaryId_runs.
      * intros j''. apply relinkAll_runs.
        intros d Hd. apply in_map.
        apply linkedLive_In in Hd. tauto.
    + intros j'. apply IH.
      intros d Hd. rewrite demoteRows_ids. apply Hin. now right.
Qed.

Lemma resolvePrimary_runs (contacts : list Contact) rs n j :
  (forall c, In c contacts -> In (id c) (map id rs)) ->
  runs (resolvePrimary contacts) (mkStore rs n j) (resolvedRows contacts rs)
       n (resolvedPrimary contacts).
Proof.
  intros Hin. unfold resolvePrimary, resolvedRows, resolvedPrimary, primariesOf.
  destruct (Nat.leb (List.length (filter isPrimary contacts)) 1) eqn:E.
  - apply runs_ret_at.
  - destruct (sortByCreatedAt (filter isPrimary contacts)) as [|old newer] eqn:Es.
    + apply sortByCreatedAt_nil in Es. rewrite Es in E. discriminate.
    + eapply runs_bind.
      * apply mergeLoop_runs. intros c Hc. apply Hin.
        assert (H : In c (sortByCreatedAt (filter isPrimary contacts)))
          by (rewrite Es; now right).
        apply sortByCreatedAt_In, filter_In in H. tauto.
      * intros j'. simpl. apply runs_ret_at.
Qed.

Lemma createSecondaryIfNeeded_runs (now : Z) (p : Contact)
      (e ph : option string) rs n j :
  runs (createSecondaryIfNeeded now (linkedLive rs (id p)) p e ph)
       (mkStore rs n j)
       (withSecondary n now p e ph rs) (seqAfterSecondary n p e ph rs) tt.
Proof.
  unfold createSecondaryIfNeeded, withSecondary, seqAfterSecondary.
  destruct (comboExists (p :: linkedLive rs (id p)) e ph) eqn:E.
  - apply runs_ret_at.
  - assert (Ht : truthy e || truthy ph = true).
    { destruct (truthy e) eqn:Ee; [reflexivity|].
      destruct (truthy ph) eqn:Ep; [reflexivity|].
      simpl in E. rewrite Ee, Ep in E. discriminate. }
    rewrite Ht. simpl negb. rewrite andb_true_l, orb_true_r.
    eapply runs_bind.
    + apply createContact_runs.
    + intros j'. apply runs_ret_at.
Qed.

End Stages.

(* ------------------------------------------------------------------ *)
(** ** The contact map of [collectFullCluster] *)

Lemma lookupId_In (rs : list Contact) (i : nat) (c : Contact) :
  lookupId rs i = Some c -> In c rs /\ id c = i.
Proof.
  unfold lookupId. intros H. apply find_some in H.
  destruct H as [H1 H2]. apply Nat.eqb_eq in H2. tauto.
Qed.

Lemma same_id_same_row (rs : list Contact) (c d : Contact) :
  NoDup (map id rs) -> In c rs -> In d rs -> id c = id d -> c = d.
Proof.
  induction rs as [|x rs IH]; simpl; [tauto|].
  intros Hnd Hc Hd E. inversion Hnd as [|? ? Hx Hnd']; subst.
  destruct Hc as [-> | Hc], Hd as [-> | Hd]; auto.
  - exfalso. apply Hx. rewrite E. now apply in_map.
  - exfalso. apply Hx. rewrite <- E. now apply in_map.
Qed.

Lemma lookupId_of_row (rs : list Contact) (c : Contact) :
  NoDup (map id rs) -> In c rs -> lookupId rs (id c) = Some c.
Proof.
  intros Hnd Hc.
  destruct (lookupId_some rs (id c) (in_map id _ _ Hc)) as [d Hd].
  rewrite Hd. f_equal.
  apply lookupId_In in Hd. destruct Hd as [Hd E].
  now apply (same_id_same_row rs).
Qed.

Lemma mapSet_keys (k : nat) (v : Contact) (m : list (nat * Contact)) (x : nat) :
  In x (map fst (mapSet k v m)) <-> x = k \/ In x (map fst m).
Proof.
  induction m as [|[k' v'] m IH]; simpl.
  - intuition.
  - destruct (Nat.eqb k' k) eqn:E; simpl.
    + apply Nat.eqb_eq in E. subst. intuition.
    + rewrite IH. intuition.
Qed.

Lemma mapSet_keys_NoDup (k : nat) (v : Contact) (m : list (nat * Contact)) :
  NoDup (map fst m) -> NoDup (map fst (mapSet k v m)).
Proof.
  induction m as [|[k' v'] m IH]; simpl; intros H.
  - repeat constructor. auto.
  - inversion H as [|? ? Hk Hm]; subst.
    destruct (Nat.eqb k' k) eqn:E; simpl.
    + apply Nat.eqb_eq in E. subst. now constructor.
    + constructor; [|now apply IH].
      rewrite mapSet_keys. apply Nat.eqb_neq in E. intuition.
Qed.

Lemma mapSet_entries (k : nat) (v : Contact) (m : list (nat * Contact))
      (e : nat * Contact) :
  In e (mapSet k v m) -> e = (k, v) \/ In e m.
Proof.
  induction m as [|[k' v'] m IH]; simpl.
  - intuition.
  - destruct (Nat.eqb k' k); simpl; intuition.
Qed.

Lemma mapSet_new (k : nat) (v : Contact) (m : list (nat * Contact)) :
  In (k, v) (mapSet k v m).
Proof.
  induction m as [|[k' v'] m IH]; simpl.
  - now left.
  - destruct (Nat.eqb k' k); simpl; auto.
Qed.

Lemma mapSet_old (k : nat) (v : Contact) (m : list (nat * Contact))
      (k' : nat) (v' : Contact) :
  In (k', v') m -> k' <> k -> In (k', v') (mapSet k v m).
Proof.
  induction m as [|[k1 v1] m IH]; simpl; [tauto|].
  intros [H | H] Hne.
  - inversion H; subst. apply Nat.eqb_neq in Hne. rewrite Hne. now left.
  - destruct (Nat.eqb k1 k); simpl; auto.
Qed.

Section ContactMap.
Variable rs : list Contact.
Hypothesis rs_ids : NoDup (map id rs).

Lemma mapSet_ok (v : Contact) (m : list (nat * Contact)) :
  mapOk rs m -> In v rs -> live v = true -> mapOk rs (mapSet (id v) v m).
Proof.
  intros [Hnd Hm] Hv Hl. split.
  - now apply mapSet_keys_NoDup.
  - intros k' v' H. apply mapSet_entries in H. destruct H as [H | H].
    + inversion H; subst. auto.
    + now apply Hm.
Qed.

Lemma mapSet_values (v : Contact) (m : list (nat * Contact)) (c : Contact) :
  mapOk rs m -> In v rs ->
  (In c (mapValues (mapSet (id v) v m)) <-> c = v \/ In c (mapValues m)).
Proof.
  intros [Hnd Hm] Hv. unfold mapValues. rewrite !in_map_iff. split.
  - intros [[k' v'] [E H]]. simpl in E. subst v'.
    apply mapSet_entries in H. destruct H as [H | H].
    + inversion H; subst. now left.
    + right. now exists (k', c).
  - intros [-> | [[k' v'] [E H]]].
    + exists (id v, v). split; [reflexivity | apply mapSet_new].
    + simpl in E. subst v'. destruct (Nat.eq_dec k' (id v)) as [E | E].
      * destruct (Hm _ _ H) as [Hk [Hc _]]. subst k'.
        assert (c = v) by (now apply (same_id_same_row rs)). subst c.
        exists (id v, v). split; [reflexivity | apply mapSet_new].
      * exists (k', c). split; [reflexivity | now apply mapSet_old].
Qed.

Lemma mapSetAll_ok (l : list Contact) :
  forall m, mapOk rs m ->
            (forall c, In c l -> In c rs /\ live c = true) ->
            mapOk rs (mapSetAll l m).
Proof.
  induction l as [|v l IH]; intros m Hm Hl; simpl; [exact Hm|].
  apply IH.
  - apply mapSet_ok; [exact Hm | apply Hl; now left ..].
  - intros c Hc. apply Hl. now right.
Qed.

Lemma mapSetAll_values (l : list Contact) (c : Contact) :
  forall m, mapOk rs m ->
            (forall d, In d l -> In d rs /\ live d = true) ->
            (In c (mapValues (mapSetAll l m)) <-> In c l \/ In c (mapValues m)).
Proof.
  induction l as [|v l IH]; intros m Hm Hl; simpl.
  - tauto.
  - unfold mapSetAll in IH. rewrite IH.
    + rewrite mapSet_values; [| exact Hm | apply Hl; now left]. intuition.
    + apply mapSet_ok; [exact Hm | apply Hl; now left ..].
    + intros d Hd. apply Hl. now right.
Qed.

Lemma mapHas_true (k : nat) (m : list (nat * Contact)) :
  mapOk rs m -> mapHas k m = true ->
  exists v, In v (mapValues m) /\ id v = k.
Proof.
  intros [_ Hm] H. unfold mapHas in H. apply existsb_exists in H.
  destruct H as [[k' v] [Hin E]]. simpl in E. apply Nat.eqb_eq in E. subst k'.
  exists v. split.
  - unfold mapValues. apply in_map_iff. now exists (k, v).
  - symmetry. now apply (Hm _ _ Hin).
Qed.

Lemma mapValues_in_table (m : list (nat * Contact)) (c : Contact) :
  mapOk rs m -> In c (mapValues m) -> In c rs /\ live c = true.
Proof.
  intros [_ Hm] H. unfold mapValues in H. apply in_map_iff in H.
  destruct H as [[k v] [E H]]. simpl in E. subst v.
  now apply (Hm _ _ H).
Qed.

Lemma linkedLive_rows (pid : nat) (c : Contact) :
  In c (linkedLive rs pid) -> In c rs /\ live c = true.
Proof.
  intros H. apply linkedLive_In in H. destruct H as [H1 H2].
  unfold linkedTo in H2. apply andb_prop in H2. tauto.
Qed.

Lemma collectStep_ok (m : list (nat * Contact)) (pid : nat) :
  mapOk rs m -> mapOk rs (collectStep rs m pid).
Proof.
  intros Hm. unfold collectStep. apply mapSetAll_ok.
  - destruct (negb (mapHas pid m)); [|exact Hm].
    destruct (lookupId rs pid) as [p'|] eqn:E; [|exact Hm].
    fold (live p'). destruct (live p') eqn:El; [|exact Hm].
    apply lookupId_In in E. apply mapSet_ok; tauto.
  - apply linkedLive_rows.
Qed.

(** What one iteration adds: the live row whose id is [pid], and the live
    rows linked to [pid]. *)
Lemma collectStep_values (m : list (nat * Contact)) (pid : nat) (c : Contact) :
  mapOk rs m ->
  (In c (mapValues (collectStep rs m pid)) <->
   In c (mapValues m)
   \/ (lookupId rs pid = Some c /\ live c = true)
   \/ In c (linkedLive rs pid)).
Proof.
  intros Hm. unfold collectStep.
  destruct (mapHas pid m) eqn:Eh; simpl negb; cbv iota.
  - rewrite mapSetAll_values; [| exact Hm | apply linkedLive_rows].
    split; [tauto|]. intros [H | [[H Hl] | H]]; auto.
    destruct (mapHas_true _ Hm Eh) as [v [Hv E]].
    apply lookupId_In in H.
    destruct (mapValues_in_table _ Hm Hv) as [Hv' _].
    assert (c = v) by (apply (same_id_same_row rs); intuition congruence).
    subst. now right.
  - destruct (lookupId rs pid) as [p'|] eqn:E.
    + fold (live p'). destruct (live p') eqn:El.
      * pose proof (lookupId_In _ _ E) as [Hp _].
        rewrite mapSetAll_values;
          [| apply mapSet_ok; auto | apply linkedLive_rows].
        rewrite mapSet_values by auto.
        split.
        -- intros [H | [H | H]]; auto. subst. auto.
        -- intros [H | [[H Hl] | H]]; auto. inversion H; subst. auto.
      * rewrite mapSetAll_values; [| exact Hm | apply linkedLive_rows].
        split; [tauto|]. intros [H | [[H Hl] | H]]; auto.
        inversion H; subst. congruence.
    + rewrite mapSetAll_values; [| exact Hm | apply linkedLive_rows].
      split; [tauto|]. intros [H | [[H Hl] | H]]; auto. discriminate.
Qed.

Lemma collectLoop_ok (l : list nat) :
  forall m, mapOk rs m -> mapOk rs (fold_left (collectStep rs) l m).
Proof.
  induction l as [|pid l IH]; intros m Hm; simpl; [exact Hm|].
  apply IH. now apply collectStep_ok.
Qed.

Lemma collectLoop_values (l : list nat) (c : Contact) :
  forall m, mapOk rs m ->
    (In c (mapValues (fold_left (collectStep rs) l m)) <->
     In c (mapValues m)
     \/ exists pid, In pid l
                    /\ ((lookupId rs pid = Some c /\ live c = true)
                        \/ In c (linkedLive rs pid))).
Proof.
  induction l as [|pid l IH]; intros m Hm; simpl.
  - split; [tauto|]. intros [H | [pid [[] _]]]. exact H.
  - rewrite IH by (now apply collectStep_ok).
    rewrite collectStep_values by exact Hm. split.
    + intros [[H | H] | [q [Hq H]]]; eauto 6.
    + intros [H | [q [[-> | Hq] H]]]; eauto 6.
Qed.

End ContactMap.

(* ------------------------------------------------------------------ *)
(** ** Membership in the collected cluster *)

Lemma setAdd_In (k : nat) (s : list nat) (x : nat) :
  In x (setAdd k s) <-> x = k \/ In x s.
Proof.
  unfold setAdd. destruct (existsb (Nat.eqb k) s) eqn:E.
  - split; [tauto|]. intros [-> | H]; [|exact H].
    apply existsb_exists in E. destruct E as [y [Hy E]].
    apply Nat.eqb_eq in E. now subst.
  - rewrite in_app_iff. simpl. intuition.
Qed.

Lemma primaryIdsOf_In (l : list Contact) (pid : nat) :
  In pid (ContactService.primaryIdsOf l) <->
  exists c, In c l /\ ownerId c = Some pid.
Proof.
  unfold ContactService.primaryIdsOf.
  assert (G : forall s,
             In pid (fold_left
                       (fun s c =>
                          if isPrimary c then setAdd (id c) s
                          else match linkedId c with
                               | Some l => if truthy_id (linkedId c)
                                           then setAdd l s else s
                               | None => s
                               end) l s)
             <-> In pid s \/ exists c, In c l /\ ownerId c = Some pid).
  { induction l as [|d l IH]; intros s; simpl.
    - split; [tauto|]. intros [H | [c [[] _]]]. exact H.
    - rewrite IH. unfold ownerId at 2.
      destruct (isPrimary d) eqn:Ep.
      + rewrite setAdd_In. split.
        * intros [[-> | H] | [c [Hc E]]]; eauto.
          right. exists d. unfold ownerId. rewrite Ep. auto.
        * intros [H | [c [[-> | Hc] E]]]; eauto.
          unfold ownerId in E. rewrite Ep in E. inversion E. auto.
      + destruct (linkedId d) as [q|] eqn:El.
        * destruct (truthy_id (Some q)) eqn:Et.
          -- rewrite setAdd_In. split.
             ++ intros [[-> | H] | [c [Hc E]]]; eauto.
                right. exists d. unfold ownerId. rewrite Ep, El, Et. auto.
             ++ intros [H | [c [[-> | Hc] E]]]; eauto.
                unfold ownerId in E. rewrite Ep, El, Et in E. inversion E. auto.
          -- split.
             ++ intros [H | [c [Hc E]]]; eauto.
             ++ intros [H | [c [[-> | Hc] E]]]; eauto.
                unfold ownerId in E. rewrite Ep, El, Et in E. discriminate.
        * split.
          -- intros [H | [c [Hc E]]]; eauto.
          -- intros [H | [c [[-> | Hc] E]]]; eauto.
             unfold ownerId in E. rewrite Ep, El in E. simpl in E. discriminate. }
  rewrite G. simpl. tauto.
Qed.

Section Cluster.
Variables (rs matching : list Contact).
Hypothesis rs_ids : NoDup (map id rs).
Hypothesis matching_rows : forall c, In c matching -> In c rs /\ live c = true.

Lemma mapOk_nil : mapOk rs [].
Proof. split; [constructor | intros k v []]. Qed.

Lemma clusterMap_ok : mapOk rs (clusterMap rs matching).
Proof.
  unfold clusterMap. apply collectLoop_ok.
  apply mapSetAll_ok; [apply mapOk_nil | exact matching_rows].
Qed.

Lemma clusterOf_In (c : Contact) :
  In c (clusterOf rs matching) <->
  In c matching
  \/ exists d pid, In d matching /\ ownerId d = Some pid
                   /\ ((lookupId rs pid = Some c /\ live c = true)
                       \/ In c (linkedLive rs pid)).
Proof.
  unfold clusterOf, clusterMap. rewrite sortByCreatedAt_In.
  assert (H0 : mapOk rs (mapSetAll matching []))
    by (apply mapSetAll_ok; [apply mapOk_nil | exact matching_rows]).
  rewrite (collectLoop_values rs_ids _ c H0).
  rewrite (mapSetAll_values rs_ids matching c mapOk_nil matching_rows).
  simpl. split.
  - intros [[H | []] | [pid [Hp H]]]; [now left|].
    apply primaryIdsOf_In in Hp. destruct Hp as [d [Hd E]]. eauto 6.
  - intros [H | [d [pid [Hd [E H]]]]]; [now left; left|].
    right. exists pid. split; [|exact H].
    apply primaryIdsOf_In. eauto.
Qed.

Lemma clusterOf_rows (c : Contact) :
  In c (clusterOf rs matching) -> In c rs /\ live c = true.
Proof.
  unfold clusterOf. rewrite sortByCreatedAt_In.
  apply mapValues_in_table, clusterMap_ok.
Qed.

Lemma clusterOf_ids_NoDup : NoDup (map id (clusterOf rs matching)).
Proof.
  unfold clusterOf. apply sortByCreatedAt_ids_NoDup.
  destruct clusterMap_ok as [Hnd Hm].
  assert (E : map id (mapValues (clusterMap rs matching))
              = map fst (clusterMap rs matching)).
  { unfold mapValues. rewrite map_map. apply map_ext_in.
    intros [k v] H. simpl. symmetry. now apply (Hm _ _ H). }
  now rewrite E.
Qed.

Lemma clusterOf_matching (c : Contact) :
  In c matching -> In c (clusterOf rs matching).
Proof. intros H. apply clusterOf_In. now left. Qed.

End Cluster.

(* ------------------------------------------------------------------ *)
(** ** The merge, row by row *)

Lemma memId_In (i : nat) (l : list nat) : memId i l = true <-> In i l.
Proof.
  unfold memId. rewrite existsb_exists. split.
  - intros [x [Hx E]]. apply Nat.eqb_eq in E. now subst.
  - intros H. exists i. split; [exact H | apply Nat.eqb_refl].
Qed.

Lemma memId_false (i : nat) (l : list nat) : memId i l = false <-> ~ In i l.
Proof.
  rewrite <- memId_In. destruct (memId i l); split; congruence.
Qed.

Section Merge.
Import ContactRepository.
Variable old : nat.

Lemma relinkAll_map (l : list Contact) :
  forall rs,
    fold_left (fun r c => updateRows (id c) (relink old) r) l rs
    = map (fun c => if memId (id c) (map id l) then relinked old c else c) rs.
Proof.
  induction l as [|d l IH]; intros rs; simpl.
  - symmetry. apply map_id.
  - rewrite IH. unfold updateRows. rewrite map_map. apply map_ext.
    intros c. rewrite (Nat.eqb_sym (id c) (id d)).
    destruct (Nat.eqb (id d) (id c)); simpl.
    + now destruct (memId (id c) (map id l)).
    + reflexivity.
Qed.

Lemma demoteRows_map (n : nat) (rs : list Contact) :
  NoDup (map id rs) -> old <> n ->
  demoteRows old n rs = map (mergeRow old [n]) rs.
Proof.
  intros Hnd Hne. unfold demoteRows. rewrite relinkAll_map.
  set (rs1 := updateRows n (demotion old) rs).
  assert (Hnd1 : NoDup (map id rs1))
    by (unfold rs1; now rewrite updateRows_ids).
  transitivity
    (map (fun c => if linkedTo n c then relinked old c else c) rs1).
  - apply map_ext_in. intros c Hc.
    destruct (linkedTo n c) eqn:E.
    + assert (H : In (id c) (map id (linkedLive rs1 n))).
      { apply in_map. apply linkedLive_In. auto. }
      apply memId_In in H. now rewrite H.
    + destruct (memId (id c) (map id (linkedLive rs1 n))) eqn:Em;
        [|reflexivity].
      apply memId_In, in_map_iff in Em. destruct Em as [d [Ed Hd]].
      apply linkedLive_In in Hd. destruct Hd as [Hd Hl].
      assert (d = c) by (now apply (same_id_same_row rs1)).
      subst. congruence.
  - unfold rs1, updateRows. rewrite map_map. apply map_ext.
    intros c. unfold mergeRow, memId, linkedInto, linkedTo. simpl.
    rewrite orb_false_r.
    destruct (Nat.eqb (id c) n) eqn:E; simpl.
    + assert (E' : Nat.eqb old n = false) by (now apply Nat.eqb_neq).
      unfold id_eq. simpl. now rewrite E'.
    + unfold id_eq. destruct (linkedId c) as [q|]; simpl.
      * rewrite orb_false_r, andb_comm. reflexivity.
      * rewrite andb_false_r. reflexivity.
Qed.

Lemma mergeRow_compose (n : nat) (newer : list nat) (c : Contact) :
  old <> n -> ~ In old newer ->
  mergeRow old newer (mergeRow old [n] c) = mergeRow old (n :: newer) c.
Proof.
  intros Hne Hold. apply memId_false in Hold.
  assert (E' : Nat.eqb old n = false) by (now apply Nat.eqb_neq).
  unfold mergeRow, linkedInto. unfold memId at 2 4 5. simpl.
  rewrite !orb_false_r.
  destruct (Nat.eqb (id c) n) eqn:E; simpl.
  - rewrite Hold, andb_false_r.
    now destruct (memId (id c) newer).
  - destruct (live c) eqn:El; simpl.
    + destruct (linkedId c) as [q|] eqn:Eq; simpl.
      * destruct (Nat.eqb q n) eqn:Eqn; simpl.
        -- rewrite Hold, andb_false_r.
           now destruct (memId (id c) newer).
        -- fold (memId q newer).
           destruct (memId (id c) newer); [reflexivity|].
           rewrite El, Eq. simpl. reflexivity.
      * destruct (memId (id c) newer); [reflexivity|].
        rewrite El, Eq. reflexivity.
    + destruct (memId (id c) newer); [reflexivity|].
      rewrite El. reflexivity.
Qed.

Lemma mergeRows_map (newer : list Contact) :
  forall rs,
    NoDup (map id rs) -> ~ In old (map id newer) ->
    mergeRows old newer rs = map (mergeRow old (map id newer)) rs.
Proof.
  induction newer as [|n newer IH]; intros rs Hnd Hold; simpl.
  - unfold mergeRows. simpl.
    transitivity (map (fun c : Contact => c) rs);
      [symmetry; apply map_id|].
    apply map_ext. intros c. unfold mergeRow, linkedInto. simpl.
    destruct (live c), (linkedId c); reflexivity.
  - simpl in Hold.
    assert (Hne : old <> id n) by intuition.
    assert (Hold' : ~ In old (map id newer)) by intuition.
    unfold mergeRows in *. simpl.
    rewrite IH; [| now rewrite demoteRows_ids | exact Hold'].
    rewrite demoteRows_map by assumption.
    rewrite map_map. apply map_ext. intros c.
    now apply mergeRow_compose.
Qed.

End Merge.

(* ------------------------------------------------------------------ *)
(** ** [identify] against its functional reading *)

Section Identify.
Import ContactRepository ContactService.

Lemma matchingIn_rows (rs : list Contact) (e p : option string) (c : Contact) :
  In c (matchingIn rs e p) -> In c rs /\ live c = true.
Proof.
  intros H. apply matchingIn_In in H. destruct H as [H1 H2].
  unfold matchesInput in H2. apply andb_prop in H2. tauto.
Qed.

Lemma cluster_ids_in_table (rs : list Contact) (e p : option string)
      (c : Contact) :
  In c (clusterOf rs (matchingIn rs e p)) -> In (id c) (map id rs).
Proof.
  intros H. apply in_map.
  eapply clusterOf_rows; [|exact H].
  intros d Hd. apply (matchingIn_rows _ _ _ _ Hd).
Qed.

Lemma handleNoMatch_runs (now : Z) (e p : option string) rs n j :
  runs (handleNoMatch now e p) (mkStore rs n j)
       (rs ++ [newPrimary n now e p]) (S n)
       (buildResponse (newPrimary n now e p) []).
Proof.
  unfold handleNoMatch. eapply runs_bind.
  - apply createContact_runs.
  - intros j'. apply runs_ret_at.
Qed.

Lemma handleMatch_runs (now : Z) (e p : option string) rs n j (pr : Contact) :
  let cl := clusterOf rs (matchingIn rs e p) in
  resolvedPrimary cl = Some pr ->
  runs (handleMatch now (matchingIn rs e p) e p) (mkStore rs n j)
       (withSecondary n now pr e p (resolvedRows cl rs))
       (seqAfterSecondary n pr e p (resolvedRows cl rs))
       (buildResponse pr
          (linkedLive (withSecondary n now pr e p (resolvedRows cl rs))
                      (id pr))).
Proof.
  intros cl Hp. unfold handleMatch.
  eapply runs_bind; [apply collectFullCluster_runs|]. intros j1.
  eapply runs_bind;
    [apply resolvePrimary_runs; apply cluster_ids_in_table|]. intros j2.
  fold cl. rewrite Hp. simpl refreshCluster.
  eapply runs_bind; [apply findContactsByPrimaryId_runs|]. intros j3.
  eapply runs_bind; [apply createSecondaryIfNeeded_runs|]. intros j4.
  eapply runs_bind; [apply findContactsByPrimaryId_runs|]. intros j5.
  apply runs_ret_at.
Qed.

Lemma handleMatch_throws (now : Z) (e p : option string) rs n j :
  let cl := clusterOf rs (matchingIn rs e p) in
  resolvedPrimary cl = None ->
  throws (handleMatch now (matchingIn rs e p) e p) (mkStore rs n j)
         (resolvedRows cl rs) n TypeError.
Proof.
  intros cl Hp. unfold handleMatch.
  eapply throws_bind_r; [apply collectFullCluster_runs|]. intros j1.
  eapply throws_bind_r;
    [apply resolvePrimary_runs; apply cluster_ids_in_table|]. intros j2.
  fold cl. rewrite Hp. apply throws_bind_l. eexists. reflexivity.
Qed.

(** Every call leaves [identifyRows], [identifySeq] and returns
    [identifyResult], whatever the journal. *)
Lemma identify_reading (now : Z) (e p : option string) rs n j :
  exists j',
    identify now e p (mkStore rs n j)
    = (mkStore (identifyRows now e p rs n) (identifySeq e p rs n) j',
       identifyResult now e p rs n).
Proof.
  unfold identifyRows, identifySeq, identifyResult.
  destruct (matchingIn rs e p) as [|c m] eqn:Em.
  - assert (H : runs (identify now e p) (mkStore rs n j)
                     (rs ++ [newPrimary n now e p]) (S n)
                     (buildResponse (newPrimary n now e p) [])).
    { apply runs_transaction. eapply runs_bind.
      - apply findMatchingContacts_runs.
      - intros j'. rewrite Em. simpl. apply handleNoMatch_runs. }
    exact H.
  - destruct (resolvedPrimary (clusterOf rs (c :: m))) as [pr|] eqn:Ep.
    + assert (H : runs (identify now e p) (mkStore rs n j)
                    (withSecondary n now pr e p
                       (resolvedRows (clusterOf rs (c :: m)) rs))
                    (seqAfterSecondary n pr e p
                       (resolvedRows (clusterOf rs (c :: m)) rs))
                    (buildResponse pr
                       (linkedLive
                          (withSecondary n now pr e p
                             (resolvedRows (clusterOf rs (c :: m)) rs))
                          (id pr)))).
      { apply runs_transaction. eapply runs_bind.
        - apply findMatchingContacts_runs.
        - intros j'. rewrite Em. simpl Nat.eqb. cbv iota.
          rewrite <- Em. apply handleMatch_runs. now rewrite Em. }
      exact H.
    + assert (H : throws (identify now e p) (mkStore rs n j) rs n TypeError).
      { eapply (throws_transaction (s := mkStore rs n j)).
        eapply throws_bind_r.
        - apply findMatchingContacts_runs.
        - intros j'. rewrite Em. simpl Nat.eqb. cbv iota.
          rewrite <- Em. apply handleMatch_throws. now rewrite Em. }
      exact H.
Qed.

End Identify.

(* ------------------------------------------------------------------ *)
(** ** The response lists *)

Lemma includes_In (l : list string) (s : string) :
  includes l s = true <-> In s l.
Proof.
  unfold includes. rewrite existsb_exists. split.
  - intros [x [Hx E]]. apply String.eqb_eq in E. now subst.
  - intros H. exists s. split; [exact H | apply String.eqb_refl].
Qed.

Lemma firstSeen_fresh (l : list string) :
  forall seen x, In x (firstSeen seen l) -> ~ In x seen /\ In x l.
Proof.
  induction l as [|y l IH]; intros seen x H; simpl in *; [tauto|].
  destruct (includes seen y) eqn:E.
  - apply IH in H. tauto.
  - destruct H as [-> | H].
    + split; [|now left]. intros Hin. apply includes_In in Hin. congruence.
    + apply IH in H. destruct H as [H1 H2]. split; [|now right].
      intros Hin. apply H1. apply in_or_app. now left.
Qed.

Lemma firstSeen_NoDup (l : list string) :
  forall seen, NoDup (firstSeen seen l).
Proof.
  induction l as [|y l IH]; intros seen; simpl; [constructor|].
  destruct (includes seen y); [apply IH|].
  constructor; [|apply IH].
  intros H. apply firstSeen_fresh in H. destruct H as [H _].
  apply H. apply in_or_app. right. now left.
Qed.

Lemma firstSeen_complete (l : list string) :
  forall seen x, In x l -> In x seen \/ In x (firstSeen seen l).
Proof.
  induction l as [|y l IH]; intros seen x H; simpl in *; [tauto|].
  destruct (includes seen y) eqn:E.
  - destruct H as [-> | H]; [left; now apply includes_In | now apply IH].
  - destruct H as [-> | H]; [right; now left|].
    destruct (IH (seen ++ [y]) x H) as [H' | H'].
    + apply in_app_or in H'. destruct H' as [H' | [-> | []]]; auto.
      right. now left.
    + right. now right.
Qed.

Lemma pushFresh_fold (f : Contact -> option string) (l : list Contact) :
  forall acc,
    fold_left pushFresh (map f l) acc = acc ++ firstSeen acc (presentValues f l).
Proof.
  induction l as [|c l IH]; intros acc; simpl.
  - now rewrite app_nil_r.
  - rewrite IH. unfold pushFresh.
    destruct (f c) as [s|] eqn:E; [|reflexivity].
    destruct (truthy (Some s)) eqn:Et; simpl; [|reflexivity].
    destruct (includes acc s) eqn:Ei; simpl; [reflexivity|].
    now rewrite <- app_assoc.
Qed.

Section Response.
Import ContactService.

Lemma buildResponse_fold (l : list Contact) :
  forall es ps ids,
    fold_left
      (fun acc secondary_ =>
         let '(es, ps, ids) := acc in
         (pushFresh es (email secondary_),
          pushFresh ps (phoneNumber secondary_),
          ids ++ [id secondary_]))
      l (es, ps, ids)
    = (fold_left pushFresh (map email l) es,
       fold_left pushFresh (map phoneNumber l) ps,
       ids ++ map id l).
Proof.
  induction l as [|c l IH]; intros es ps ids; simpl.
  - now rewrite app_nil_r.
  - rewrite IH. now rewrite <- app_assoc.
Qed.

Lemma pushTruthy_first (f : Contact -> option string) (p : Contact)
      (l : list Contact) :
  pushTruthy [] (f p) ++ firstSeen (pushTruthy [] (f p)) (presentValues f l)
  = firstSeen [] (presentValues f (p :: l)).
Proof.
  unfold pushTruthy. simpl.
  destruct (f p) as [s|]; [|reflexivity].
  destruct (truthy (Some s)); reflexivity.
Qed.

Lemma buildResponse_lists (p : Contact) (l : list Contact) :
  buildResponse p l
  = mkResponse (id p)
               (firstSeen [] (presentValues email (p :: l)))
               (firstSeen [] (presentValues phoneNumber (p :: l)))
               (map id l).
Proof.
  unfold buildResponse. rewrite buildResponse_fold.
  rewrite !pushFresh_fold, !pushTruthy_first. reflexivity.
Qed.

End Response.

Lemma linkedLive_sorted (rs : list Contact) (pid : nat) :
  Sorted byCreatedAt (linkedLive rs pid).
Proof. apply sortByCreatedAt_sorted. Qed.

Lemma linkedTo_spec (pid : nat) (c : Contact) :
  linkedTo pid c = true <-> linkedId c = Some pid /\ deletedAt c = None.
Proof.
  unfold linkedTo, id_eq, live, is_null.
  destruct (linkedId c) as [q|], (deletedAt c); simpl;
    rewrite ?andb_true_r, ?andb_false_r, ?Nat.eqb_eq;
    intuition congruence.
Qed.

(* ------------------------------------------------------------------ *)
(** ** What a merge does to one row *)

Section MergeRow.
Variables (old : nat) (newer : list nat) (c : Contact).

Lemma mergeRow_id : id (mergeRow old newer c) = id c.
Proof.
  unfold mergeRow. destruct (memId (id c) newer); [reflexivity|].
  now destruct (linkedInto newer c).
Qed.

Lemma mergeRow_email : email (mergeRow old newer c) = email c.
Proof.
  unfold mergeRow. destruct (memId (id c) newer); [reflexivity|].
  now destruct (linkedInto newer c).
Qed.

Lemma mergeRow_phoneNumber : phoneNumber (mergeRow old newer c) = phoneNumber c.
Proof.
  unfold mergeRow. destruct (memId (id c) newer); [reflexivity|].
  now destruct (linkedInto newer c).
Qed.

Lemma mergeRow_createdAt : createdAt (mergeRow old newer c) = createdAt c.
Proof.
  unfold mergeRow. destruct (memId (id c) newer); [reflexivity|].
  now destruct (linkedInto newer c).
Qed.

Lemma mergeRow_live : live (mergeRow old newer c) = live c.
Proof.
  unfold mergeRow. destruct (memId (id c) newer); [reflexivity|].
  now destruct (linkedInto newer c).
Qed.

Lemma mergeRow_linkPrecedence :
  linkPrecedence (mergeRow old newer c)
  = if memId (id c) newer then secondary else linkPrecedence c.
Proof.
  unfold mergeRow. destruct (memId (id c) newer); [reflexivity|].
  now destruct (linkedInto newer c).
Qed.

Lemma mergeRow_linkedId :
  linkedId (mergeRow old newer c)
  = if memId (id c) newer || linkedInto newer c then Some old
    else linkedId c.
Proof.
  unfold mergeRow. destruct (memId (id c) newer); [reflexivity|].
  now destruct (linkedInto newer c).
Qed.

Lemma mergeRow_untouched :
  memId (id c) newer = false -> linkedInto newer c = false ->
  mergeRow old newer c = c.
Proof. unfold mergeRow. now intros -> ->. Qed.

End MergeRow.

Lemma mergeRow_nil (old : nat) (c : Contact) : mergeRow old [] c = c.
Proof.
  apply mergeRow_untouched; [reflexivity|].
  unfold linkedInto. destruct (live c), (linkedId c); reflexivity.
Qed.

Lemma mergeRow_matchesInput (old : nat) (newer : list nat)
      (e p : option string) (c : Contact) :
  matchesInput e p (mergeRow old newer c) = matchesInput e p c.
Proof.
  unfold matchesInput, ContactRepository.anyOf, ContactRepository.conditionsFor.
  rewrite mergeRow_live.
  destruct (truthy e), (truthy p); simpl;
    now rewrite ?mergeRow_email, ?mergeRow_phoneNumber.
Qed.

Lemma isPrimary_spec (c : Contact) :
  isPrimary c = true <-> linkPrecedence c = primary.
Proof. unfold isPrimary. destruct (linkPrecedence c); simpl; intuition congruence. Qed.

Lemma not_primary_secondary (c : Contact) :
  linkPrecedence c <> primary <-> linkPrecedence c = secondary.
Proof. destruct (linkPrecedence c); intuition congruence. Qed.

Lemma filter_ids_NoDup (f : Contact -> bool) (l : list Contact) :
  NoDup (map id l) -> NoDup (map id (filter f l)).
Proof.
  induction l as [|c l IH]; simpl; intros H; [constructor|].
  inversion H as [|? ? Hc Hl]; subst.
  destruct (f c); simpl; [|now apply IH].
  constructor; [|now apply IH].
  intros Hin. apply Hc. apply in_map_iff in Hin.
  destruct Hin as [d [E Hd]]. apply filter_In in Hd.
  rewrite <- E. apply in_map. tauto.
Qed.

(** A list with distinct ids whose members all carry the id of one of them
    is that single member. *)
Lemma single_by_id (l : list Contact) (p : Contact) :
  NoDup (map id l) -> In p l -> (forall c, In c l -> id c = id p) -> l = [p].
Proof.
  intros Hnd Hp Hall. destruct l as [|a l]; [destruct Hp|].
  assert (Ea : a = p).
  { apply (same_id_same_row (a :: l)); auto. now left. apply Hall. now left. }
  subst a. destruct l as [|b l]; [reflexivity|]. exfalso.
  inversion Hnd as [|? ? Hn _]; subst. apply Hn. simpl. left.
  apply Hall. right. now left.
Qed.

(* ------------------------------------------------------------------ *)
(** ** The outcome of [resolvePrimary] *)

Section Resolve.
Variable cl : list Contact.

Lemma resolved_none :
  primariesOf cl = [] ->
  resolvedPrimary cl = None /\ forall rs, resolvedRows cl rs = rs.
Proof.
  intros H. unfold resolvedPrimary, resolvedRows. rewrite H. simpl. auto.
Qed.

Lemma resolvedPrimary_none :
  resolvedPrimary cl = None -> primariesOf cl = [].
Proof.
  unfold resolvedPrimary.
  destruct (Nat.leb (List.length (primariesOf cl)) 1) eqn:E.
  - now destruct (primariesOf cl).
  - destruct (sortByCreatedAt (primariesOf cl)) eqn:Es; [|discriminate].
    intros _. now apply sortByCreatedAt_nil.
Qed.

Hypothesis cl_ids : NoDup (map id cl).

(** With at least one primary in the cluster, the oldest one is returned
    and every row of the table is rewritten by [mergeRow]. *)
Lemma resolved_some :
  primariesOf cl <> [] ->
  exists old newer,
    sortByCreatedAt (primariesOf cl) = old :: newer
    /\ resolvedPrimary cl = Some old
    /\ ~ In (id old) (map id newer)
    /\ forall rs, NoDup (map id rs) ->
         resolvedRows cl rs = map (mergeRow (id old) (map id newer)) rs.
Proof.
  intros Hne.
  destruct (sortByCreatedAt (primariesOf cl)) as [|old newer] eqn:Es.
  { apply sortByCreatedAt_nil in Es. contradiction. }
  exists old, newer.
  assert (Hnd : NoDup (map id (old :: newer))).
  { rewrite <- Es. apply sortByCreatedAt_ids_NoDup.
    now apply filter_ids_NoDup. }
  assert (Hold : ~ In (id old) (map id newer))
    by (now inversion Hnd).
  split; [reflexivity|]. unfold resolvedPrimary, resolvedRows.
  destruct (Nat.leb (List.length (primariesOf cl)) 1) eqn:E.
  - destruct (primariesOf cl) as [|x [|y l]] eqn:Ep;
      [contradiction | | discriminate].
    simpl in Es. inversion Es; subst. simpl.
    repeat split; auto. intros rs _.
    transitivity (map (fun c : Contact => c) rs);
      [symmetry; apply map_id|].
    apply map_ext. intros c. symmetry. apply mergeRow_nil.
  - rewrite Es. simpl. repeat split; auto.
    intros rs Hrs. now apply mergeRows_map.
Qed.

Lemma resolved_members (old : Contact) (newer : list Contact) :
  sortByCreatedAt (primariesOf cl) = old :: newer ->
  (forall c, In c cl -> isPrimary c = true -> c = old \/ In c newer)
  /\ In old cl /\ isPrimary old = true
  /\ (forall c, In c newer -> In c cl /\ isPrimary c = true)
  /\ (forall c, In c newer -> (createdAt old <= createdAt c)%Z).
Proof.
  intros Es.
  assert (Hin : forall c, In c (old :: newer) <-> In c cl /\ isPrimary c = true).
  { intros c. rewrite <- Es, sortByCreatedAt_In. apply filter_In. }
  split; [|split; [|split; [|split]]].
  - intros c Hc Hp. destruct (proj2 (Hin c) (conj Hc Hp)) as [H | H]; auto.
  - apply (Hin old). now left.
  - apply (Hin old). now left.
  - intros c Hc. apply (Hin c). now right.
  - apply sorted_head_oldest. rewrite <- Es. apply sortByCreatedAt_sorted.
Qed.

End Resolve.

(* ------------------------------------------------------------------ *)
(** ** Anatomy of one call *)

Section Call.
Variables (rs : list Contact) (n : nat) (now : Z) (e p : option string).
Hypothesis table : tableOk rs n.

Let m := matchingIn rs e p.
Let cl := clusterOf rs m.

Lemma cluster_rows (c : Contact) : In c cl -> In c rs /\ live c = true.
Proof.
  apply clusterOf_rows. intros d Hd. apply (matchingIn_rows _ _ _ _ Hd).
Qed.

Lemma cluster_ids : NoDup (map id cl).
Proof.
  apply clusterOf_ids_NoDup. intros d Hd. apply (matchingIn_rows _ _ _ _ Hd).
Qed.

Lemma cluster_In (c : Contact) :
  In c cl <->
  In c m
  \/ exists d pid, In d m /\ ownerId d = Some pid
                   /\ ((lookupId rs pid = Some c /\ live c = true)
                       \/ In c (linkedLive rs pid)).
Proof.
  apply clusterOf_In; [apply table|].
  intros d Hd. apply (matchingIn_rows _ _ _ _ Hd).
Qed.

Lemma identify_noMatch :
  m = [] ->
  identifyRows now e p rs n = rs ++ [newPrimary n now e p]
  /\ identifySeq e p rs n = S n
  /\ identifyResult now e p rs n
     = Ok (ContactService.buildResponse (newPrimary n now e p) []).
Proof.
  unfold identifyRows, identifySeq, identifyResult. fold m.
  intros ->. auto.
Qed.

Lemma identify_throw :
  m <> [] -> resolvedPrimary cl = None ->
  identifyRows now e p rs n = rs
  /\ identifySeq e p rs n = n
  /\ identifyResult now e p rs n = Throw TypeError.
Proof.
  unfold identifyRows, identifySeq, identifyResult, cl. fold m.
  intros Hm Hp. destruct m; [contradiction|]. rewrite Hp. auto.
Qed.

Lemma identify_match (pr : Contact) :
  m <> [] -> resolvedPrimary cl = Some pr ->
  identifyRows now e p rs n = withSecondary n now pr e p (resolvedRows cl rs)
  /\ identifySeq e p rs n = seqAfterSecondary n pr e p (resolvedRows cl rs)
  /\ identifyResult now e p rs n
     = Ok (ContactService.buildResponse pr
             (linkedLive (withSecondary n now pr e p (resolvedRows cl rs))
                         (id pr))).
Proof.
  unfold identifyRows, identifySeq, identifyResult, cl. fold m.
  intros Hm Hp. destruct m; [contradiction|]. rewrite Hp. auto.
Qed.

(** The three ways a call can go. *)
Lemma identify_cases :
  (m = [])
  \/ (m <> [] /\ resolvedPrimary cl = None)
  \/ (m <> [] /\ exists pr, resolvedPrimary cl = Some pr).
Proof.
  destruct m; [now left | right].
  destruct (resolvedPrimary cl) as [pr|].
  - right. split; [discriminate | eauto].
  - left. split; [discriminate | reflexivity].
Qed.

(** When a primary is resolved: it is a live primary row, the other
    primaries of the cluster are live rows as well, and the table is
    rewritten row by row. *)
Lemma resolved_anatomy (pr : Contact) :
  resolvedPrimary cl = Some pr ->
  exists newer,
    sortByCreatedAt (primariesOf cl) = pr :: newer
    /\ In pr cl /\ In pr rs /\ live pr = true /\ linkPrecedence pr = primary
    /\ (forall c, In c newer ->
          In c cl /\ In c rs /\ live c = true /\ linkPrecedence c = primary)
    /\ (forall c, In c cl -> linkPrecedence c = primary ->
          c = pr \/ In c newer)
    /\ ~ In (id pr) (map id newer)
    /\ resolvedRows cl rs = map (mergeRow (id pr) (map id newer)) rs.
Proof.
  intros Hp.
  assert (Hne : primariesOf cl <> []).
  { intros H. apply resolved_none in H. destruct H as [H _]. congruence. }
  destruct (resolved_some cl cluster_ids Hne) as [old [newer [Es [Ho [Hold Hr]]]]].
  assert (old = pr) by congruence. subst old.
  destruct (resolved_members cl Es) as [H1 [H2 [H3 [H4 H5]]]].
  exists newer. split; [exact Es|].
  destruct (cluster_rows _ H2) as [H2r H2l].
  repeat split; auto.
  - now apply isPrimary_spec.
  - now apply H4.
  - apply cluster_rows. now apply H4.
  - apply cluster_rows. now apply H4.
  - apply isPrimary_spec. now apply H4.
  - intros c Hc Hpc. apply H1; [exact Hc | now apply isPrimary_spec].
  - apply Hr. apply table.
Qed.

End Call.

(* ------------------------------------------------------------------ *)
(** ** The invariants are kept by a call *)

Lemma tableOk_ids (rs : list Contact) (n : nat) :
  tableOk rs n -> NoDup (map id rs).
Proof. now intros [H _]. Qed.

Lemma tableOk_bounds (rs : list Contact) (n : nat) (c : Contact) :
  tableOk rs n -> In c rs -> 1 <= id c < n.
Proof. intros [_ [_ H]]. apply H. Qed.

Lemma tableOk_append (rs : list Contact) (n : nat) (c : Contact) :
  tableOk rs n -> id c = n -> tableOk (rs ++ [c]) (S n).
Proof.
  intros [Hnd [Hn Hb]] Hc. split; [|split].
  - rewrite map_app. simpl. apply NoDup_app; auto.
    + repeat constructor. auto.
    + intros x Hx [Hy | []]. subst x. apply in_map_iff in Hx.
      destruct Hx as [d [Ed Hd]]. apply Hb in Hd. lia.
  - lia.
  - intros d Hd. apply in_app_or in Hd. destruct Hd as [Hd | [<- | []]].
    + apply Hb in Hd. lia.
    + lia.
Qed.

Lemma map_mergeRow_ids (old : nat) (newer : list nat) (rs : list Contact) :
  map id (map (mergeRow old newer) rs) = map id rs.
Proof.
  rewrite map_map. apply map_ext. intros c. apply mergeRow_id.
Qed.

Lemma tableOk_merge (old : nat) (newer : list nat) (rs : list Contact) (n : nat) :
  tableOk rs n -> tableOk (map (mergeRow old newer) rs) n.
Proof.
  intros [Hnd [Hn Hb]]. split; [|split]; auto.
  - now rewrite map_mergeRow_ids.
  - intros c Hc. apply in_map_iff in Hc. destruct Hc as [d [<- Hd]].
    rewrite mergeRow_id. now apply Hb.
Qed.

Lemma tableOk_withSecondary (rs : list Contact) (n : nat) (now : Z)
      (pr : Contact) (e p : option string) :
  tableOk rs n ->
  tableOk (withSecondary n now pr e p rs) (seqAfterSecondary n pr e p rs).
Proof.
  intros H. unfold withSecondary, seqAfterSecondary.
  destruct (ContactService.comboExists _ e p); [exact H|].
  now apply tableOk_append.
Qed.

Section MergeKeeps.
Variables (rs : list Contact) (pr : Contact) (newer : list nat).
Hypothesis pr_row : In pr rs.
Hypothesis pr_primary : linkPrecedence pr = primary.
Hypothesis pr_wins : ~ In (id pr) newer.

Let rs' := map (mergeRow (id pr) newer) rs.

Lemma winner_after_merge :
  In (mergeRow (id pr) newer pr) rs'
  /\ id (mergeRow (id pr) newer pr) = id pr
  /\ linkPrecedence (mergeRow (id pr) newer pr) = primary.
Proof.
  split; [now apply in_map|]. split; [apply mergeRow_id|].
  rewrite mergeRow_linkPrecedence.
  apply memId_false in pr_wins. now rewrite pr_wins.
Qed.

Lemma starLive_merge : starLive rs -> starLive rs'.
Proof.
  intros Hs c' Hc' Hsec Hlive.
  apply in_map_iff in Hc'. destruct Hc' as [c [<- Hc]].
  rewrite mergeRow_live in Hlive.
  rewrite mergeRow_linkPrecedence in Hsec.
  rewrite mergeRow_linkedId.
  destruct winner_after_merge as [W1 [W2 W3]].
  destruct (memId (id c) newer) eqn:Em; simpl.
  { exists (id pr), (mergeRow (id pr) newer pr). auto. }
  destruct (linkedInto newer c) eqn:El.
  { exists (id pr), (mergeRow (id pr) newer pr). auto. }
  destruct (Hs c Hc Hsec Hlive) as [q [d [Hq [Hd [Ed Hp]]]]].
  exists q, (mergeRow (id pr) newer d).
  split; [exact Hq|]. split; [now apply in_map|].
  split; [now rewrite mergeRow_id|].
  rewrite mergeRow_linkPrecedence.
  destruct (memId (id d) newer) eqn:E; [|exact Hp].
  unfold linkedInto in El. rewrite Hlive, Hq, <- Ed, E in El. discriminate.
Qed.

Lemma primariesUnlinked_merge : primariesUnlinked rs -> primariesUnlinked rs'.
Proof.
  intros Hu c' Hc' Hp.
  apply in_map_iff in Hc'. destruct Hc' as [c [<- Hc]].
  rewrite mergeRow_linkPrecedence in Hp. rewrite mergeRow_linkedId.
  destruct (memId (id c) newer); [discriminate|]. simpl.
  pose proof (Hu c Hc Hp) as Hl.
  unfold linkedInto. rewrite Hl, andb_false_r. reflexivity.
Qed.

End MergeKeeps.

Lemma starLive_append (rs : list Contact) (c : Contact) :
  starLive rs ->
  (linkPrecedence c = secondary ->
   exists q d, linkedId c = Some q /\ In d rs /\ id d = q
               /\ linkPrecedence d = primary) ->
  starLive (rs ++ [c]).
Proof.
  intros Hs Hc x Hx Hsec Hlive.
  apply in_app_or in Hx. destruct Hx as [Hx | [<- | []]].
  - destruct (Hs x Hx Hsec Hlive) as [q [d [H1 [H2 [H3 H4]]]]].
    exists q, d. repeat split; auto. apply in_or_app. now left.
  - destruct (Hc Hsec) as [q [d [H1 [H2 [H3 H4]]]]].
    exists q, d. repeat split; auto. apply in_or_app. now left.
Qed.

Lemma primariesUnlinked_append (rs : list Contact) (c : Contact) :
  primariesUnlinked rs ->
  (linkPrecedence c = primary -> linkedId c = None) ->
  primariesUnlinked (rs ++ [c]).
Proof.
  intros Hu Hc x Hx Hp.
  apply in_app_or in Hx. destruct Hx as [Hx | [<- | []]]; auto.
Qed.

Section Keeps.
Variables (rs : list Contact) (n : nat) (now : Z) (e p : option string).
Hypothesis table : tableOk rs n.

Lemma identify_tableOk :
  tableOk (identifyRows now e p rs n) (identifySeq e p rs n).
Proof.
  destruct (identify_cases rs e p) as [H | [[Hm H] | [Hm [pr H]]]].
  - destruct (identify_noMatch rs n now e p H) as [-> [-> _]].
    now apply tableOk_append.
  - destruct (identify_throw rs n now e p Hm H) as [-> [-> _]]. exact table.
  - destruct (identify_match rs n now e p Hm H) as [-> [-> _]].
    apply tableOk_withSecondary.
    destruct (resolved_anatomy e p table H) as [newer [_ [_ [_ [_ [_ [_ [_ [_ ->]]]]]]]]].
    now apply tableOk_merge.
Qed.

Lemma identify_starLive :
  starLive rs -> starLive (identifyRows now e p rs n).
Proof.
  intros Hs.
  destruct (identify_cases rs e p) as [H | [[Hm H] | [Hm [pr H]]]].
  - destruct (identify_noMatch rs n now e p H) as [-> _].
    apply starLive_append; [exact Hs | discriminate].
  - destruct (identify_throw rs n now e p Hm H) as [-> _]. exact Hs.
  - destruct (identify_match rs n now e p Hm H) as [-> _].
    destruct (resolved_anatomy e p table H)
      as [newer [_ [_ [Hr [_ [Hp [_ [_ [Hw ->]]]]]]]]].
    destruct (winner_after_merge rs pr (map id newer) Hr Hp Hw) as [W1 [W2 W3]].
    pose proof (starLive_merge pr (map id newer) Hr Hp Hw Hs) as Hs'.
    unfold withSecondary.
    destruct (ContactService.comboExists _ e p); [exact Hs'|].
    apply starLive_append; [exact Hs'|]. intros _.
    exists (id pr), (mergeRow (id pr) (map id newer) pr). auto.
Qed.

Lemma identify_primariesUnlinked :
  primariesUnlinked rs -> primariesUnlinked (identifyRows now e p rs n).
Proof.
  intros Hu.
  destruct (identify_cases rs e p) as [H | [[Hm H] | [Hm [pr H]]]].
  - destruct (identify_noMatch rs n now e p H) as [-> _].
    apply primariesUnlinked_append; [exact Hu | reflexivity].
  - destruct (identify_throw rs n now e p Hm H) as [-> _]. exact Hu.
  - destruct (identify_match rs n now e p Hm H) as [-> _].
    destruct (resolved_anatomy e p table H)
      as [newer [_ [_ [Hr [_ [Hp [_ [_ [Hw ->]]]]]]]]].
    pose proof (primariesUnlinked_merge pr (map id newer) Hu) as Hu'.
    unfold withSecondary.
    destruct (ContactService.comboExists _ e p); [exact Hu'|].
    apply primariesUnlinked_append; [exact Hu' | discriminate].
Qed.

End Keeps.

(* ------------------------------------------------------------------ *)
(** ** Concrete tables *)

Ltac in_rows H :=
  simpl in H;
  repeat (let E := fresh "E" in destruct H as [E | H]; [try subst|]);
  try contradiction.

Ltac table_ok :=
  split; [simpl; once (repeat constructor); simpl; intuition discriminate
         | split; [simpl; lia
                  | let c := fresh "c" in let H := fresh "H" in
                    intros c H; in_rows H; simpl; lia]].

Lemma twoClusters_tableOk : tableOk (rows twoClusters) (nextId twoClusters).
Proof. table_ok. Defined.

Lemma twoClusters_primariesUnlinked : primariesUnlinked (rows twoClusters).
Proof. intros c H Hp. in_rows H; (reflexivity || discriminate). Defined.

Lemma twoClusters_starAll : starAll (rows twoClusters).
Proof.
  intros c H Hs. in_rows H; try discriminate;
    exists 2, bob; simpl; auto 6.
Defined.

Lemma twoClusters_starLive : starLive (rows twoClusters).
Proof. intros c H Hs _. now apply twoClusters_starAll. Defined.

Lemma twoClusters_storeOk : storeOk twoClusters.
Proof.
  split; [apply twoClusters_tableOk|].
  split; [apply twoClusters_primariesUnlinked | apply twoClusters_starLive].
Defined.

Lemma emptyStore_storeOk : storeOk emptyStore.
Proof.
  split; [table_ok|]. split.
  - intros c [].
  - intros c [].
Defined.

(* ------------------------------------------------------------------ *)
(** ** Star topology (C5) *)

Lemma identify_run (now : Z) (e p : option string) (s : Store) :
  exists j',
    ContactService.identify now e p s
    = (mkStore (identifyRows now e p (rows s) (nextId s))
               (identifySeq e p (rows s) (nextId s)) j',
       identifyResult now e p (rows s) (nextId s)).
Proof. destruct s as [rs n j]. apply identify_reading. Qed.

Lemma identify_rows (now : Z) (e p : option string) (s s' : Store)
      (r : Result IdentifyResponse) :
  ContactService.identify now e p s = (s', r) ->
  rows s' = identifyRows now e p (rows s) (nextId s)
  /\ nextId s' = identifySeq e p (rows s) (nextId s)
  /\ r = identifyResult now e p (rows s) (nextId s).
Proof.
  intros H. destruct (identify_run now e p s) as [j' Hj].
  rewrite Hj in H. inversion H; subst. auto.
Qed.

Lemma reachable_invariants (s0 s : Store) :
  tableOk (rows s0) (nextId s0) -> starLive (rows s0) ->
  reachable s0 s ->
  tableOk (rows s) (nextId s) /\ starLive (rows s).
Proof.
  intros Ht Hs Hr. induction Hr as [|s now e p s' r Hr IH Hcall].
  - auto.
  - destruct IH as [IHt IHs].
    apply identify_rows in Hcall. destruct Hcall as [-> [-> _]].
    split; [now apply identify_tableOk | now apply identify_starLive].
Qed.

(** The data-model invariants hold in every store reached from a store
    where they hold, the empty store among them. *)
Lemma reachable_storeOk (s0 s : Store) :
  storeOk s0 -> reachable s0 s -> storeOk s.
Proof.
  intros H0 Hr. induction Hr as [|s now e p s' r Hr IH Hcall]; [exact H0|].
  destruct IH as [IHt [IHu IHs]].
  apply identify_rows in Hcall. destruct Hcall as [Hrows [Hn _]].
  unfold storeOk. rewrite Hrows, Hn.
  split; [now apply identify_tableOk|].
  split; [now apply identify_primariesUnlinked | now apply identify_starLive].
Qed.

(** C5 (amended): in every state reached by completed identify calls from a
    table with a sound primary key in which every contact that is secondary
    and not soft-deleted has a [linkedId] referring to a contact whose
    [linkPrecedence] is primary, the same holds: a live secondary never
    points at a secondary, so the link depth of live contacts is at most 1. *)
Theorem star_topology_kept (s0 s : Store) :
  tableOk (rows s0) (nextId s0) -> starLive (rows s0) ->
  reachable s0 s ->
  forall c, In c (rows s) -> linkPrecedence c = secondary -> live c = true ->
    exists q owner,
      linkedId c = Some q /\ In owner (rows s) /\ id owner = q
      /\ linkPrecedence owner = primary.
Proof.
  intros Ht Hs Hr. exact (proj2 (reachable_invariants Ht Hs Hr)).
Qed.

Lemma twoClusters_merged :
  ContactService.identify 100 joinEmail joinPhone twoClusters
  = (mergedClusters,
     Ok (mkResponse 1 ["a@x.com"%string; "b@x.com"%string; "c@x.com"%string]
                    ["111"%string; "222"%string] [2; 3; 5])).
Proof. vm_compute. reflexivity. Defined.

Lemma mergedClusters_rows :
  rows mergedClusters
  = [alice; demoted 1 bob; relinked 1 bobAlias; bobRetired;
     newSecondary 5 100 alice joinEmail joinPhone].
Proof. vm_compute. reflexivity. Defined.

Lemma mergedClusters_reachable : reachable twoClusters mergedClusters.
Proof.
  eapply reach_call; [apply reach_here | apply twoClusters_merged].
Defined.

Lemma star_topology_kept_witness :
  tableOk (rows twoClusters) (nextId twoClusters)
  /\ starLive (rows twoClusters)
  /\ exists q owner,
       linkedId (relinked 1 bobAlias) = Some q
       /\ In owner (rows mergedClusters) /\ id owner = q
       /\ linkPrecedence owner = primary.
Proof.
  split; [apply twoClusters_tableOk|]. split; [apply twoClusters_starLive|].
  apply (star_topology_kept (s0 := twoClusters) (s := mergedClusters)).
  - apply twoClusters_tableOk.
  - apply twoClusters_starLive.
  - apply mergedClusters_reachable.
  - rewrite mergedClusters_rows. simpl. auto.
  - reflexivity.
  - reflexivity.
Defined.

(** C5 as stated fails: a soft-deleted secondary of a primary that is
    demoted keeps pointing at it, so after the merge a secondary points at
    a secondary. *)
Lemma star_over_all_contacts_broken : ~ starKeptAsStated twoClusters.
Proof.
  intros H.
  specialize (H twoClusters_starAll mergedClusters mergedClusters_reachable).
  rewrite mergedClusters_rows in H.
  destruct (H bobRetired) as [q [owner [Hq [Hin [Hid Hp]]]]].
  - simpl. auto.
  - reflexivity.
  - simpl in Hq. inversion Hq; subst q.
    in_rows Hin; simpl in *; discriminate.
Qed.

(* ------------------------------------------------------------------ *)
(** ** No match (C7) *)

Lemma filter_none {A} (f : A -> bool) (l : list A) :
  (forall x, In x l -> f x = false) -> filter f l = [].
Proof.
  induction l as [|x l IH]; simpl; intros H; [reflexivity|].
  rewrite (H x) by now left. apply IH. intros y Hy. apply H. now right.
Qed.

Lemma matchingIn_none (rs : list Contact) (e p : option string) :
  (forall c, In c rs -> matchesInput e p c = false) -> matchingIn rs e p = [].
Proof.
  intros H. unfold matchingIn. destruct (truthy e || truthy p); [|reflexivity].
  now rewrite filter_none.
Qed.

(** C7: for an input with at least one field supplied that matches no
    contact that is not soft-deleted, identify appends exactly one contact,
    primary, with a null linkedId, carrying the supplied email and phone,
    and answers with that contact's id as primaryContactId and no
    secondary ids. *)
Theorem no_match_creates_primary (now : Z) (e p : option string) (s : Store) :
  truthy e || truthy p = true ->
  (forall c, In c (rows s) -> matchesInput e p c = false) ->
  exists s' r c,
    ContactService.identify now e p s = (s', Ok r)
    /\ rows s' = rows s ++ [c]
    /\ linkPrecedence c = primary /\ linkedId c = None
    /\ email c = e /\ phoneNumber c = p
    /\ primaryContactId r = id c /\ secondaryContactIds r = [].
Proof.
  intros _ Hnone. apply matchingIn_none in Hnone.
  destruct (identify_run now e p s) as [j Hrun].
  destruct (identify_noMatch (rows s) (nextId s) now e p Hnone)
    as [Hrows [_ Hres]].
  rewrite Hrows, Hres in Hrun.
  eexists. eexists. exists (newPrimary (nextId s) now e p).
  split; [exact Hrun|]. rewrite buildResponse_lists. simpl.
  repeat split; reflexivity.
Qed.

Lemma no_match_creates_primary_witness :
  exists s' r c,
    ContactService.identify 7 (Some "a@x.com"%string) (Some "111"%string)
                            emptyStore = (s', Ok r)
    /\ rows s' = rows emptyStore ++ [c]
    /\ linkPrecedence c = primary /\ linkedId c = None
    /\ email c = Some "a@x.com"%string /\ phoneNumber c = Some "111"%string
    /\ primaryContactId r = id c /\ secondaryContactIds r = [].
Proof.
  apply no_match_creates_primary.
  - reflexivity.
  - intros c [].
Defined.

(* ------------------------------------------------------------------ *)
(** ** The boundary (C8, C10) *)

Lemma falsy_cases (x : option string) :
  x = None \/ x = Some EmptyString -> truthy x = false.
Proof. intros [-> | ->]; reflexivity. Qed.

(** C8: a request in which email and phoneNumber are both absent or empty
    is answered with status 400 and the message that at least one
    identifier must be provided, and the store is handed back as it was
    received, journal included: no query was sent. *)
Theorem empty_request_rejected (now : Z) (body : IdentifyRequest) (s : Store) :
  (req_email body = None \/ req_email body = Some EmptyString) ->
  (req_phoneNumber body = None \/ req_phoneNumber body = Some EmptyString) ->
  ContactController.identify now body s
  = (s, mkHttp 400
          (JsonError "At least one of email or phoneNumber must be provided")).
Proof.
  intros He Hp. apply falsy_cases in He. apply falsy_cases in Hp.
  unfold ContactController.identify. rewrite He, Hp. reflexivity.
Qed.

Lemma empty_request_rejected_witness :
  ContactController.identify 7 (mkRequest (Some EmptyString) None) twoClusters
  = (twoClusters,
     mkHttp 400
       (JsonError "At least one of email or phoneNumber must be provided")).
Proof.
  apply empty_request_rejected; simpl; auto.
Defined.

Lemma trimStart_blank (s : string) :
  allWhiteSpace s = true -> trimStart s = EmptyString.
Proof.
  induction s as [|a s IH]; simpl; [reflexivity|].
  intros H. apply andb_prop in H. destruct H as [Ha Hs].
  rewrite Ha. now apply IH.
Qed.

Lemma trim_blank (s : string) : allWhiteSpace s = true -> trim s = EmptyString.
Proof.
  intros H. unfold trim. rewrite (trimStart_blank s H). reflexivity.
Qed.

Lemma truthy_nonempty (s : string) : s <> EmptyString -> truthy (Some s) = true.
Proof. destruct s; [congruence | reflexivity]. Qed.

(** C10: an email made of white space only, with phoneNumber absent,
    passes the boundary validation; the service is called with null for
    both; findMatchingContacts answers the empty list without sending a
    query; and a primary contact with null email and null phoneNumber is
    created and returned with status 200. *)
Theorem blank_email_creates_empty_primary (now : Z) (ws : string) (s : Store) :
  ws <> EmptyString -> allWhiteSpace ws = true ->
  orNull (option_map (fun e => toLowerCase (trim e)) (Some ws)) = None
  /\ ContactRepository.findMatchingContacts None None s = (s, Ok [])
  /\ exists s',
       ContactController.identify now (mkRequest (Some ws) None) s
       = (s', mkHttp 200
                (JsonContact (mkResponse (nextId s) [] [] [])))
       /\ rows s' = rows s ++ [mkContact (nextId s) None None None primary
                                         now None]
       /\ journal s' = journal s ++ [QCreate].
Proof.
  intros Hne Hws. split; [|split].
  - simpl. now rewrite trim_blank.
  - reflexivity.
  - unfold ContactController.identify. simpl req_email. simpl req_phoneNumber.
    rewrite (truthy_nonempty Hne). simpl.
    rewrite (trim_blank ws Hws). simpl.
    eexists. split; [reflexivity|]. split; reflexivity.
Qed.

Lemma blank_email_creates_empty_primary_witness :
  orNull (option_map (fun e => toLowerCase (trim e)) (Some "   "%string)) = None
  /\ ContactRepository.findMatchingContacts None None emptyStore
     = (emptyStore, Ok [])
  /\ exists s',
       ContactController.identify 7 (mkRequest (Some "   "%string) None)
                                  emptyStore
       = (s', mkHttp 200
                (JsonContact (mkResponse (nextId emptyStore) [] [] [])))
       /\ rows s' = rows emptyStore
                    ++ [mkContact (nextId emptyStore) None None None primary
                                  7 None]
       /\ journal s' = journal emptyStore ++ [QCreate].
Proof.
  apply blank_email_creates_empty_primary.
  - discriminate.
  - reflexivity.
Defined.

(* ------------------------------------------------------------------ *)
(** ** Creating the secondary (C1) *)

Section Secondary.
Import ContactRepository ContactService.

Lemma comboExists_false_supplied (l : list Contact) (c : Contact)
      (e p : option string) :
  comboExists (c :: l) e p = false -> truthy e || truthy p = true.
Proof.
  intros H. destruct (truthy e) eqn:Ee; [reflexivity|].
  destruct (truthy p) eqn:Ep; [reflexivity|].
  simpl in H. rewrite Ee, Ep in H. discriminate.
Qed.

Lemma refreshCluster_result (pr : Contact) (s s' : Store) (l : list Contact) :
  refreshCluster (Some pr) s = (s', Ok l) ->
  s' = record QFindMany s /\ l = linkedLive (rows s) (id pr).
Proof.
  unfold refreshCluster, findContactsByPrimaryId, findMany.
  intros H. inversion H. auto.
Qed.

(** What the code does once the exact pair is absent: when the match is
    not empty, a primary is resolved and no contact among the primary and
    its refreshed cluster carries the supplied (email, phone) pair, identify
    appends one contact, secondary, linked to the primary and carrying the
    supplied email and phone. *)
Theorem absent_combination_creates_secondary
        (now : Z) (e p : option string) (s s1 s2 s3 s4 : Store)
        (m cl cluster : list Contact) (pr : Contact) :
  findMatchingContacts e p s = (s1, Ok m) ->
  m <> [] ->
  collectFullCluster m s1 = (s2, Ok cl) ->
  resolvePrimary cl s2 = (s3, Ok (Some pr)) ->
  refreshCluster (Some pr) s3 = (s4, Ok cluster) ->
  comboExists (pr :: cluster) e p = false ->
  exists s' r c,
    identify now e p s = (s', Ok r)
    /\ rows s' = rows s3 ++ [c]
    /\ id c = nextId s3
    /\ linkPrecedence c = secondary /\ linkedId c = Some (id pr)
    /\ email c = e /\ phoneNumber c = p.
Proof.
  intros Hm Hne Hc Hr Hf Hcombo.
  pose proof (comboExists_false_supplied _ _ _ _ Hcombo) as Hsup.
  destruct (refreshCluster_result Hf) as [Hs4 Hcl].
  assert (Hlen : Nat.eqb (List.length m) 0 = false)
    by (destruct m; [contradiction | reflexivity]).
  eexists. eexists.
  exists (mkContact (nextId s3) e p (Some (id pr)) secondary now None).
  split.
  - unfold identify, transaction, bind. rewrite Hm, Hlen.
    unfold handleMatch, bind. rewrite Hc, Hr, Hf.
    unfold createSecondaryIfNeeded. rewrite Hcombo, Hsup.
    simpl negb. rewrite andb_true_l, orb_true_r.
    unfold bind. subst s4. simpl. reflexivity.
  - repeat split; reflexivity.
Qed.

End Secondary.

Lemma absent_combination_creates_secondary_witness :
  exists s' r c,
    ContactService.identify 100 joinEmail joinPhone twoClusters = (s', Ok r)
    /\ rows s' = [alice; demoted 1 bob; relinked 1 bobAlias; bobRetired] ++ [c]
    /\ id c = 5
    /\ linkPrecedence c = secondary /\ linkedId c = Some (id alice)
    /\ email c = joinEmail /\ phoneNumber c = joinPhone.
Proof.
  apply (absent_combination_creates_secondary
           100 joinEmail joinPhone twoClusters
           (s1 := mkStore [alice; bob; bobAlias; bobRetired] 5 [QFindMany])
           (s2 := mkStore [alice; bob; bobAlias; bobRetired] 5
                          [QFindMany; QFindMany; QFindMany])
           (s3 := mkStore [alice; demoted 1 bob; relinked 1 bobAlias; bobRetired]
                          5 [QFindMany; QFindMany; QFindMany; QUpdate 2;
                             QFindMany; QUpdate 3])
           (s4 := mkStore [alice; demoted 1 bob; relinked 1 bobAlias; bobRetired]
                          5 [QFindMany; QFindMany; QFindMany; QUpdate 2;
                             QFindMany; QUpdate 3; QFindMany])
           (m := [alice; bob; bobAlias])
           (cl := [alice; bob; bobAlias])
           (cluster := [demoted 1 bob; relinked 1 bobAlias])
           (pr := alice)).
  - vm_compute. reflexivity.
  - discriminate.
  - vm_compute. reflexivity.
  - vm_compute. reflexivity.
  - vm_compute. reflexivity.
  - vm_compute. reflexivity.
Defined.

(** The rule of step 6 fails on the merge of the sample table: the email
    is alice's and the phone is bob's, so both already occur in the merged
    cluster, on different members, and a contact is created all the same. *)
Lemma known_email_and_phone_still_create :
  ~ secondaryRuleAsStated 100 joinEmail joinPhone twoClusters.
Proof.
  intros H.
  specialize (H (mkStore [alice; bob; bobAlias; bobRetired] 5 [QFindMany])
                (mkStore [alice; bob; bobAlias; bobRetired] 5
                         [QFindMany; QFindMany; QFindMany])
                (mkStore [alice; demoted 1 bob; relinked 1 bobAlias; bobRetired]
                         5 [QFindMany; QFindMany; QFindMany; QUpdate 2;
                            QFindMany; QUpdate 3])
                (mkStore [alice; demoted 1 bob; relinked 1 bobAlias; bobRetired]
                         5 [QFindMany; QFindMany; QFindMany; QUpdate 2;
                            QFindMany; QUpdate 3; QFindMany])
                [alice; bob; bobAlias] [alice; bob; bobAlias]
                [demoted 1 bob; relinked 1 bobAlias] alice).
  assert (Hcreated :
            List.length
              (rows (fst (ContactService.identify 100 joinEmail joinPhone
                                                  twoClusters)))
            = S (List.length (rows twoClusters)))
    by (vm_compute; reflexivity).
  destruct H as [H _]; try (vm_compute; reflexivity); [discriminate|].
  destruct (H Hcreated) as [_ [Hk | Hk]]; vm_compute in Hk; discriminate.
Qed.

(** C1: the code departs from the rule at the request (alice's email, bob's
    phone) on the sample table.  After the merge the email and the phone
    both occur in the cluster, so [hasNewInfo] is false; the pair occurs on
    no single contact, so the second disjunct of the test is true, and a
    fifth row carrying nothing new is appended.  The rule as stated, no new
    contact here, does not hold. *)
Theorem known_email_and_phone_append_row :
  rows (fst (ContactService.identify 100 joinEmail joinPhone twoClusters))
  = [alice; demoted 1 bob; relinked 1 bobAlias; bobRetired;
     newSecondary 5 100 alice joinEmail joinPhone]
  /\ ContactService.hasNewInfo
       (alice :: [demoted 1 bob; relinked 1 bobAlias]) joinEmail joinPhone
     = false
  /\ ContactService.comboExists
       (alice :: [demoted 1 bob; relinked 1 bobAlias]) joinEmail joinPhone
     = false
  /\ ~ secondaryRuleAsStated 100 joinEmail joinPhone twoClusters.
Proof.
  split; [vm_compute; reflexivity|].
  split; [vm_compute; reflexivity|].
  split; [vm_compute; reflexivity|].
  exact known_email_and_phone_still_create.
Qed.

(* ------------------------------------------------------------------ *)
(** ** A primary in the collected cluster (C9) *)

Section ClusterPrimary.
Import ContactRepository ContactService.

Lemma findMatchingContacts_result (e p : option string) (s s1 : Store)
      (m : list Contact) :
  findMatchingContacts e p s = (s1, Ok m) ->
  m = matchingIn (rows s) e p /\ rows s1 = rows s /\ nextId s1 = nextId s.
Proof.
  destruct s as [rs n j]. intros H.
  destruct (findMatchingContacts_runs rs n j e p) as [j' Hj].
  rewrite Hj in H. inversion H; subst. auto.
Qed.

Lemma runs_at {A} (mx : Tx A) (s : Store) rs n (a : A) :
  runs mx (mkStore (rows s) (nextId s) (journal s)) rs n a ->
  exists s', mx s = (s', Ok a) /\ rows s' = rs /\ nextId s' = n.
Proof.
  destruct s as [rs0 n0 j0]. simpl. intros [j H]. eauto.
Qed.

Lemma existsb_isPrimary (l : list Contact) (c : Contact) :
  In c l -> linkPrecedence c = primary -> existsb isPrimary l = true.
Proof.
  intros Hc Hp. apply existsb_exists. exists c.
  split; [exact Hc | now apply isPrimary_spec].
Qed.

(** C9 (amended): in a table with a sound primary key, when every
    matched contact is primary or has a linkedId referring to a primary
    contact that is not soft-deleted, the cluster collected from a
    non-empty match holds a primary, and resolvePrimary returns a contact
    of the cluster that is primary. *)
Theorem cluster_has_primary (e p : option string) (s s1 : Store)
        (m : list Contact) :
  tableOk (rows s) (nextId s) ->
  findMatchingContacts e p s = (s1, Ok m) ->
  m <> [] ->
  (forall c, In c m ->
     linkPrecedence c = primary
     \/ exists q owner,
          linkedId c = Some q /\ In owner (rows s) /\ id owner = q
          /\ linkPrecedence owner = primary /\ live owner = true) ->
  exists s2 cl s3 pr,
    collectFullCluster m s1 = (s2, Ok cl)
    /\ existsb isPrimary cl = true
    /\ resolvePrimary cl s2 = (s3, Ok (Some pr))
    /\ In pr cl /\ linkPrecedence pr = primary.
Proof.
  intros Ht Hm Hne Hown.
  destruct (findMatchingContacts_result _ _ _ Hm) as [Em [Er En]].
  assert (Ht1 : tableOk (rows s1) (nextId s1)) by (now rewrite Er, En).
  rewrite <- Er in Em, Hown.
  destruct (@runs_at _ (collectFullCluster m) s1 _ _ _
              (collectFullCluster_runs m (rows s1) (nextId s1) (journal s1)))
    as [s2 [Hc [Er2 En2]]].
  set (cl := clusterOf (rows s1) m) in *.
  assert (Hprim : exists c, In c cl /\ linkPrecedence c = primary).
  { destruct m as [|c m']; [contradiction|].
    destruct (Hown c (or_introl eq_refl)) as [Hp | [q [owner [Hq [Ho [Eo [Hp Hl]]]]]]].
    - exists c. split; [|exact Hp]. unfold cl. rewrite Em.
      apply (cluster_In e p Ht1). left. rewrite <- Em. now left.
    - destruct (linkPrecedence c) eqn:Ec.
      + exists c. split; [|exact Ec]. unfold cl. rewrite Em.
        apply (cluster_In e p Ht1). left. rewrite <- Em. now left.
      + exists owner. split; [|exact Hp]. unfold cl. rewrite Em.
        apply (cluster_In e p Ht1). right. exists c, q.
        split; [rewrite <- Em; now left|]. split.
        * unfold ownerId, isPrimary. rewrite Ec, Hq. simpl.
          pose proof (tableOk_bounds owner Ht1 Ho) as Hb.
          destruct q; [lia | reflexivity].
        * left. split; [|exact Hl]. rewrite <- Eo.
          apply lookupId_of_row; [apply Ht1 | exact Ho]. }
  destruct Hprim as [c [Hc1 Hc2]].
  assert (Hne' : primariesOf cl <> []).
  { intros E. assert (Hin : In c (primariesOf cl)).
    { apply filter_In. split; [exact Hc1 | now apply isPrimary_spec]. }
    rewrite E in Hin. destruct Hin. }
  assert (Hids : NoDup (map id cl)).
  { unfold cl. rewrite Em. apply cluster_ids. }
  destruct (resolved_some cl Hids Hne') as [old [newer [Es [Ho _]]]].
  destruct (resolved_members cl Es) as [_ [Hold [Hop _]]].
  assert (Hin : forall d, In d cl -> In (id d) (map id (rows s2))).
  { intros d Hd. rewrite Er2. unfold cl in Hd. rewrite Em in Hd.
    now apply (cluster_ids_in_table _ _ _ _ Hd). }
  destruct (@runs_at _ (resolvePrimary cl) s2 _ _ _
              (resolvePrimary_runs cl (rows s2) (nextId s2) (journal s2) Hin))
    as [s3 [Hr _]].
  exists s2, cl, s3, old. split; [exact Hc|].
  split; [now apply (existsb_isPrimary cl c)|].
  split; [now rewrite Hr, Ho|].
  split; [exact Hold | now apply isPrimary_spec].
Qed.

End ClusterPrimary.

Lemma orphanStore_tableOk : tableOk (rows orphanStore) (nextId orphanStore).
Proof. table_ok. Defined.

Lemma cluster_has_primary_witness :
  exists s2 cl s3 pr,
    ContactService.collectFullCluster [alice; bob; bobAlias]
      (mkStore [alice; bob; bobAlias; bobRetired] 5 [QFindMany])
    = (s2, Ok cl)
    /\ existsb isPrimary cl = true
    /\ ContactService.resolvePrimary cl s2 = (s3, Ok (Some pr))
    /\ In pr cl /\ linkPrecedence pr = primary.
Proof.
  apply (cluster_has_primary joinEmail joinPhone twoClusters).
  - apply twoClusters_tableOk.
  - vm_compute. reflexivity.
  - discriminate.
  - intros c H. in_rows H.
    + left. reflexivity.
    + left. reflexivity.
    + right. exists 2, bob. simpl. auto 7.
Defined.

(** C9 as stated fails: the matched contact is a live secondary whose
    primary is soft-deleted; the collected cluster is that secondary alone
    and resolvePrimary returns undefined. *)
Lemma orphan_cluster_has_no_primary :
  ~ clusterHasPrimaryAsStated (Some "o@x.com"%string) None orphanStore.
Proof.
  intros H.
  destruct (H (mkStore [retiredOwner; orphan] 3 [QFindMany]) [orphan])
    as [s2 [cl [s3 [pr [Hc [Hp Hr]]]]]].
  - vm_compute. reflexivity.
  - discriminate.
  - vm_compute in Hc. inversion Hc; subst. discriminate.
Qed.

(* ------------------------------------------------------------------ *)
(** ** The response (C6) *)

Lemma linkedLive_none (rs : list Contact) (pid : nat) :
  (forall c, In c rs -> linkedTo pid c = false) -> linkedLive rs pid = [].
Proof. intros H. unfold linkedLive. now rewrite filter_none. Qed.

(** No live row is linked to an id the sequence has not issued yet. *)
Lemma no_links_to_fresh (rs : list Contact) (n k : nat) (c : Contact) :
  tableOk rs n -> primariesUnlinked rs -> starLive rs ->
  n <= k -> In c rs -> linkedTo k c = false.
Proof.
  intros Ht Hu Hs Hk Hc.
  destruct (linkedTo k c) eqn:E; [|reflexivity]. exfalso.
  unfold linkedTo in E. apply andb_prop in E. destruct E as [El Hl].
  destruct (linkPrecedence c) eqn:Ep.
  - rewrite (Hu c Hc Ep) in El. discriminate.
  - destruct (Hs c Hc Ep Hl) as [q [owner [Hq [Ho [Eo _]]]]].
    rewrite Hq in El. simpl in El. apply Nat.eqb_eq in El.
    pose proof (tableOk_bounds owner Ht Ho). lia.
Qed.

Lemma winner_untouched (rs : list Contact) (pr : Contact) (newer : list nat) :
  primariesUnlinked rs -> In pr rs -> linkPrecedence pr = primary ->
  ~ In (id pr) newer ->
  mergeRow (id pr) newer pr = pr.
Proof.
  intros Hu Hr Hp Hw. apply mergeRow_untouched.
  - now apply memId_false.
  - unfold linkedInto. rewrite (Hu pr Hr Hp). apply andb_false_r.
Qed.

Lemma withSecondary_keeps (n : nat) (now : Z) (pr : Contact)
      (e p : option string) (rs : list Contact) (c : Contact) :
  In c rs -> In c (withSecondary n now pr e p rs).
Proof.
  intros H. unfold withSecondary.
  destruct (ContactService.comboExists _ e p); [exact H|].
  apply in_or_app. now left.
Qed.

Section Primary.
Variables (rs : list Contact) (n : nat) (now : Z) (e p : option string).
Hypothesis table : tableOk rs n.
Hypothesis unlinked : primariesUnlinked rs.
Hypothesis star : starLive rs.

(** A completed call answers from a primary row of the table it leaves and
    from the live rows linked to it there. *)
Lemma identify_answer (r : IdentifyResponse) :
  identifyResult now e p rs n = Ok r ->
  exists pr,
    In pr (identifyRows now e p rs n)
    /\ linkPrecedence pr = primary /\ live pr = true
    /\ r = ContactService.buildResponse pr
             (linkedLive (identifyRows now e p rs n) (id pr)).
Proof.
  intros Hr.
  destruct (identify_cases rs e p) as [H | [[Hm H] | [Hm [pr H]]]].
  - destruct (identify_noMatch rs n now e p H) as [Hrows [_ Hres]].
    rewrite Hres in Hr. inversion Hr; subst r. rewrite Hrows.
    exists (newPrimary n now e p).
    split; [apply in_or_app; right; now left|].
    split; [reflexivity|]. split; [reflexivity|].
    rewrite linkedLive_none; [reflexivity|].
    intros c Hc. apply in_app_or in Hc. destruct Hc as [Hc | [<- | []]].
    + apply (no_links_to_fresh (rs := rs) (n := n)); auto.
    + reflexivity.
  - destruct (identify_throw rs n now e p Hm H) as [_ [_ Hres]].
    rewrite Hres in Hr. discriminate.
  - destruct (identify_match rs n now e p Hm H) as [Hrows [_ Hres]].
    rewrite Hres in Hr. inversion Hr; subst r. rewrite Hrows.
    destruct (resolved_anatomy e p table H)
      as [newer [_ [_ [Hrow [Hl [Hp [_ [_ [Hw Hmerge]]]]]]]]].
    exists pr. split; [|auto].
    apply withSecondary_keeps. rewrite Hmerge.
    rewrite <- (winner_untouched pr (map id newer) unlinked Hrow Hp Hw) at 1.
    now apply in_map.
Qed.

End Primary.

(* ------------------------------------------------------------------ *)
(** ** One primary per cluster (C4) *)

Lemma clusterOf_nothing (rs : list Contact) : clusterOf rs [] = [].
Proof. reflexivity. Qed.

Lemma filter_filter_ids_NoDup (f g : Contact -> bool) (l : list Contact) :
  NoDup (map id l) -> NoDup (map id (filter f (filter g l))).
Proof. intros H. now apply filter_ids_NoDup, filter_ids_NoDup. Qed.

Lemma same_answer_same_id (a b : Contact) (l l' : list Contact) :
  @Ok IdentifyResponse (ContactService.buildResponse a l)
  = Ok (ContactService.buildResponse b l') ->
  id a = id b.
Proof.
  intros H. injection H as H. rewrite !buildResponse_lists in H.
  now apply (f_equal primaryContactId) in H.
Qed.

Section Touched.
Variables (rs : list Contact) (n : nat) (now : Z) (e p : option string).
Hypothesis table : tableOk rs n.
Hypothesis unlinked : primariesUnlinked rs.

Let cl := clusterOf rs (matchingIn rs e p).
Let touched (c : Contact) : bool :=
  memId (id c) (map id cl) || Nat.leb n (id c).

(** Among the rows a completed call touched, the primary it answers with
    is the only primary. *)
Lemma touched_single_primary (pr : Contact) :
  In pr (identifyRows now e p rs n) ->
  linkPrecedence pr = primary ->
  identifyResult now e p rs n
  = Ok (ContactService.buildResponse pr
          (linkedLive (identifyRows now e p rs n) (id pr))) ->
  filter isPrimary (filter touched (identifyRows now e p rs n)) = [pr].
Proof.
  intros Hin Hp Hres.
  apply single_by_id.
  - apply filter_filter_ids_NoDup.
    apply (tableOk_ids (identify_tableOk now e p table)).
  - destruct (identify_cases rs e p) as [H | [[Hm H] | [Hm [pr' H]]]].
    + destruct (identify_noMatch rs n now e p H) as [Hrows [_ Hres']].
      rewrite Hrows in *. rewrite Hres' in Hres.
      apply filter_In. split; [|now apply isPrimary_spec].
      apply filter_In. split; [exact Hin|].
      apply in_app_or in Hin. destruct Hin as [Hin | [<- | []]].
      * exfalso. apply same_answer_same_id in Hres. simpl in Hres.
        pose proof (tableOk_bounds pr table Hin). lia.
      * unfold touched. simpl. rewrite Nat.leb_refl. apply orb_true_r.
    + destruct (identify_throw rs n now e p Hm H) as [_ [_ Hres']].
      rewrite Hres' in Hres. discriminate.
    + destruct (identify_match rs n now e p Hm H) as [Hrows [_ Hres']].
      rewrite Hres' in Hres. apply same_answer_same_id in Hres.
      destruct (resolved_anatomy e p table H)
        as [newer [_ [Hcl [Hrow [_ [Hp' _]]]]]].
      assert (pr' = pr).
      { apply (same_id_same_row (identifyRows now e p rs n)); auto.
        - apply (tableOk_ids (identify_tableOk now e p table)).
        - rewrite Hrows. apply withSecondary_keeps.
          destruct (resolved_anatomy e p table H)
            as [nw [_ [_ [Hr2 [_ [Hp2 [_ [_ [Hw2 Hm2]]]]]]]]].
          rewrite Hm2.
          rewrite <- (winner_untouched pr' (map id nw) unlinked Hr2 Hp2 Hw2) at 1.
          now apply in_map. }
      subst pr'.
      apply filter_In. split; [|now apply isPrimary_spec].
      apply filter_In. split; [exact Hin|].
      unfold touched. apply orb_true_intro. left.
      apply memId_In. now apply in_map.
  - intros c Hc. apply filter_In in Hc. destruct Hc as [Hc Hcp].
    apply filter_In in Hc. destruct Hc as [Hc Ht].
    apply isPrimary_spec in Hcp.
    destruct (identify_cases rs e p) as [H | [[Hm H] | [Hm [pr' H]]]].
    + destruct (identify_noMatch rs n now e p H) as [Hrows [_ Hres']].
      rewrite Hrows in *. rewrite Hres' in Hres.
      apply same_answer_same_id in Hres. simpl in Hres. rewrite <- Hres.
      apply in_app_or in Hc. destruct Hc as [Hc | [<- | []]]; [|reflexivity].
      exfalso. unfold touched, cl in Ht. rewrite H in Ht. simpl in Ht.
      apply Nat.leb_le in Ht. pose proof (tableOk_bounds c table Hc). lia.
    + destruct (identify_throw rs n now e p Hm H) as [_ [_ Hres']].
      rewrite Hres' in Hres. discriminate.
    + destruct (identify_match rs n now e p Hm H) as [Hrows [_ Hres']].
      rewrite Hres' in Hres. apply same_answer_same_id in Hres.
      rewrite <- Hres.
      destruct (resolved_anatomy e p table H)
        as [newer [_ [_ [Hrow [_ [Hp' [Hnew [Hall [Hw Hmerge]]]]]]]]].
      rewrite Hrows in Hc. unfold withSecondary in Hc. rewrite Hmerge in Hc.
      assert (Hc' : In c (map (mergeRow (id pr') (map id newer)) rs)).
      { destruct (ContactService.comboExists _ e p); [exact Hc|].
        apply in_app_or in Hc. destruct Hc as [Hc | [<- | []]]; [exact Hc|].
        discriminate. }
      apply in_map_iff in Hc'. destruct Hc' as [d [<- Hd]].
      rewrite mergeRow_id. unfold touched in Ht. rewrite mergeRow_id in Ht.
      rewrite mergeRow_linkPrecedence in Hcp.
      destruct (memId (id d) (map id newer)) eqn:Em; [discriminate|].
      apply orb_prop in Ht. destruct Ht as [Ht | Ht].
      * apply memId_In, in_map_iff in Ht. destruct Ht as [x [Ex Hx]].
        assert (x = d).
        { apply (same_id_same_row rs); auto.
          - apply table.
          - now apply (cluster_rows rs e p). }
        subst x. destruct (Hall d Hx Hcp) as [-> | Hn]; [reflexivity|].
        exfalso. apply memId_false in Em. apply Em. now apply in_map.
      * exfalso. apply Nat.leb_le in Ht.
        pose proof (tableOk_bounds d table Hd). lia.
Qed.

Lemma linked_not_primary (pr : Contact) :
  filter isPrimary (linkedLive (identifyRows now e p rs n) (id pr)) = [].
Proof.
  apply filter_none. intros c Hc. apply linkedLive_In in Hc.
  destruct Hc as [Hc Hl]. apply linkedTo_spec in Hl. destruct Hl as [Hl _].
  destruct (isPrimary c) eqn:E; [|reflexivity]. exfalso.
  apply isPrimary_spec in E.
  rewrite (identify_primariesUnlinked now e p table unlinked c Hc E) in Hl.
  discriminate.
Qed.

End Touched.

(** C4: after every completed identify call, exactly one of the contacts
    the call touched (the members of the cluster it collected and the
    contact it created) has linkPrecedence primary, namely the primary of
    the response; and the cluster the response describes, that primary with
    the contacts linked to it, has exactly one primary too. *)
Theorem one_primary_per_cluster (now : Z) (e p : option string) (s s' : Store)
        (r : IdentifyResponse) :
  storeOk s ->
  ContactService.identify now e p s = (s', Ok r) ->
  exists pr,
    In pr (rows s') /\ id pr = primaryContactId r
    /\ filter isPrimary (touchedAfter now e p s) = [pr]
    /\ filter isPrimary (pr :: linkedLive (rows s') (id pr)) = [pr].
Proof.
  intros [Ht [Hu Hs]] Hcall. unfold touchedAfter. rewrite Hcall. simpl fst.
  apply identify_rows in Hcall. destruct Hcall as [Hrows [_ Hres]].
  symmetry in Hres.
  destruct (identify_answer now e p Ht Hu Hs Hres) as [pr [Hin [Hp [_ Hr]]]].
  exists pr. rewrite Hrows.
  split; [exact Hin|].
  split; [rewrite Hr, buildResponse_lists; reflexivity|].
  split.
  - apply touched_single_primary; auto. now rewrite Hres, Hr.
  - simpl. apply isPrimary_spec in Hp. rewrite Hp.
    now rewrite (linked_not_primary now e p Ht Hu).
Qed.

Lemma one_primary_per_cluster_witness :
  exists pr,
    In pr (rows mergedClusters) /\ id pr = 1
    /\ filter isPrimary (touchedAfter 100 joinEmail joinPhone twoClusters) = [pr]
    /\ filter isPrimary (pr :: linkedLive (rows mergedClusters) (id pr)) = [pr].
Proof.
  exact (one_primary_per_cluster 100 joinEmail joinPhone twoClusters_storeOk
                                 twoClusters_merged).
Defined.

(* ------------------------------------------------------------------ *)
(** ** Merging two clusters (C2) *)

Lemma str_eq_refl (x : option string) : str_eq x x = true.
Proof. destruct x as [s|]; [apply String.eqb_refl | reflexivity]. Qed.

Lemma matchesInput_email (e p : option string) (c : Contact) :
  truthy e = true -> email c = e -> live c = true -> matchesInput e p c = true.
Proof.
  intros He Hc Hl. unfold matchesInput, ContactRepository.anyOf,
    ContactRepository.conditionsFor.
  rewrite He, Hl. simpl. rewrite Hc, str_eq_refl. reflexivity.
Qed.

Lemma matchesInput_phone (e p : option string) (c : Contact) :
  truthy p = true -> phoneNumber c = p -> live c = true ->
  matchesInput e p c = true.
Proof.
  intros Hp Hc Hl. unfold matchesInput, ContactRepository.anyOf,
    ContactRepository.conditionsFor.
  rewrite Hp, Hl. rewrite existsb_app. simpl.
  rewrite Hc, str_eq_refl. rewrite orb_true_r. reflexivity.
Qed.

(** A sorted list with distinct ids whose members are [a] and [b], [a]
    strictly older, is [a; b]. *)
Lemma sorted_pair (l : list Contact) (a b : Contact) :
  NoDup (map id l) ->
  (forall c, In c l <-> c = a \/ c = b) ->
  (createdAt a < createdAt b)%Z ->
  Sorted byCreatedAt l ->
  l = [a; b].
Proof.
  intros Hnd Hmem Hlt Hs.
  assert (Ha : In a l) by (apply Hmem; now left).
  assert (Hb : In b l) by (apply Hmem; now right).
  assert (Hab : a <> b) by (intros ->; lia).
  destruct l as [|x [|y [|z l']]].
  - destruct Ha.
  - destruct Ha as [<- | []]. destruct Hb as [<- | []]. congruence.
  - assert (Hx : x = a \/ x = b) by (apply Hmem; simpl; auto).
    assert (Hy : y = a \/ y = b) by (apply Hmem; simpl; auto).
    inversion Hnd as [|? ? Hn _]; subst. simpl in Hn.
    inversion Hs as [|? ? _ Hh]; subst. inversion Hh as [|? ? Hle]; subst.
    unfold byCreatedAt in Hle.
    destruct Hx as [-> | ->], Hy as [-> | ->];
      try reflexivity; try lia; exfalso; apply Hn; auto.
  - exfalso.
    assert (Hx : x = a \/ x = b) by (apply Hmem; simpl; auto).
    assert (Hy : y = a \/ y = b) by (apply Hmem; simpl; auto).
    assert (Hz : z = a \/ z = b) by (apply Hmem; simpl; auto).
    inversion Hnd as [|? ? Hn1 Hnd']; subst.
    inversion Hnd' as [|? ? Hn2 _]; subst. simpl in Hn1, Hn2.
    destruct Hx as [-> | ->], Hy as [-> | ->], Hz as [-> | ->];
      solve [apply Hn1; auto | apply Hn2; auto].
Qed.

Section TwoClusters.
Variables (s : Store) (now : Z) (e p : option string) (p1 p2 : Contact).
Hypothesis ok : storeOk s.
Hypothesis scenario : mergeScenario s e p p1 p2.

Let rs := rows s.
Let cl := clusterOf rs (matchingIn rs e p).

Lemma scenario_matched : In p1 (matchingIn rs e p) /\ In p2 (matchingIn rs e p).
Proof.
  destruct scenario
    as [H1 [H2 [_ [_ [L1 [L2 [_ [Te [Tp [E1 [E2 _]]]]]]]]]]].
  split; apply matchingIn_In; split; auto.
  - now apply matchesInput_email.
  - now apply matchesInput_phone.
Qed.

Lemma scenario_primaries (c : Contact) :
  In c cl /\ linkPrecedence c = primary <-> c = p1 \/ c = p2.
Proof.
  destruct ok as [Ht [Hu Hs]].
  destruct scenario
    as [H1 [H2 [P1 [P2 [L1 [L2 [_ [Te [Tp [E1 [E2 Hclosed]]]]]]]]]]].
  destruct scenario_matched as [M1 M2].
  split.
  - intros [Hc Hp]. apply (cluster_In e p Ht) in Hc.
    assert (Hown : forall d, In d (matchingIn rs e p) ->
                             linkPrecedence d = primary -> d = p1 \/ d = p2).
    { intros d Hd Hdp. apply matchingIn_In in Hd. destruct Hd as [Hd Hm].
      destruct (Hclosed d Hd Hm) as [-> | [-> | [Hl | Hl]]]; auto;
        rewrite (Hu d Hd Hdp) in Hl; discriminate. }
    destruct Hc as [Hc | [d [pid [Hd [Ho [[Hl _] | Hl]]]]]].
    + now apply Hown.
    + apply lookupId_In in Hl. destruct Hl as [Hcr Hid].
      pose proof Hd as Hd'. apply matchingIn_In in Hd'.
      destruct Hd' as [Hdr Hdm].
      unfold ownerId in Ho. destruct (isPrimary d) eqn:Ed.
      * apply isPrimary_spec in Ed. inversion Ho; subst pid.
        assert (c = d) by (apply (same_id_same_row rs); auto; apply Ht).
        subst c. now apply Hown.
      * destruct (truthy_id (linkedId d)); [|discriminate].
        destruct (Hclosed d Hdr Hdm) as [-> | [-> | [Hl | Hl]]].
        -- apply isPrimary_spec in P1. congruence.
        -- apply isPrimary_spec in P2. congruence.
        -- left. apply (same_id_same_row rs); auto; [apply Ht | congruence].
        -- right. apply (same_id_same_row rs); auto; [apply Ht | congruence].
    + exfalso. apply linkedLive_In in Hl. destruct Hl as [Hcr Hl].
      apply linkedTo_spec in Hl. destruct Hl as [Hl _].
      rewrite (Hu c Hcr Hp) in Hl. discriminate.
  - intros [-> | ->]; split; auto; apply (cluster_In e p Ht); now left.
Qed.

Lemma scenario_sorted : sortByCreatedAt (primariesOf cl) = [p1; p2].
Proof.
  destruct ok as [Ht _].
  destruct scenario as [_ [_ [_ [_ [_ [_ [Hlt _]]]]]]].
  apply sorted_pair; auto.
  - apply sortByCreatedAt_ids_NoDup, filter_ids_NoDup.
    apply (cluster_ids rs e p).
  - intros c. rewrite sortByCreatedAt_In. unfold primariesOf.
    rewrite filter_In, isPrimary_spec. apply scenario_primaries.
  - apply sortByCreatedAt_sorted.
Qed.

Lemma scenario_outcome :
  identifyRows now e p rs (nextId s)
  = withSecondary (nextId s) now p1 e p (map (mergeRow (id p1) [id p2]) rs)
  /\ identifyResult now e p rs (nextId s)
     = Ok (ContactService.buildResponse p1
             (linkedLive (identifyRows now e p rs (nextId s)) (id p1))).
Proof.
  destruct ok as [Ht _].
  destruct scenario_matched as [M1 _].
  assert (Hm : matchingIn rs e p <> []) by (intros E; rewrite E in M1; destruct M1).
  assert (Hne : primariesOf cl <> []).
  { intros E. pose proof scenario_sorted as Hs. rewrite E in Hs. discriminate. }
  destruct (resolved_some cl (cluster_ids rs e p) Hne)
    as [old [newer [Es [Ho _]]]].
  rewrite scenario_sorted in Es. inversion Es; subst old newer.
  destruct (resolved_anatomy e p Ht Ho)
    as [newer [Es' [_ [_ [_ [_ [_ [_ [_ Hmerge]]]]]]]]].
  fold rs cl in Es'. rewrite scenario_sorted in Es'.
  inversion Es'; subst newer. simpl in Hmerge.
  destruct (identify_match rs (nextId s) now e p Hm Ho) as [Hrows [_ Hres]].
  fold rs in Hmerge. rewrite Hmerge in Hrows, Hres.
  split; [exact Hrows|]. now rewrite Hrows.
Qed.

End TwoClusters.

(** C2 (amended): in a store with two independent primaries P1 and P2, P1
    created strictly before P2, an identify request whose email is P1's and
    whose phone is P2's, matching nothing outside their two clusters, leaves
    P2 with linkPrecedence secondary and linkedId = P1.id, leaves every
    prior secondary of P2 that is not soft-deleted with linkedId = P1.id,
    and answers with primaryContactId = P1.id. *)
Theorem merge_picks_oldest (now : Z) (e p : option string) (s : Store)
        (p1 p2 : Contact) :
  storeOk s ->
  mergeScenario s e p p1 p2 ->
  exists s' r,
    ContactService.identify now e p s = (s', Ok r)
    /\ primaryContactId r = id p1
    /\ (exists p2', In p2' (rows s') /\ id p2' = id p2
                    /\ linkPrecedence p2' = secondary
                    /\ linkedId p2' = Some (id p1))
    /\ forall c, In c (rows s) -> linkPrecedence c = secondary ->
                 linkedId c = Some (id p2) -> deletedAt c = None ->
                 exists c', In c' (rows s') /\ id c' = id c
                            /\ linkedId c' = Some (id p1).
Proof.
  intros Hok Hsc.
  destruct (scenario_outcome now Hok Hsc) as [Hrows Hres].
  destruct (identify_run now e p s) as [j Hrun].
  rewrite Hres in Hrun.
  eexists. eexists. split; [exact Hrun|]. simpl rows.
  split; [now rewrite buildResponse_lists|].
  rewrite Hrows.
  destruct Hsc as [H1 [H2 _]].
  split.
  - exists (mergeRow (id p1) [id p2] p2).
    split; [apply withSecondary_keeps; now apply in_map|].
    rewrite mergeRow_id, mergeRow_linkPrecedence, mergeRow_linkedId.
    unfold memId. simpl. rewrite Nat.eqb_refl. auto.
  - intros c Hc _ Hl Hd.
    exists (mergeRow (id p1) [id p2] c).
    split; [apply withSecondary_keeps; now apply in_map|].
    rewrite mergeRow_id, mergeRow_linkedId.
    assert (E : linkedInto [id p2] c = true).
    { unfold linkedInto, live, memId. rewrite Hl, Hd. simpl.
      now rewrite Nat.eqb_refl. }
    rewrite E, orb_true_r. auto.
Qed.

Lemma twoClusters_scenario :
  mergeScenario twoClusters joinEmail joinPhone alice bob.
Proof.
  unfold mergeScenario. simpl.
  repeat (split; [solve [auto | reflexivity]|]).
  intros c H Hm. in_rows H; auto; try discriminate.
Defined.

Lemma merge_picks_oldest_witness :
  exists s' r,
    ContactService.identify 100 joinEmail joinPhone twoClusters = (s', Ok r)
    /\ primaryContactId r = id alice
    /\ (exists p2', In p2' (rows s') /\ id p2' = id bob
                    /\ linkPrecedence p2' = secondary
                    /\ linkedId p2' = Some (id alice))
    /\ forall c, In c (rows twoClusters) -> linkPrecedence c = secondary ->
                 linkedId c = Some (id bob) -> deletedAt c = None ->
                 exists c', In c' (rows s') /\ id c' = id c
                            /\ linkedId c' = Some (id alice).
Proof.
  apply merge_picks_oldest.
  - apply twoClusters_storeOk.
  - apply twoClusters_scenario.
Defined.

(** C2 as stated fails: bob's soft-deleted secondary is not among the
    contacts findContactsByPrimaryId returns, and keeps linkedId = bob.id
    after bob is demoted. *)
Lemma retired_secondary_not_relinked :
  ~ mergeAsStated 100 joinEmail joinPhone twoClusters alice bob.
Proof.
  intros H.
  destruct (H twoClusters_scenario) as [s' [r [Hcall [_ [_ Hall]]]]].
  rewrite twoClusters_merged in Hcall. inversion Hcall; subst s' r.
  destruct (Hall bobRetired) as [c' [Hin [Hid Hl]]].
  - simpl. auto.
  - reflexivity.
  - reflexivity.
  - rewrite mergedClusters_rows in Hin.
    in_rows Hin; simpl in *; discriminate.
Qed.

(* ------------------------------------------------------------------ *)
(** ** Calling twice (C3) *)

Lemma ownerId_primary (c : Contact) :
  linkPrecedence c = primary -> ownerId c = Some (id c).
Proof.
  intros H. unfold ownerId. apply isPrimary_spec in H. now rewrite H.
Qed.

Lemma ownerId_secondary (c : Contact) (q : nat) :
  linkPrecedence c = secondary -> linkedId c = Some q -> 1 <= q ->
  ownerId c = Some q.
Proof.
  intros H Hl Hq. unfold ownerId, isPrimary. rewrite H, Hl. simpl.
  destruct q; [lia | reflexivity].
Qed.

Lemma ownerId_inv (c : Contact) (pid : nat) :
  ownerId c = Some pid ->
  (linkPrecedence c = primary /\ pid = id c)
  \/ (linkPrecedence c = secondary /\ linkedId c = Some pid).
Proof.
  unfold ownerId. destruct (isPrimary c) eqn:E.
  - intros H. inversion H. left. split; [now apply isPrimary_spec | reflexivity].
  - intros H. right. split.
    + apply not_primary_secondary. intros Hp. apply isPrimary_spec in Hp.
      congruence.
    + now destruct (truthy_id (linkedId c)).
Qed.

Section Settled.
Variables (rs : list Contact) (n : nat) (now : Z) (e p : option string)
          (pr : Contact).
Hypothesis table : tableOk rs n.
Hypothesis unlinked : primariesUnlinked rs.
Hypothesis pr_row : In pr rs.
Hypothesis pr_primary : linkPrecedence pr = primary.
Hypothesis pr_live : live pr = true.

(** Some matched row is the primary or points at it. *)
Hypothesis anchor :
  exists d, In d rs /\ matchesInput e p d = true
            /\ (d = pr \/ linkedId d = Some (id pr)).

(** Every matched row is the primary, or a secondary that points at the
    primary or at an id no live row carries. *)
Hypothesis closure :
  forall c, In c rs -> matchesInput e p c = true ->
    c = pr
    \/ (linkPrecedence c = secondary
        /\ exists q, linkedId c = Some q
                     /\ (q = id pr
                         \/ forall d, In d rs -> id d = q -> live d = false)).

Hypothesis combo :
  ContactService.comboExists (pr :: linkedLive rs (id pr)) e p = true.

Let cl := clusterOf rs (matchingIn rs e p).

Lemma settled_match : matchingIn rs e p <> [].
Proof.
  destruct anchor as [d [Hd [Hm _]]]. intros E.
  assert (H : In d (matchingIn rs e p)) by (apply matchingIn_In; auto).
  rewrite E in H. destruct H.
Qed.

Lemma settled_primary_in : In pr cl.
Proof.
  destruct anchor as [d [Hd [Hm Hlink]]].
  assert (Hdm : In d (matchingIn rs e p)) by (apply matchingIn_In; auto).
  apply (cluster_In e p table). destruct Hlink as [-> | Hl]; [now left|].
  right. exists d, (id pr). split; [exact Hdm|]. split.
  - apply ownerId_secondary; auto.
    + apply not_primary_secondary. intros Hp.
      rewrite (unlinked d Hd Hp) in Hl. discriminate.
    + apply (tableOk_bounds pr table pr_row).
  - left. split; [|exact pr_live].
    apply lookupId_of_row; [apply table | exact pr_row].
Qed.

Lemma settled_primary_only (c : Contact) :
  In c cl -> linkPrecedence c = primary -> c = pr.
Proof.
  intros Hc Hp. apply (cluster_In e p table) in Hc.
  destruct Hc as [Hc | [d [pid [Hd [Ho [[Hl Hlive] | Hl]]]]]].
  - apply matchingIn_In in Hc. destruct Hc as [Hc Hm].
    destruct (closure c Hc Hm) as [-> | [Hs _]]; [reflexivity | congruence].
  - apply lookupId_In in Hl. destruct Hl as [Hcr Hid].
    apply matchingIn_In in Hd. destruct Hd as [Hd Hm].
    assert (Hsame : pid = id pr -> c = pr).
    { intros E. apply (same_id_same_row rs); auto; [apply table | congruence]. }
    destruct (closure d Hd Hm) as [-> | [Hs [q [Hq Hcase]]]].
    + apply Hsame. rewrite (ownerId_primary pr pr_primary) in Ho.
      now inversion Ho.
    + destruct (ownerId_inv d Ho) as [[Hdp _] | [_ Hdl]]; [congruence|].
      assert (Epq : pid = q) by congruence.
      destruct Hcase as [Eq | Hdead]; [apply Hsame; congruence|].
      rewrite (Hdead c Hcr) in Hlive; [discriminate | congruence].
  - exfalso. apply linkedLive_In in Hl. destruct Hl as [Hcr Hl].
    apply linkedTo_spec in Hl. destruct Hl as [Hl _].
    rewrite (unlinked c Hcr Hp) in Hl. discriminate.
Qed.

Lemma settled_primaries : primariesOf cl = [pr].
Proof.
  apply single_by_id.
  - apply filter_ids_NoDup. apply (cluster_ids rs e p).
  - apply filter_In. split; [apply settled_primary_in|].
    now apply isPrimary_spec.
  - intros c Hc. apply filter_In in Hc. destruct Hc as [Hc Hp].
    apply isPrimary_spec in Hp. now rewrite (settled_primary_only c Hc Hp).
Qed.

(** On a table settled around [pr], a call changes nothing and answers
    with [pr] and the rows linked to it. *)
Lemma settled_call :
  identifyRows now e p rs n = rs
  /\ identifySeq e p rs n = n
  /\ identifyResult now e p rs n
     = Ok (ContactService.buildResponse pr (linkedLive rs (id pr))).
Proof.
  assert (Hres : resolvedPrimary cl = Some pr).
  { unfold resolvedPrimary. now rewrite settled_primaries. }
  assert (Hrows : resolvedRows cl rs = rs).
  { unfold resolvedRows. now rewrite settled_primaries. }
  destruct (identify_match rs n now e p settled_match Hres) as [H1 [H2 H3]].
  fold cl in H1, H2, H3. rewrite Hrows in H1, H2, H3.
  unfold withSecondary in H1, H3. unfold seqAfterSecondary in H2.
  rewrite combo in H1, H2, H3. auto.
Qed.

End Settled.

Lemma comboExists_intro (l : list Contact) (c : Contact) (e p : option string) :
  In c l -> email c = e -> phoneNumber c = p ->
  ContactService.comboExists l e p = true.
Proof.
  intros Hc He Hp. unfold ContactService.comboExists.
  apply existsb_exists. exists c. split; [exact Hc|].
  rewrite He, Hp, !str_eq_refl, !orb_true_r. reflexivity.
Qed.

Lemma withSecondary_In (n : nat) (now : Z) (pr : Contact) (e p : option string)
      (rs : list Contact) (c : Contact) :
  In c (withSecondary n now pr e p rs) ->
  In c rs \/ c = newSecondary n now pr e p.
Proof.
  unfold withSecondary. destruct (ContactService.comboExists _ e p); [auto|].
  intros H. apply in_app_or in H. destruct H as [H | [<- | []]]; auto.
Qed.

Lemma withSecondary_combo (n : nat) (now : Z) (pr : Contact)
      (e p : option string) (rs : list Contact) :
  ContactService.comboExists
    (pr :: linkedLive (withSecondary n now pr e p rs) (id pr)) e p = true.
Proof.
  unfold withSecondary.
  destruct (ContactService.comboExists (pr :: linkedLive rs (id pr)) e p) eqn:E;
    [exact E|].
  apply (comboExists_intro _ (newSecondary n now pr e p)); try reflexivity.
  right. apply linkedLive_In. split.
  - apply in_or_app. right. now left.
  - unfold linkedTo. simpl. now rewrite Nat.eqb_refl.
Qed.

Lemma matchesInput_live (e p : option string) (c : Contact) :
  matchesInput e p c = true -> live c = true.
Proof. unfold matchesInput. intros H. apply andb_prop in H. tauto. Qed.

Lemma matchesInput_own (n : nat) (now : Z) (e p : option string) :
  truthy e || truthy p = true ->
  matchesInput e p (newPrimary n now e p) = true.
Proof.
  intros H. destruct (truthy e) eqn:Ee.
  - now apply matchesInput_email.
  - simpl in H. now apply matchesInput_phone.
Qed.

Section FirstCall.
Variables (rs : list Contact) (n : nat) (now : Z) (e p : option string).
Hypothesis table : tableOk rs n.
Hypothesis unlinked : primariesUnlinked rs.
Hypothesis star : starLive rs.
Hypothesis supplied : truthy e || truthy p = true.

Let rs1 := identifyRows now e p rs n.

(** What the second call needs of the table the first call leaves. *)
Let settledAround (pr : Contact) : Prop :=
  In pr rs1 /\ linkPrecedence pr = primary /\ live pr = true
  /\ (exists d, In d rs1 /\ matchesInput e p d = true
                /\ (d = pr \/ linkedId d = Some (id pr)))
  /\ (forall c, In c rs1 -> matchesInput e p c = true ->
        c = pr
        \/ (linkPrecedence c = secondary
            /\ exists q, linkedId c = Some q
                         /\ (q = id pr
                             \/ forall d, In d rs1 -> id d = q ->
                                          live d = false)))
  /\ ContactService.comboExists (pr :: linkedLive rs1 (id pr)) e p = true.

Lemma created_primary_settles :
  matchingIn rs e p = [] ->
  settledAround (newPrimary n now e p)
  /\ identifyResult now e p rs n
     = Ok (ContactService.buildResponse (newPrimary n now e p)
             (linkedLive rs1 (id (newPrimary n now e p)))).
Proof.
  intros H. unfold settledAround, rs1.
  destruct (identify_noMatch rs n now e p H) as [Hrows [_ Hres]].
  rewrite Hrows, Hres.
  assert (Hin : In (newPrimary n now e p) (rs ++ [newPrimary n now e p]))
    by (apply in_or_app; right; now left).
  split.
  - split; [exact Hin|]. split; [reflexivity|]. split; [reflexivity|].
    split; [|split].
    + exists (newPrimary n now e p).
      split; [exact Hin|]. split; [now apply matchesInput_own | now left].
    + intros c Hc Hm. apply in_app_or in Hc.
      destruct Hc as [Hc | [<- | []]]; [|now left].
      exfalso. assert (Hx : In c (matchingIn rs e p))
        by (apply matchingIn_In; auto).
      rewrite H in Hx. destruct Hx.
    + apply (comboExists_intro _ (newPrimary n now e p));
        [now left | reflexivity | reflexivity].
  - rewrite linkedLive_none; [reflexivity|].
    intros c Hc. apply in_app_or in Hc. destruct Hc as [Hc | [<- | []]].
    + apply (no_links_to_fresh (rs := rs) (n := n)); auto.
    + reflexivity.
Qed.

Lemma resolved_primary_settles (pr : Contact) :
  matchingIn rs e p <> [] ->
  resolvedPrimary (clusterOf rs (matchingIn rs e p)) = Some pr ->
  settledAround pr
  /\ identifyResult now e p rs n
     = Ok (ContactService.buildResponse pr (linkedLive rs1 (id pr))).
Proof.
  intros Hm H. unfold settledAround, rs1.
  destruct (identify_match rs n now e p Hm H) as [Hrows [_ Hres]].
  rewrite Hrows, Hres. split; [|reflexivity].
  destruct (resolved_anatomy e p table H)
    as [newer [_ [Hcl [Hrow [Hl [Hp [Hnew [Hall [Hw Hmerge]]]]]]]]].
  rewrite Hmerge.
  set (N := map id newer) in *.
  set (rsm := map (mergeRow (id pr) N) rs).
  assert (Hkeep : forall c, In c rs ->
            In (mergeRow (id pr) N c) (withSecondary n now pr e p rsm)).
  { intros c Hc. apply withSecondary_keeps. now apply in_map. }
  assert (Hpr : In pr (withSecondary n now pr e p rsm)).
  { pose proof (Hkeep pr Hrow) as K.
    now rewrite (winner_untouched pr N unlinked Hrow Hp Hw) in K. }
  assert (Hnewer : forall c, In c rs -> memId (id c) N = true -> In c newer).
  { intros c Hc Hmem. apply memId_In, in_map_iff in Hmem.
    destruct Hmem as [x [Ex Hx]].
    assert (x = c).
    { apply (same_id_same_row rs); auto; [apply table | now apply Hnew]. }
    now subst. }
  split; [exact Hpr|]. split; [exact Hp|]. split; [exact Hl|].
  split; [|split].
  - (* anchor *)
    apply (cluster_In e p table) in Hcl.
    destruct Hcl as [Hc | [d [pid [Hd [Ho [[Hlk _] | Hlk]]]]]].
    + exists pr. split; [exact Hpr|]. split; [|now left].
      apply matchingIn_In in Hc. tauto.
    + apply lookupId_In in Hlk. destruct Hlk as [_ Hid].
      apply matchingIn_In in Hd. destruct Hd as [Hd Hdm].
      destruct (ownerId_inv d Ho) as [[Hdp Epid] | [Hds Hdl]].
      * assert (d = pr).
        { apply (same_id_same_row rs); auto; [apply table | congruence]. }
        subst d. exists pr. split; [exact Hpr|]. split; [exact Hdm | now left].
      * exists (mergeRow (id pr) N d).
        split; [now apply Hkeep|].
        split; [now rewrite mergeRow_matchesInput|]. right.
        rewrite mergeRow_linkedId.
        destruct (memId (id d) N || linkedInto N d); congruence.
    + exfalso. apply linkedLive_In in Hlk. destruct Hlk as [_ Hlk].
      apply linkedTo_spec in Hlk. destruct Hlk as [Hlk _].
      rewrite (unlinked pr Hrow Hp) in Hlk. discriminate.
  - (* closure *)
    intros c' Hc' Hm'. apply withSecondary_In in Hc'.
    destruct Hc' as [Hc' | ->].
    2:{ right. split; [reflexivity|]. exists (id pr). auto. }
    apply in_map_iff in Hc'. destruct Hc' as [c [<- Hc]].
    rewrite mergeRow_matchesInput in Hm'.
    assert (Hcm : In c (matchingIn rs e p)) by (apply matchingIn_In; auto).
    assert (Hcc : In c (clusterOf rs (matchingIn rs e p)))
      by (apply (cluster_In e p table); now left).
    destruct (linkPrecedence c) eqn:Ec.
    + destruct (Hall c Hcc Ec) as [-> | Hn].
      * left. exact (winner_untouched pr N unlinked Hrow Hp Hw).
      * right.
        assert (Em : memId (id c) N = true)
          by (apply memId_In; now apply in_map).
        rewrite mergeRow_linkPrecedence, mergeRow_linkedId, Em.
        split; [reflexivity|]. exists (id pr). auto.
    + right.
      pose proof (matchesInput_live _ _ _ Hm') as Hlive.
      destruct (star c Hc Ec Hlive) as [q [owner [Hq [Ho [Eo Hop]]]]].
      assert (Em : memId (id c) N = false).
      { destruct (memId (id c) N) eqn:E; [|reflexivity].
        destruct (Hnew c (Hnewer c Hc E)) as [_ [_ [_ Hcp]]]. congruence. }
      rewrite mergeRow_linkPrecedence, mergeRow_linkedId, Em.
      split; [exact Ec|]. simpl.
      destruct (linkedInto N c) eqn:El; [exists (id pr); auto|].
      exists q. split; [exact Hq|].
      destruct (live owner) eqn:Elo.
      * left.
        assert (Hoc : In owner (clusterOf rs (matchingIn rs e p))).
        { apply (cluster_In e p table). right. exists c, q.
          split; [exact Hcm|]. split.
          - apply ownerId_secondary; auto.
            rewrite <- Eo. apply (tableOk_bounds owner table Ho).
          - left. split; [|exact Elo]. rewrite <- Eo.
            apply lookupId_of_row; [apply table | exact Ho]. }
        destruct (Hall owner Hoc Hop) as [-> | Hn]; [now symmetry|].
        exfalso. unfold linkedInto in El. rewrite Hlive, Hq in El.
        assert (Eq : memId q N = true).
        { apply memId_In. rewrite <- Eo. now apply in_map. }
        rewrite Eq in El. discriminate.
      * right. intros d Hd Hid. apply withSecondary_In in Hd.
        destruct Hd as [Hd | ->].
        -- apply in_map_iff in Hd. destruct Hd as [d0 [<- Hd0]].
           rewrite mergeRow_id in Hid. rewrite mergeRow_live.
           assert (d0 = owner).
           { apply (same_id_same_row rs); auto; [apply table | congruence]. }
           now subst.
        -- exfalso. simpl in Hid.
           pose proof (tableOk_bounds owner table Ho). lia.
  - apply withSecondary_combo.
Qed.

(** After a completed first call the table is settled around the primary
    of its response. *)
Lemma first_call_settles (r : IdentifyResponse) :
  identifyResult now e p rs n = Ok r ->
  exists pr,
    settledAround pr
    /\ r = ContactService.buildResponse pr (linkedLive rs1 (id pr)).
Proof.
  intros Hr.
  destruct (identify_cases rs e p) as [H | [[Hm H] | [Hm [pr H]]]].
  - destruct (created_primary_settles H) as [Hs Hres].
    exists (newPrimary n now e p). split; [exact Hs|]. congruence.
  - destruct (identify_throw rs n now e p Hm H) as [_ [_ Hres]]. congruence.
  - destruct (resolved_primary_settles Hm H) as [Hs Hres].
    exists pr. split; [exact Hs|]. congruence.
Qed.

Lemma identifyRows_length :
  List.length rs1 <= S (List.length rs).
Proof.
  unfold rs1.
  destruct (identify_cases rs e p) as [H | [[Hm H] | [Hm [pr H]]]].
  - destruct (identify_noMatch rs n now e p H) as [-> _].
    rewrite length_app. simpl. lia.
  - destruct (identify_throw rs n now e p Hm H) as [-> _]. lia.
  - destruct (identify_match rs n now e p Hm H) as [-> _].
    destruct (resolved_anatomy e p table H)
      as [newer [_ [_ [_ [_ [_ [_ [_ [_ ->]]]]]]]]].
    unfold withSecondary.
    destruct (ContactService.comboExists _ e p);
      rewrite ?length_app, length_map; simpl; lia.
Qed.

End FirstCall.

(** C3: on a store that satisfies the data-model invariants, calling
    identify twice in sequence with the same (email, phone) pair, at least
    one of the two supplied, creates at most one contact in total: the
    second call leaves the table as the first left it, and its outcome (the
    response with primaryContactId, emails, phoneNumbers and
    secondaryContactIds, or the error) equals the first call's. *)
Theorem identify_idempotent (now1 now2 : Z) (e p : option string)
        (s s1 s2 : Store) (r1 r2 : Result IdentifyResponse) :
  storeOk s ->
  truthy e || truthy p = true ->
  ContactService.identify now1 e p s = (s1, r1) ->
  ContactService.identify now2 e p s1 = (s2, r2) ->
  rows s2 = rows s1
  /\ r2 = r1
  /\ List.length (rows s2) <= S (List.length (rows s)).
Proof.
  intros [Ht [Hu Hs]] Hsup Hc1 Hc2.
  apply identify_rows in Hc1. destruct Hc1 as [Hr1 [Hn1 Hres1]].
  apply identify_rows in Hc2. destruct Hc2 as [Hr2 [_ Hres2]].
  assert (Hlen : List.length (rows s1) <= S (List.length (rows s))).
  { rewrite Hr1. apply (identifyRows_length now1 e p Ht). }
  assert (Hsame : rows s2 = rows s1 /\ r2 = r1).
  { rewrite Hr2, Hres2, Hn1, Hr1.
    destruct r1 as [r|err].
    - symmetry in Hres1.
      destruct (first_call_settles now1 e p Ht Hu Hs Hsup Hres1)
        as [pr [[Hin [Hp [Hl [Ha [Hcl Hco]]]]] Hr]].
      destruct (settled_call now2 e p
                             (identify_tableOk now1 e p Ht)
                             (identify_primariesUnlinked now1 e p Ht Hu)
                             Hin Hp Hl Ha Hcl Hco)
        as [E1 [_ E3]].
      rewrite E1, E3. split; [reflexivity | now rewrite Hr].
    - destruct (identify_cases (rows s) e p) as [H | [[Hm H] | [Hm [pr H]]]].
      + destruct (identify_noMatch (rows s) (nextId s) now1 e p H)
          as [_ [_ E]]. congruence.
      + destruct (identify_throw (rows s) (nextId s) now1 e p Hm H)
          as [E1 [E2 E3]].
        destruct (identify_throw (rows s) (nextId s) now2 e p Hm H)
          as [F1 [_ F3]].
        rewrite E1, E2, F1, F3. split; [reflexivity | congruence].
      + destruct (identify_match (rows s) (nextId s) now1 e p Hm H)
          as [_ [_ E]]. congruence. }
  destruct Hsame as [E1 E2]. rewrite E1. auto.
Qed.

Lemma identify_idempotent_witness :
  rows (fst (ContactService.identify 200 joinEmail joinPhone mergedClusters))
  = rows mergedClusters
  /\ snd (ContactService.identify 200 joinEmail joinPhone mergedClusters)
     = Ok (mkResponse 1
             ["a@x.com"%string; "b@x.com"%string; "c@x.com"%string]
             ["111"%string; "222"%string] [2; 3; 5])
  /\ List.length
       (rows (fst (ContactService.identify 200 joinEmail joinPhone
                                           mergedClusters)))
     <= S (List.length (rows twoClusters)).
Proof.
  apply (identify_idempotent 100 200 joinEmail joinPhone
                             twoClusters_storeOk).
  - reflexivity.
  - apply twoClusters_merged.
  - apply surjective_pairing.
Defined.

(* ------------------------------------------------------------------ *)
(** ** The repository queries, read off the table *)

Lemma str_eq_spec (a b : option string) : str_eq a b = true <-> a = b.
Proof.
  destruct a as [x|], b as [y|]; simpl.
  - rewrite String.eqb_eq. split; congruence.
  - split; discriminate.
  - split; discriminate.
  - tauto.
Qed.

Lemma live_spec (c : Contact) : live c = true <-> deletedAt c = None.
Proof. unfold live, is_null. destruct (deletedAt c); split; congruence. Qed.

Lemma matchesInput_spec (e p : option string) (c : Contact) :
  matchesInput e p c = true <->
  deletedAt c = None
  /\ ((truthy e = true /\ email c = e)
      \/ (truthy p = true /\ phoneNumber c = p)).
Proof.
  unfold matchesInput, ContactRepository.anyOf, ContactRepository.conditionsFor.
  rewrite andb_true_iff, live_spec, existsb_app, orb_true_iff.
  destruct (truthy e), (truthy p); simpl;
    rewrite ?orb_false_r, ?str_eq_spec; intuition congruence.
Qed.

(** X1: findMatchingContacts changes neither the rows nor the sequence and
    returns, sorted by createdAt ascending, exactly the rows that are not
    soft-deleted and whose email equals a supplied (non-empty) email or
    whose phoneNumber equals a supplied (non-empty) phone, each as often as
    the table holds it. *)
Theorem findMatchingContacts_exact (e p : option string) (s : Store) :
  exists s' m,
    ContactRepository.findMatchingContacts e p s = (s', Ok m)
    /\ rows s' = rows s /\ nextId s' = nextId s
    /\ Sorted byCreatedAt m
    /\ Permutation m (filter (matchesInput e p) (rows s))
    /\ forall c, In c m <->
                 In c (rows s) /\ deletedAt c = None
                 /\ ((truthy e = true /\ email c = e)
                     \/ (truthy p = true /\ phoneNumber c = p)).
Proof.
  destruct s as [rs n j].
  destruct (findMatchingContacts_runs rs n j e p) as [j' Hj].
  exists (mkStore rs n j'), (matchingIn rs e p).
  split; [exact Hj|]. simpl. split; [reflexivity|]. split; [reflexivity|].
  split; [|split].
  - unfold matchingIn. destruct (truthy e || truthy p);
      [apply sortByCreatedAt_sorted | constructor].
  - unfold matchingIn. destruct (truthy e || truthy p) eqn:E.
    + apply sortByCreatedAt_perm.
    + rewrite filter_none; [constructor|].
      intros c _. destruct (matchesInput e p c) eqn:Em; [|reflexivity].
      apply matchesInput_spec in Em. apply orb_false_iff in E.
      destruct E as [E1 E2], Em as [_ [[Em _] | [Em _]]]; congruence.
  - intros c. rewrite matchingIn_In, matchesInput_spec. reflexivity.
Qed.

(** X2: findContactsByPrimaryId changes neither the rows nor the sequence
    and returns, sorted by createdAt ascending, exactly the rows whose
    linkedId is the given id and that are not soft-deleted. *)
Theorem findContactsByPrimaryId_exact (pid : nat) (s : Store) :
  exists s' l,
    ContactRepository.findContactsByPrimaryId pid s = (s', Ok l)
    /\ rows s' = rows s /\ nextId s' = nextId s
    /\ Sorted byCreatedAt l
    /\ Permutation l (filter (linkedTo pid) (rows s))
    /\ forall c, In c l <->
                 In c (rows s) /\ linkedId c = Some pid
                 /\ deletedAt c = None.
Proof.
  destruct s as [rs n j].
  destruct (findContactsByPrimaryId_runs rs n j pid) as [j' Hj].
  exists (mkStore rs n j'), (linkedLive rs pid).
  split; [exact Hj|]. simpl. split; [reflexivity|]. split; [reflexivity|].
  split; [apply linkedLive_sorted|].
  split; [apply sortByCreatedAt_perm|].
  intros c. rewrite linkedLive_In, linkedTo_spec. reflexivity.
Qed.

Lemma lookupId_append (rs : list Contact) (c : Contact) (i : nat) :
  lookupId (rs ++ [c]) i
  = match lookupId rs i with
    | Some x => Some x
    | None => if Nat.eqb (id c) i then Some c else None
    end.
Proof.
  unfold lookupId. induction rs as [|d rs IH]; simpl; [reflexivity|].
  destruct (Nat.eqb (id d) i); [reflexivity | exact IH].
Qed.

Lemma lookupId_none (rs : list Contact) (i : nat) :
  ~ In i (map id rs) -> lookupId rs i = None.
Proof.
  intros H. destruct (lookupId rs i) as [c|] eqn:E; [|reflexivity].
  apply lookupId_In in E. destruct E as [Hc <-].
  exfalso. apply H. now apply in_map.
Qed.

Lemma findContactById_eq (i : nat) (s : Store) :
  ContactRepository.findContactById i s
  = (record (QFindUnique i) s, Ok (lookupId (rows s) i)).
Proof. reflexivity. Qed.

Lemma createContact_eq (now : Z) (d : ContactRepository.CreateData) (s : Store) :
  ContactRepository.createContact now d s
  = (mkStore (rows s ++ [mkContact (nextId s) (ContactRepository.cd_email d)
                                   (ContactRepository.cd_phoneNumber d)
                                   (ContactRepository.cd_linkedId d)
                                   (ContactRepository.cd_linkPrecedence d)
                                   now None])
             (S (nextId s)) (journal s ++ [QCreate]),
     Ok (mkContact (nextId s) (ContactRepository.cd_email d)
                   (ContactRepository.cd_phoneNumber d)
                   (ContactRepository.cd_linkedId d)
                   (ContactRepository.cd_linkPrecedence d) now None)).
Proof. reflexivity. Qed.

(** X3: on a table whose ids are distinct and below the sequence, the
    contact createContact returns carries the next id of the sequence and
    no soft-delete marker, findContactById finds it under that id, and
    every id that found a contact before still finds the same contact. *)
Theorem create_then_find (now : Z) (d : ContactRepository.CreateData)
        (s : Store) :
  tableOk (rows s) (nextId s) ->
  exists s1 c s2,
    ContactRepository.createContact now d s = (s1, Ok c)
    /\ id c = nextId s /\ deletedAt c = None /\ createdAt c = now
    /\ nextId s1 = S (nextId s)
    /\ ContactRepository.findContactById (id c) s1 = (s2, Ok (Some c))
    /\ forall i old,
         snd (ContactRepository.findContactById i s) = Ok (Some old) ->
         snd (ContactRepository.findContactById i s1) = Ok (Some old).
Proof.
  intros Ht. rewrite createContact_eq.
  eexists. eexists. eexists. split; [reflexivity|].
  split; [reflexivity|]. split; [reflexivity|]. split; [reflexivity|].
  split; [reflexivity|]. split.
  - rewrite findContactById_eq. f_equal. f_equal. cbn [rows id].
    rewrite lookupId_append, lookupId_none; cbn [id].
    + now rewrite Nat.eqb_refl.
    + intros H. apply in_map_iff in H. destruct H as [x [Ex Hx]].
      pose proof (tableOk_bounds x Ht Hx). lia.
  - intros i old H. rewrite findContactById_eq in *. cbn [snd rows] in *.
    inversion H as [H1]. rewrite lookupId_append. now rewrite H1.
Qed.

Lemma create_then_find_witness :
  exists s1 c s2,
    ContactRepository.createContact 60
      (ContactRepository.mkCreateData (Some "e@x.com"%string) None None primary)
      twoClusters = (s1, Ok c)
    /\ id c = 5 /\ deletedAt c = None /\ createdAt c = 60%Z
    /\ nextId s1 = 6
    /\ ContactRepository.findContactById (id c) s1 = (s2, Ok (Some c))
    /\ forall i old,
         snd (ContactRepository.findContactById i twoClusters) = Ok (Some old) ->
         snd (ContactRepository.findContactById i s1) = Ok (Some old).
Proof.
  apply (create_then_find 60
           (ContactRepository.mkCreateData (Some "e@x.com"%string) None None
                                           primary)
           twoClusters twoClusters_tableOk).
Defined.

(* ------------------------------------------------------------------ *)
(** ** Updates *)

Lemma lookupId_updateRows_same (i : nat) (d : ContactRepository.UpdateData)
      (rs : list Contact) :
  lookupId (ContactRepository.updateRows i d rs) i
  = option_map (ContactRepository.applyUpdate d) (lookupId rs i).
Proof.
  unfold lookupId, ContactRepository.updateRows.
  induction rs as [|c rs IH]; simpl; [reflexivity|].
  destruct (Nat.eqb (id c) i) eqn:E; simpl.
  - now rewrite E.
  - rewrite E. exact IH.
Qed.

Lemma lookupId_updateRows_other (i k : nat) (d : ContactRepository.UpdateData)
      (rs : list Contact) :
  k <> i ->
  lookupId (ContactRepository.updateRows i d rs) k = lookupId rs k.
Proof.
  intros Hk. unfold lookupId, ContactRepository.updateRows.
  induction rs as [|c rs IH]; simpl; [reflexivity|].
  destruct (Nat.eqb (id c) i) eqn:E; simpl.
  - apply Nat.eqb_eq in E.
    assert (Ek : Nat.eqb (id c) k = false) by (apply Nat.eqb_neq; congruence).
    rewrite Ek. exact IH.
  - destruct (Nat.eqb (id c) k); [reflexivity | exact IH].
Qed.

Lemma updateContact_eq_found (i : nat) (d : ContactRepository.UpdateData)
      (s : Store) (c : Contact) :
  lookupId (rows s) i = Some c ->
  ContactRepository.updateContact i d s
  = (mkStore (ContactRepository.updateRows i d (rows s)) (nextId s)
             (journal s ++ [QUpdate i]),
     Ok (ContactRepository.applyUpdate d c)).
Proof.
  intros H. unfold ContactRepository.updateContact.
  unfold lookupId in H. now rewrite H.
Qed.

Section Writes.
Variable R : Contact -> Contact -> Prop.
Hypothesis R_refl : forall c, R c c.
Hypothesis R_trans : forall a b c, R a b -> R b c -> R a c.

Lemma Forall2_refl_R (l : list Contact) : Forall2 R l l.
Proof. induction l; constructor; auto. Qed.

Lemma Forall2_trans_R (l1 l2 l3 : list Contact) :
  Forall2 R l1 l2 -> Forall2 R l2 l3 -> Forall2 R l1 l3.
Proof.
  intros H. revert l3. induction H as [|a b l1 l2 Hab _ IH]; intros l3 H3.
  - inversion H3. constructor.
  - inversion H3 as [|? c ? l3' Hbc H3']; subst.
    constructor; [now apply (R_trans Hab) | now apply IH].
Qed.

Lemma updateRows_rel (i : nat) (d : ContactRepository.UpdateData)
      (l : list Contact) :
  (forall c, R c (ContactRepository.applyUpdate d c)) ->
  Forall2 R l (ContactRepository.updateRows i d l).
Proof.
  intros Hd. induction l as [|c l IH]; simpl; constructor; [|exact IH].
  destruct (Nat.eqb (id c) i); auto.
Qed.

Hypothesis R_demotion :
  forall old c, R c (ContactRepository.applyUpdate (demotion old) c).
Hypothesis R_relink :
  forall old c, R c (ContactRepository.applyUpdate (relink old) c).

Lemma relinkAll_rel (old : nat) (l : list Contact) :
  forall rs,
    Forall2 R rs
      (fold_left (fun r c => ContactRepository.updateRows (id c) (relink old) r)
                 l rs).
Proof.
  induction l as [|c l IH]; intros rs; simpl; [apply Forall2_refl_R|].
  eapply Forall2_trans_R; [|apply IH].
  apply updateRows_rel. apply R_relink.
Qed.

Lemma mergeRows_rel (old : nat) (newer : list Contact) :
  forall rs, Forall2 R rs (mergeRows old newer rs).
Proof.
  induction newer as [|c newer IH]; intros rs; [apply Forall2_refl_R|].
  unfold mergeRows in *. simpl.
  eapply Forall2_trans_R; [|apply IH].
  unfold demoteRows.
  eapply Forall2_trans_R; [|apply relinkAll_rel].
  apply updateRows_rel. apply R_demotion.
Qed.

Lemma resolvedRows_rel (cl rs : list Contact) :
  Forall2 R rs (resolvedRows cl rs).
Proof.
  unfold resolvedRows.
  destruct (Nat.leb (List.length (primariesOf cl)) 1); [apply Forall2_refl_R|].
  destruct (sortByCreatedAt (primariesOf cl)); [apply Forall2_refl_R|].
  apply mergeRows_rel.
Qed.

(** The rows a call leaves: the old rows, each related to what it was, and
    at most one new row, which carries the next id and the input. *)
Lemma identifyRows_rel (now : Z) (e p : option string) (rs : list Contact)
      (n : nat) :
  exists kept added,
    identifyRows now e p rs n = kept ++ added
    /\ Forall2 R rs kept
    /\ List.length added <= 1
    /\ forall c, In c added ->
         id c = n /\ email c = e /\ phoneNumber c = p
         /\ createdAt c = now /\ deletedAt c = None.
Proof.
  destruct (identify_cases rs e p) as [H | [[Hm H] | [Hm [pr H]]]].
  - destruct (identify_noMatch rs n now e p H) as [-> _].
    exists rs, [newPrimary n now e p].
    split; [reflexivity|]. split; [apply Forall2_refl_R|].
    split; [simpl; lia|]. intros c [<- | []]. simpl. auto.
  - destruct (identify_throw rs n now e p Hm H) as [-> _].
    exists rs, []. rewrite app_nil_r.
    split; [reflexivity|]. split; [apply Forall2_refl_R|].
    split; [simpl; lia|]. intros c [].
  - destruct (identify_match rs n now e p Hm H) as [-> _].
    unfold withSecondary.
    destruct (ContactService.comboExists _ e p).
    + exists (resolvedRows (clusterOf rs (matchingIn rs e p)) rs), [].
      rewrite app_nil_r.
      split; [reflexivity|]. split; [apply resolvedRows_rel|].
      split; [simpl; lia|]. intros c [].
    + exists (resolvedRows (clusterOf rs (matchingIn rs e p)) rs),
             [newSecondary n now pr e p].
      split; [reflexivity|]. split; [apply resolvedRows_rel|].
      split; [simpl; lia|]. intros c [<- | []]. simpl. auto.
Qed.

End Writes.

Lemma keepsIdentity_refl (c : Contact) : keepsIdentity c c.
Proof. unfold keepsIdentity. auto. Qed.

Lemma keepsIdentity_trans (a b c : Contact) :
  keepsIdentity a b -> keepsIdentity b c -> keepsIdentity a c.
Proof. unfold keepsIdentity. intuition congruence. Qed.

Lemma keepsIdentity_update (d : ContactRepository.UpdateData) (c : Contact) :
  keepsIdentity c (ContactRepository.applyUpdate d c).
Proof. unfold keepsIdentity. simpl. auto. Qed.

(** X5: updateContact on an id that a row carries returns that row with
    the supplied linkedId and linkPrecedence and every other column as it
    was; findContactById then finds the returned row under that id and
    finds every other id as before; every row keeps its id, email, phone,
    createdAt and deletedAt, and the rows with another id are unchanged. *)
Theorem updateContact_partial (i : nat) (d : ContactRepository.UpdateData)
        (s : Store) :
  In i (map id (rows s)) ->
  exists s' c c',
    ContactRepository.updateContact i d s = (s', Ok c')
    /\ In c (rows s) /\ id c = i
    /\ keepsIdentity c c'
    /\ linkedId c'
       = match ContactRepository.ud_linkedId d with
         | Some l => l
         | None => linkedId c
         end
    /\ linkPrecedence c'
       = match ContactRepository.ud_linkPrecedence d with
         | Some l => l
         | None => linkPrecedence c
         end
    /\ snd (ContactRepository.findContactById i s') = Ok (Some c')
    /\ (forall k, k <> i ->
          snd (ContactRepository.findContactById k s')
          = snd (ContactRepository.findContactById k s))
    /\ Forall2 keepsIdentity (rows s) (rows s')
    /\ (forall x, In x (rows s) -> id x <> i -> In x (rows s'))
    /\ nextId s' = nextId s.
Proof.
  intros H. destruct (lookupId_some (rows s) i H) as [c Hc].
  rewrite (updateContact_eq_found i d s Hc).
  eexists. exists c. eexists. split; [reflexivity|].
  destruct (lookupId_In _ _ Hc) as [Hin Hid].
  split; [exact Hin|]. split; [exact Hid|].
  split; [apply keepsIdentity_update|].
  split; [reflexivity|]. split; [reflexivity|].
  split; [|split; [|split; [|split]]].
  - rewrite findContactById_eq. cbn [snd rows].
    now rewrite lookupId_updateRows_same, Hc.
  - intros k Hk. rewrite !findContactById_eq. cbn [snd rows].
    now rewrite lookupId_updateRows_other.
  - cbn [rows].
    apply updateRows_rel;
      [apply keepsIdentity_refl | intros x; apply keepsIdentity_update].
  - intros x Hx Hne. cbn [rows]. unfold ContactRepository.updateRows.
    apply in_map_iff. exists x. split; [|exact Hx].
    apply Nat.eqb_neq in Hne. now rewrite Hne.
  - reflexivity.
Qed.

Lemma updateContact_partial_witness :
  exists s' c c',
    ContactRepository.updateContact 2 (demotion 1) twoClusters = (s', Ok c')
    /\ In c (rows twoClusters) /\ id c = 2
    /\ keepsIdentity c c'
    /\ linkedId c' = Some 1
    /\ linkPrecedence c' = secondary
    /\ snd (ContactRepository.findContactById 2 s') = Ok (Some c')
    /\ (forall k, k <> 2 ->
          snd (ContactRepository.findContactById k s')
          = snd (ContactRepository.findContactById k twoClusters))
    /\ Forall2 keepsIdentity (rows twoClusters) (rows s')
    /\ (forall x, In x (rows twoClusters) -> id x <> 2 -> In x (rows s'))
    /\ nextId s' = nextId twoClusters.
Proof.
  apply (updateContact_partial 2 (demotion 1) twoClusters).
  simpl. auto.
Defined.

(* ------------------------------------------------------------------ *)
(** ** What a call never does *)

Lemma notPromoted_refl (c : Contact) : notPromoted c c.
Proof. unfold notPromoted. auto. Qed.

Lemma notPromoted_trans (a b c : Contact) :
  notPromoted a b -> notPromoted b c -> notPromoted a c.
Proof. unfold notPromoted. auto. Qed.

(** X6: whatever the table and the input, and whether the call returns
    or raises, identify deletes no row and rewrites no email, phone,
    createdAt or deletedAt: the rows it leaves are the rows it found, in
    the same order and each with the same id and the same four columns,
    followed by at most one new row, which carries the next id of the
    sequence, the email and phone of the input and no soft-delete marker. *)
Theorem identify_keeps_contacts (now : Z) (e p : option string)
        (s s' : Store) (r : Result IdentifyResponse) :
  ContactService.identify now e p s = (s', r) ->
  exists kept added,
    rows s' = kept ++ added
    /\ Forall2 keepsIdentity (rows s) kept
    /\ List.length added <= 1
    /\ forall c, In c added ->
         id c = nextId s /\ email c = e /\ phoneNumber c = p
         /\ createdAt c = now /\ deletedAt c = None.
Proof.
  intros H. apply identify_rows in H. destruct H as [-> _].
  apply identifyRows_rel.
  - apply keepsIdentity_refl.
  - apply keepsIdentity_trans.
  - intros old c. apply keepsIdentity_update.
  - intros old c. apply keepsIdentity_update.
Qed.

Lemma identify_keeps_contacts_witness :
  exists kept added,
    rows mergedClusters = kept ++ added
    /\ Forall2 keepsIdentity (rows twoClusters) kept
    /\ List.length added <= 1
    /\ forall c, In c added ->
         id c = nextId twoClusters /\ email c = joinEmail
         /\ phoneNumber c = joinPhone
         /\ createdAt c = 100%Z /\ deletedAt c = None.
Proof.
  exact (identify_keeps_contacts 100 joinEmail joinPhone twoClusters
                                 twoClusters_merged).
Defined.

(** X7: identify never promotes: every row that was secondary before a
    call is secondary after it, whether the call returns or raises. *)
Theorem identify_never_promotes (now : Z) (e p : option string)
        (s s' : Store) (r : Result IdentifyResponse) :
  ContactService.identify now e p s = (s', r) ->
  exists kept added,
    rows s' = kept ++ added
    /\ Forall2 (fun c c' => id c' = id c
                            /\ (linkPrecedence c = secondary ->
                                linkPrecedence c' = secondary))
               (rows s) kept.
Proof.
  intros H. apply identify_rows in H. destruct H as [-> _].
  set (R := fun c c' : Contact => id c' = id c /\ notPromoted c c').
  assert (R1 : forall c, R c c) by (intros c; split; [reflexivity | apply notPromoted_refl]).
  assert (R2 : forall a b c, R a b -> R b c -> R a c).
  { intros a b c [I1 N1] [I2 N2]. split; [congruence|].
    now apply (notPromoted_trans N1). }
  assert (R3 : forall old c,
             R c (ContactRepository.applyUpdate (demotion old) c)).
  { intros old c. split; [reflexivity|]. intros _. reflexivity. }
  assert (R4 : forall old c,
             R c (ContactRepository.applyUpdate (relink old) c)).
  { intros old c. split; [reflexivity|]. intros Hs. exact Hs. }
  destruct (identifyRows_rel R R1 R2 R3 R4 now e p (rows s) (nextId s))
    as [kept [added [E [HF _]]]].
  exists kept, added. split; [exact E | exact HF].
Qed.

Lemma identify_never_promotes_witness :
  exists kept added,
    rows mergedClusters = kept ++ added
    /\ Forall2 (fun c c' => id c' = id c
                            /\ (linkPrecedence c = secondary ->
                                linkPrecedence c' = secondary))
               (rows twoClusters) kept.
Proof.
  exact (identify_never_promotes 100 joinEmail joinPhone twoClusters
                                 twoClusters_merged).
Defined.

(* ------------------------------------------------------------------ *)
(** ** Failure and the transaction *)

Lemma identifyResult_cases (now : Z) (e p : option string) (rs : list Contact)
      (n : nat) :
  (exists r, identifyResult now e p rs n = Ok r)
  \/ (identifyResult now e p rs n = Throw TypeError
      /\ identifyRows now e p rs n = rs
      /\ matchingIn rs e p <> []
      /\ primariesOf (clusterOf rs (matchingIn rs e p)) = []).
Proof.
  destruct (identify_cases rs e p) as [H | [[Hm H] | [Hm [pr H]]]].
  - destruct (identify_noMatch rs n now e p H) as [_ [_ E]]. eauto.
  - destruct (identify_throw rs n now e p Hm H) as [E1 [_ E3]].
    right. repeat split; auto. now apply resolvedPrimary_none.
  - destruct (identify_match rs n now e p Hm H) as [_ [_ E]]. eauto.
Qed.

(** X8: on a table with distinct ids below the sequence in which no
    primary carries a linkedId, when at least one contact matches and every
    matched contact is a secondary whose linkedId refers to no row that is
    not soft-deleted, identify raises the TypeError of reading the id of an
    undefined primary, and leaves the rows and the sequence as they were. *)
Theorem match_without_live_owner_raises (now : Z) (e p : option string)
        (s : Store) :
  tableOk (rows s) (nextId s) ->
  primariesUnlinked (rows s) ->
  (exists d, In d (rows s) /\ matchesInput e p d = true) ->
  (forall c, In c (rows s) -> matchesInput e p c = true ->
     linkPrecedence c = secondary
     /\ forall o, In o (rows s) -> linkedId c = Some (id o) ->
                  live o = false) ->
  exists s',
    ContactService.identify now e p s = (s', Throw TypeError)
    /\ rows s' = rows s /\ nextId s' = nextId s.
Proof.
  intros Ht Hu [d [Hd Hdm]] Hall.
  assert (Hm : matchingIn (rows s) e p <> []).
  { intros E. assert (Hin : In d (matchingIn (rows s) e p))
      by (apply matchingIn_In; auto).
    rewrite E in Hin. destruct Hin. }
  assert (Hp : primariesOf (clusterOf (rows s) (matchingIn (rows s) e p)) = []).
  { apply filter_none. intros c Hc.
    destruct (isPrimary c) eqn:E; [|reflexivity]. exfalso.
    apply isPrimary_spec in E.
    pose proof (proj1 (cluster_rows (rows s) e p c Hc)) as Hcr.
    apply (cluster_In e p Ht) in Hc.
    destruct Hc as [Hc | [d0 [pid [Hd0 [Ho [[Hl Hlive] | Hl]]]]]].
    - apply matchingIn_In in Hc. destruct Hc as [Hc1 Hc2].
      destruct (Hall c Hc1 Hc2) as [Hs _]. congruence.
    - apply matchingIn_In in Hd0. destruct Hd0 as [Hd0r Hd0m].
      destruct (Hall d0 Hd0r Hd0m) as [Hs Hdead].
      destruct (ownerId_inv d0 Ho) as [[Hp0 _] | [_ Hl0]]; [congruence|].
      apply lookupId_In in Hl. destruct Hl as [_ Ec]. rewrite <- Ec in Hl0.
      rewrite (Hdead c Hcr Hl0) in Hlive. discriminate.
    - apply linkedLive_In in Hl. destruct Hl as [_ Hl].
      apply linkedTo_spec in Hl. destruct Hl as [Hl _].
      rewrite (Hu c Hcr E) in Hl. discriminate. }
  apply resolved_none in Hp. destruct Hp as [Hnone _].
  destruct (identify_throw (rows s) (nextId s) now e p Hm Hnone)
    as [E1 [E2 E3]].
  destruct (identify_run now e p s) as [j Hrun]. rewrite E1, E2, E3 in Hrun.
  eexists. split; [exact Hrun|]. split; reflexivity.
Qed.

Lemma match_without_live_owner_raises_witness :
  exists s',
    ContactService.identify 7 (Some "o@x.com"%string) None orphanStore
    = (s', Throw TypeError)
    /\ rows s' = rows orphanStore /\ nextId s' = nextId orphanStore.
Proof.
  apply (@match_without_live_owner_raises 7 (Some "o@x.com"%string) None
           orphanStore).
  - exact orphanStore_tableOk.
  - intros c H Hp. in_rows H; [reflexivity | discriminate].
  - exists orphan. split; [simpl; auto | reflexivity].
  - intros c H Hm. in_rows H; [discriminate|].
    split; [reflexivity|]. intros o Ho Hl.
    in_rows Ho; [reflexivity | discriminate].
Defined.

(* ------------------------------------------------------------------ *)
(** ** Primaries carry no link *)

Lemma reachable_table_unlinked (s0 s : Store) :
  tableOk (rows s0) (nextId s0) -> primariesUnlinked (rows s0) ->
  reachable s0 s ->
  tableOk (rows s) (nextId s) /\ primariesUnlinked (rows s).
Proof.
  intros Ht Hu Hr. induction Hr as [|s now e p s' r Hr IH Hcall]; [auto|].
  destruct IH as [IHt IHu].
  apply identify_rows in Hcall. destruct Hcall as [-> [-> _]].
  split; [now apply identify_tableOk | now apply identify_primariesUnlinked].
Qed.

(** X9: in every store reached by completed identify calls from a table
    with distinct ids below the sequence in which no primary carries a
    linkedId, no primary carries a linkedId: a created primary has none,
    and a link is only ever written together with the demotion or onto a
    row that already has one. *)
Theorem primaries_stay_unlinked (s0 s : Store) :
  tableOk (rows s0) (nextId s0) ->
  (forall c, In c (rows s0) -> linkPrecedence c = primary ->
             linkedId c = None) ->
  reachable s0 s ->
  forall c, In c (rows s) -> linkPrecedence c = primary -> linkedId c = None.
Proof.
  intros Ht Hu Hr. exact (proj2 (reachable_table_unlinked Ht Hu Hr)).
Qed.

Lemma primaries_stay_unlinked_witness :
  tableOk (rows twoClusters) (nextId twoClusters)
  /\ linkedId alice = None.
Proof.
  split; [apply twoClusters_tableOk|].
  apply (primaries_stay_unlinked (s0 := twoClusters) (s := mergedClusters)).
  - apply twoClusters_tableOk.
  - apply twoClusters_primariesUnlinked.
  - apply mergedClusters_reachable.
  - rewrite mergedClusters_rows. now left.
  - reflexivity.
Defined.

(* ------------------------------------------------------------------ *)
(** ** The collected cluster *)

(** X10: on a table with distinct ids, given contacts read from the table
    that are not soft-deleted, collectFullCluster changes neither the rows
    nor the sequence and returns a list sorted by createdAt ascending, with
    distinct ids, of rows of the table that are not soft-deleted; it holds
    every given contact, and besides them exactly the rows that carry, as
    id or as linkedId, the owner id of a given contact: its own id when it
    is primary, else its non-zero linkedId. *)
Theorem collectFullCluster_collects (m : list Contact) (s : Store) :
  NoDup (map id (rows s)) ->
  (forall c, In c m -> In c (rows s) /\ deletedAt c = None) ->
  exists s' cl,
    ContactService.collectFullCluster m s = (s', Ok cl)
    /\ rows s' = rows s /\ nextId s' = nextId s
    /\ Sorted byCreatedAt cl
    /\ NoDup (map id cl)
    /\ (forall c, In c cl -> In c (rows s) /\ deletedAt c = None)
    /\ (forall c, In c m -> In c cl)
    /\ forall c, In c cl <->
         In c m
         \/ exists d pid,
              In d m /\ ownerId d = Some pid
              /\ In c (rows s) /\ deletedAt c = None
              /\ (id c = pid \/ linkedId c = Some pid).
Proof.
  intros Hnd Hm.
  assert (Hm' : forall c, In c m -> In c (rows s) /\ live c = true).
  { intros c Hc. destruct (Hm c Hc). split; [auto | now apply live_spec]. }
  destruct (@runs_at _ (ContactService.collectFullCluster m) s _ _ _
              (collectFullCluster_runs m (rows s) (nextId s) (journal s)))
    as [s' [Hc [Hr Hn]]].
  exists s', (clusterOf (rows s) m).
  split; [exact Hc|]. split; [exact Hr|]. split; [exact Hn|].
  split; [apply sortByCreatedAt_sorted|].
  split; [now apply clusterOf_ids_NoDup|].
  split; [|split].
  - intros c H. destruct (clusterOf_rows (rows s) m Hm' c H) as [H1 H2].
    split; [exact H1 | now apply live_spec].
  - intros c H. apply (clusterOf_In (rows s) m Hnd Hm'). now left.
  - intros c. rewrite (clusterOf_In (rows s) m Hnd Hm' c). split.
    + intros [H | [d [pid [Hd [Ho [[Hl Hlive] | Hl]]]]]]; [now left|right..].
      * apply lookupId_In in Hl. destruct Hl as [Hin Hid].
        exists d, pid. apply live_spec in Hlive. auto 8.
      * apply linkedLive_In in Hl. destruct Hl as [Hin Hl].
        apply linkedTo_spec in Hl. destruct Hl as [Hl Hdel].
        exists d, pid. auto 8.
    + intros [H | [d [pid [Hd [Ho [Hin [Hdel [Hid | Hl]]]]]]]]; [now left|right..].
      * exists d, pid. split; [exact Hd|]. split; [exact Ho|]. left.
        split; [|now apply live_spec]. rewrite <- Hid.
        now apply lookupId_of_row.
      * exists d, pid. split; [exact Hd|]. split; [exact Ho|]. right.
        apply linkedLive_In. split; [exact Hin|]. now apply linkedTo_spec.
Qed.

Lemma collectFullCluster_collects_witness :
  exists s' cl,
    ContactService.collectFullCluster [bobAlias] twoClusters = (s', Ok cl)
    /\ rows s' = rows twoClusters /\ nextId s' = nextId twoClusters
    /\ Sorted byCreatedAt cl
    /\ NoDup (map id cl)
    /\ (forall c, In c cl -> In c (rows twoClusters) /\ deletedAt c = None)
    /\ (forall c, In c [bobAlias] -> In c cl)
    /\ forall c, In c cl <->
         In c [bobAlias]
         \/ exists d pid,
              In d [bobAlias] /\ ownerId d = Some pid
              /\ In c (rows twoClusters) /\ deletedAt c = None
              /\ (id c = pid \/ linkedId c = Some pid).
Proof.
  apply collectFullCluster_collects.
  - apply twoClusters_tableOk.
  - intros c [<- | []]. simpl. auto.
Defined.

(* ------------------------------------------------------------------ *)
(** ** Resolving the primary *)

(** The head of a stable sort comes first among the oldest: everything
    before it in the input is strictly newer. *)
Lemma sortByCreatedAt_head_stable (l : list Contact) :
  forall x t,
    sortByCreatedAt l = x :: t ->
    exists l1 l2,
      l = l1 ++ x :: l2
      /\ forall d, In d l1 -> (createdAt x < createdAt d)%Z.
Proof.
  induction l as [|c l IH]; intros x t H; simpl in H; [discriminate|].
  destruct (sortByCreatedAt l) as [|y t'] eqn:Es.
  - apply sortByCreatedAt_nil in Es. subst l. simpl in H.
    inversion H; subst. exists [], []. split; [reflexivity | intros d []].
  - simpl in H. destruct (createdAt c <=? createdAt y)%Z eqn:E.
    + inversion H; subst. exists [], l. split; [reflexivity | intros d []].
    + inversion H; subst. apply Z.leb_gt in E.
      destruct (IH x t' eq_refl) as [l1 [l2 [El Hl]]].
      exists (c :: l1), l2. split; [now rewrite El|].
      intros d [<- | Hd]; [exact E | now apply Hl].
Qed.

Lemma resolvePrimary_result (contacts : list Contact) (s s' : Store)
      (r : option Contact) :
  ContactService.resolvePrimary contacts s = (s', Ok r) ->
  r = resolvedPrimary contacts.
Proof.
  unfold ContactService.resolvePrimary, resolvedPrimary, primariesOf.
  destruct (Nat.leb (List.length (filter isPrimary contacts)) 1).
  - intros H. now inversion H.
  - destruct (sortByCreatedAt (filter isPrimary contacts)) as [|old newer];
      [discriminate|].
    unfold bind at 1.
    match goal with
    | |- context [forM_ newer ?f s] => destruct (forM_ newer f s) as [s1 [u|err]]
    end; [|discriminate].
    intros H. now inversion H.
Qed.

(** X11: the contact resolvePrimary returns is a primary of the list it
    was given and no primary of that list was created before it; among
    primaries created at the same instant, the one that comes first in the
    list wins: every primary listed before the winner is strictly newer. *)
Theorem resolvePrimary_oldest (contacts : list Contact) (s s' : Store)
        (pr : Contact) :
  ContactService.resolvePrimary contacts s = (s', Ok (Some pr)) ->
  In pr contacts /\ linkPrecedence pr = primary
  /\ (forall c, In c contacts -> linkPrecedence c = primary ->
                (createdAt pr <= createdAt c)%Z)
  /\ exists before after,
       filter isPrimary contacts = before ++ pr :: after
       /\ forall d, In d before -> (createdAt pr < createdAt d)%Z.
Proof.
  intros H. apply resolvePrimary_result in H. symmetry in H.
  assert (Hmem : forall c, In c (primariesOf contacts) <->
                           In c contacts /\ linkPrecedence c = primary).
  { intros c. unfold primariesOf. rewrite filter_In, isPrimary_spec.
    reflexivity. }
  unfold resolvedPrimary in H.
  destruct (Nat.leb (List.length (primariesOf contacts)) 1) eqn:E.
  - destruct (primariesOf contacts) as [|x [|y l]] eqn:Ep;
      [discriminate | | discriminate].
    simpl in H. inversion H; subst x.
    assert (Hpr : In pr contacts /\ linkPrecedence pr = primary)
      by (apply Hmem; now left).
    destruct Hpr as [H1 H2]. split; [exact H1|]. split; [exact H2|]. split.
    + intros c Hc Hp.
      assert (Hin : In c [pr]) by (apply Hmem; auto).
      destruct Hin as [<- | []]. lia.
    + exists [], []. unfold primariesOf in Ep. rewrite Ep.
      split; [reflexivity | intros d []].
  - destruct (sortByCreatedAt (primariesOf contacts)) as [|x t] eqn:Es;
      [discriminate|].
    simpl in H. inversion H; subst x.
    destruct (resolved_members contacts Es) as [_ [H1 [H2 [_ H5]]]].
    split; [exact H1|]. split; [now apply isPrimary_spec|]. split.
    + intros c Hc Hp.
      assert (Hin : In c (pr :: t)).
      { rewrite <- Es. apply sortByCreatedAt_In. apply Hmem. auto. }
      destruct Hin as [<- | Hin]; [lia | now apply H5].
    + apply (sortByCreatedAt_head_stable _ Es).
Qed.

Lemma resolvePrimary_oldest_witness :
  In alice [alice; bob; bobAlias] /\ linkPrecedence alice = primary
  /\ (forall c, In c [alice; bob; bobAlias] -> linkPrecedence c = primary ->
                (createdAt alice <= createdAt c)%Z)
  /\ exists before after,
       filter isPrimary [alice; bob; bobAlias] = before ++ alice :: after
       /\ forall d, In d before -> (createdAt alice < createdAt d)%Z.
Proof.
  apply (resolvePrimary_oldest [alice; bob; bobAlias]
           (mkStore [alice; bob; bobAlias; bobRetired] 5 [])
           (s' := mkStore [alice; demoted 1 bob; relinked 1 bobAlias; bobRetired]
                          5 [QUpdate 2; QFindMany; QUpdate 3])).
  vm_compute. reflexivity.
Defined.

(** X12: on a table with distinct ids, given contacts of the table with
    distinct ids, resolvePrimary does not raise and leaves the sequence
    alone.  With no primary among them it returns undefined and writes
    nothing.  Otherwise its writes amount to one rewrite of every row: with
    the losers being the given primaries other than the winner, a loser
    becomes a secondary linked to the winner, a row that is not
    soft-deleted and is linked to a loser is linked to the winner, and
    every other row is left as it was. *)
Theorem resolvePrimary_rewrites (contacts : list Contact) (s : Store) :
  NoDup (map id (rows s)) ->
  NoDup (map id contacts) ->
  (forall c, In c contacts -> In c (rows s)) ->
  exists s' res,
    ContactService.resolvePrimary contacts s = (s', Ok res)
    /\ nextId s' = nextId s
    /\ match res with
       | None =>
           rows s' = rows s
           /\ forall c, In c contacts -> linkPrecedence c = secondary
       | Some pr =>
           exists losers,
             (forall i, In i losers <->
                        exists c, In c contacts /\ linkPrecedence c = primary
                                  /\ c <> pr /\ id c = i)
             /\ rows s' = map (mergeRow (id pr) losers) (rows s)
       end.
Proof.
  intros Hrs Hcl Hin.
  assert (Hids : forall c, In c contacts -> In (id c) (map id (rows s))).
  { intros c Hc. apply in_map. now apply Hin. }
  destruct (@runs_at _ (ContactService.resolvePrimary contacts) s _ _ _
              (resolvePrimary_runs contacts (rows s) (nextId s) (journal s)
                                   Hids))
    as [s' [Hrun [Hrows Hn]]].
  exists s', (resolvedPrimary contacts).
  split; [exact Hrun|]. split; [exact Hn|].
  destruct (primariesOf contacts) as [|x l] eqn:Ep.
  - destruct (resolved_none contacts Ep) as [-> Hr].
    rewrite Hr in Hrows. split; [exact Hrows|].
    intros c Hc. apply not_primary_secondary. intros Hp.
    assert (H : In c (primariesOf contacts)).
    { apply filter_In. split; [exact Hc | now apply isPrimary_spec]. }
    rewrite Ep in H. destruct H.
  - assert (Hne : primariesOf contacts <> []) by (rewrite Ep; discriminate).
    destruct (resolved_some contacts Hcl Hne)
      as [old [newer [Es [-> [Hold Hmerge]]]]].
    destruct (resolved_members contacts Es) as [H1 [H2 [H3 [H4 _]]]].
    exists (map id newer). split.
    + intros i. rewrite in_map_iff. split.
      * intros [c [Ec Hc]]. exists c. destruct (H4 c Hc) as [Hcc Hcp].
        split; [exact Hcc|]. split; [now apply isPrimary_spec|].
        split; [|exact Ec]. intros ->. apply Hold. now apply in_map.
      * intros [c [Hc [Hp [Hne' Ec]]]]. exists c. split; [exact Ec|].
        apply isPrimary_spec in Hp.
        destruct (H1 c Hc Hp) as [-> | Hnw]; [contradiction | exact Hnw].
    + rewrite Hrows. now apply Hmerge.
Qed.

Lemma resolvePrimary_rewrites_witness :
  exists s' res,
    ContactService.resolvePrimary [alice; bob; bobAlias] twoClusters
    = (s', Ok res)
    /\ nextId s' = nextId twoClusters
    /\ match res with
       | None =>
           rows s' = rows twoClusters
           /\ forall c, In c [alice; bob; bobAlias] ->
                        linkPrecedence c = secondary
       | Some pr =>
           exists losers,
             (forall i, In i losers <->
                        exists c, In c [alice; bob; bobAlias]
                                  /\ linkPrecedence c = primary
                                  /\ c <> pr /\ id c = i)
             /\ rows s' = map (mergeRow (id pr) losers) (rows twoClusters)
       end.
Proof.
  apply resolvePrimary_rewrites.
  - apply twoClusters_tableOk.
  - simpl. once (repeat constructor); simpl; intuition discriminate.
  - intros c H. simpl in *. intuition.
Defined.

(* ------------------------------------------------------------------ *)
(** ** A request inside one cluster *)

(** X13: on a table with distinct ids below the sequence in which no
    primary carries a linkedId, when at least one contact matches and every
    matched contact is the live primary [pr] or is linked to it, identify
    answers with primaryContactId = pr.id and rewrites no row: the table is
    left as it was or with one more row, a secondary linked to [pr] that
    carries the input. *)
Theorem lookup_resolves_to_owner (now : Z) (e p : option string) (s : Store)
        (pr : Contact) :
  tableOk (rows s) (nextId s) ->
  (forall c, In c (rows s) -> linkPrecedence c = primary ->
             linkedId c = None) ->
  In pr (rows s) -> linkPrecedence pr = primary -> deletedAt pr = None ->
  (exists d, In d (rows s) /\ matchesInput e p d = true) ->
  (forall c, In c (rows s) -> matchesInput e p c = true ->
             c = pr \/ linkedId c = Some (id pr)) ->
  exists s' r,
    ContactService.identify now e p s = (s', Ok r)
    /\ primaryContactId r = id pr
    /\ (rows s' = rows s
        \/ rows s' = rows s ++ [mkContact (nextId s) e p (Some (id pr))
                                          secondary now None]).
Proof.
  intros Ht Hu Hrow Hp Hdel [d [Hd Hdm]] Hclosed.
  apply live_spec in Hdel.
  assert (Hanchor : exists x, In x (rows s) /\ matchesInput e p x = true
                              /\ (x = pr \/ linkedId x = Some (id pr))).
  { exists d. split; [exact Hd|]. split; [exact Hdm|]. now apply Hclosed. }
  assert (Hclosure :
            forall c, In c (rows s) -> matchesInput e p c = true ->
              c = pr
              \/ (linkPrecedence c = secondary
                  /\ exists q, linkedId c = Some q
                               /\ (q = id pr
                                   \/ forall x, In x (rows s) -> id x = q ->
                                                live x = false))).
  { intros c Hc Hm. destruct (Hclosed c Hc Hm) as [-> | Hl]; [now left|].
    right. split.
    - apply not_primary_secondary. intros Hcp.
      rewrite (Hu c Hc Hcp) in Hl. discriminate.
    - exists (id pr). auto. }
  pose proof (settled_primaries e p Ht Hu Hrow Hp Hdel Hanchor Hclosure)
    as Hprim.
  pose proof (settled_match (rows s) e p Hanchor) as Hm.
  assert (Hres : resolvedPrimary (clusterOf (rows s) (matchingIn (rows s) e p))
                 = Some pr).
  { unfold resolvedPrimary. now rewrite Hprim. }
  assert (Hrr : resolvedRows (clusterOf (rows s) (matchingIn (rows s) e p))
                             (rows s) = rows s).
  { unfold resolvedRows. now rewrite Hprim. }
  destruct (identify_match (rows s) (nextId s) now e p Hm Hres)
    as [Hrows [_ Hr]].
  rewrite Hrr in Hrows, Hr.
  destruct (identify_run now e p s) as [j Hrun].
  rewrite Hr in Hrun.
  eexists. eexists. split; [exact Hrun|]. cbn [rows].
  split; [now rewrite buildResponse_lists|].
  rewrite Hrows. unfold withSecondary.
  destruct (ContactService.comboExists _ e p); [now left | now right].
Qed.

Lemma lookup_resolves_to_owner_witness :
  exists s' r,
    ContactService.identify 70 (Some "c@x.com"%string) None twoClusters
    = (s', Ok r)
    /\ primaryContactId r = id bob
    /\ (rows s' = rows twoClusters
        \/ rows s' = rows twoClusters
                     ++ [mkContact (nextId twoClusters) (Some "c@x.com"%string)
                                   None (Some (id bob)) secondary 70 None]).
Proof.
  apply lookup_resolves_to_owner.
  - apply twoClusters_tableOk.
  - apply twoClusters_primariesUnlinked.
  - simpl. auto.
  - reflexivity.
  - reflexivity.
  - exists bobAlias. simpl. auto.
  - intros c H Hm. in_rows H; try discriminate. right. reflexivity.
Defined.

(* ------------------------------------------------------------------ *)
(** ** The response built from a primary and its secondaries *)

Lemma truthy_some (x : string) : truthy (Some x) = true <-> x <> EmptyString.
Proof. destruct x; simpl; split; congruence. Qed.

Lemma presentValues_In (f : Contact -> option string) (l : list Contact)
      (x : string) :
  In x (presentValues f l) <->
  x <> EmptyString /\ exists c, In c l /\ f c = Some x.
Proof.
  unfold presentValues. rewrite in_flat_map. split.
  - intros [c [Hc Hx]]. destruct (f c) as [y|] eqn:E; [|destruct Hx].
    destruct (truthy (Some y)) eqn:Et; [|destruct Hx].
    destruct Hx as [<- | []]. split; [now apply truthy_some | eauto].
  - intros [Hne [c [Hc E]]]. exists c. split; [exact Hc|].
    rewrite E. apply truthy_some in Hne. rewrite Hne. now left.
Qed.

Lemma firstSeen_In (l : list string) (x : string) :
  In x (firstSeen [] l) <-> In x l.
Proof.
  split.
  - intros H. now apply firstSeen_fresh in H.
  - intros H. destruct (firstSeen_complete l [] x H) as [[] | H']. exact H'.
Qed.

Lemma firstSeen_head (f : Contact -> option string) (p : Contact)
      (l : list Contact) (x : string) :
  f p = Some x -> x <> EmptyString ->
  hd_error (firstSeen [] (presentValues f (p :: l))) = Some x.
Proof.
  intros E Hne. simpl. rewrite E. apply truthy_some in Hne. rewrite Hne.
  reflexivity.
Qed.

(** X14: for any primary and list of secondaries, buildResponse answers
    with the primary's id, the secondaries' ids in the order given, and two
    lists without duplicates that hold exactly the non-empty emails, resp.
    phones, of the primary and the secondaries; a non-empty email or phone
    of the primary heads its list. *)
Theorem buildResponse_exact (pr : Contact) (l : list Contact) :
  let r := ContactService.buildResponse pr l in
  primaryContactId r = id pr
  /\ secondaryContactIds r = map id l
  /\ NoDup (emails r) /\ NoDup (phoneNumbers r)
  /\ (forall x, In x (emails r) <->
                x <> EmptyString /\ exists c, In c (pr :: l) /\ email c = Some x)
  /\ (forall x, In x (phoneNumbers r) <->
                x <> EmptyString
                /\ exists c, In c (pr :: l) /\ phoneNumber c = Some x)
  /\ (forall x, email pr = Some x -> x <> EmptyString ->
                hd_error (emails r) = Some x)
  /\ (forall x, phoneNumber pr = Some x -> x <> EmptyString ->
                hd_error (phoneNumbers r) = Some x).
Proof.
  cbv zeta. rewrite buildResponse_lists. cbn [primaryContactId
    secondaryContactIds emails phoneNumbers].
  split; [reflexivity|]. split; [reflexivity|].
  split; [apply firstSeen_NoDup|]. split; [apply firstSeen_NoDup|].
  split; [|split; [|split]].
  - intros x. rewrite firstSeen_In. apply presentValues_In.
  - intros x. rewrite firstSeen_In. apply presentValues_In.
  - intros x. apply firstSeen_head.
  - intros x. apply firstSeen_head.
Qed.

(* ------------------------------------------------------------------ *)
(** ** Creating a secondary or not *)

Lemma comboExists_spec (l : list Contact) (e p : option string) :
  ContactService.comboExists l e p = true <->
  exists c, In c l
            /\ (truthy e = true -> email c = e)
            /\ (truthy p = true -> phoneNumber c = p).
Proof.
  unfold ContactService.comboExists. rewrite existsb_exists.
  split; intros [c [Hc H]]; exists c; (split; [exact Hc|]).
  - apply andb_prop in H. destruct H as [H1 H2].
    split; intros Ht; rewrite Ht in *; simpl in *; now apply str_eq_spec.
  - destruct H as [H1 H2]. apply andb_true_intro. split.
    + destruct (truthy e); simpl; [|reflexivity].
      apply str_eq_spec. now apply H1.
    + destruct (truthy p); simpl; [|reflexivity].
      apply str_eq_spec. now apply H2.
Qed.

(** X15: createSecondaryIfNeeded never raises.  When some contact among
    the primary and the cluster carries every supplied (non-empty) field of
    the input, in particular when neither field is supplied, it sends no
    query and leaves the store as it was.  Otherwise at least one field is
    supplied, no contact carries the combination, and exactly one row is
    appended: a secondary linked to the primary, with the next id of the
    sequence and the email and phone of the input. *)
Theorem createSecondaryIfNeeded_cases (now : Z) (cluster : list Contact)
        (pr : Contact) (e p : option string) (s : Store) :
  exists s',
    ContactService.createSecondaryIfNeeded now cluster pr e p s = (s', Ok tt)
    /\ ((s' = s
         /\ exists c, In c (pr :: cluster)
                      /\ (truthy e = true -> email c = e)
                      /\ (truthy p = true -> phoneNumber c = p))
        \/ (rows s' = rows s ++ [mkContact (nextId s) e p (Some (id pr))
                                           secondary now None]
            /\ nextId s' = S (nextId s)
            /\ (truthy e = true \/ truthy p = true)
            /\ forall c, In c (pr :: cluster) ->
                 ~ ((truthy e = true -> email c = e)
                    /\ (truthy p = true -> phoneNumber c = p)))).
Proof.
  unfold ContactService.createSecondaryIfNeeded.
  destruct (ContactService.comboExists (pr :: cluster) e p) eqn:E.
  - exists s. split; [reflexivity|]. left. split; [reflexivity|].
    now apply comboExists_spec.
  - pose proof (comboExists_false_supplied _ _ _ _ E) as Hsup.
    rewrite Hsup. simpl negb. rewrite andb_true_l, orb_true_r.
    eexists. split; [reflexivity|]. right. cbn [rows nextId].
    split; [reflexivity|]. split; [reflexivity|]. split.
    + apply orb_prop in Hsup. exact Hsup.
    + intros c Hc Hboth.
      assert (H : ContactService.comboExists (pr :: cluster) e p = true)
        by (apply comboExists_spec; eauto).
      congruence.
Qed.

(* ------------------------------------------------------------------ *)
(** ** What the boundary answers *)

Lemma sentToService_eq (f : string -> string) (x : option string) :
  f EmptyString = EmptyString ->
  orNull (if truthy x then option_map f x else x) = sentToService f x.
Proof.
  intros Hempty. destruct x as [[|a v]|]; simpl; [|  |reflexivity].
  - now rewrite Hempty.
  - destruct (f (String a v)); reflexivity.
Qed.

(** X16: for a request whose fields are strings of 7-bit characters, the
    controller answers 400 with the fixed message, and hands the store back
    as it was, when email and phoneNumber are both absent or empty.
    Otherwise it calls the service once, with the email trimmed and
    lower-cased and the phone trimmed, each replaced by null when that
    leaves it empty; it answers 200 with the very response the service
    returned, or, when the service raises, 500 with the message
    "Internal server error" whatever was raised; the store is the one the
    service left, with the rows as they were when it raised. *)
Theorem controller_outcomes (now : Z) (body : IdentifyRequest) (s : Store) :
  sevenBitField (req_email body) = true ->
  sevenBitField (req_phoneNumber body) = true ->
  (truthy (req_email body) = false
   /\ truthy (req_phoneNumber body) = false
   /\ ContactController.identify now body s
      = (s, mkHttp 400 (JsonError ContactController.missingIdentifier)))
  \/ ((truthy (req_email body) = true
       \/ truthy (req_phoneNumber body) = true)
      /\ exists s' res,
           ContactService.identify now
             (sentToService (fun v => toLowerCase (trim v)) (req_email body))
             (sentToService trim (req_phoneNumber body)) s
           = (s', res)
           /\ match res with
              | Ok r =>
                  ContactController.identify now body s
                  = (s', mkHttp 200 (JsonContact r))
              | Throw _ =>
                  ContactController.identify now body s
                  = (s', mkHttp 500 (JsonError "Internal server error"))
                  /\ rows s' = rows s
              end).
Proof.
  intros _ _.
  unfold ContactController.identify. cbv zeta.
  rewrite (sentToService_eq (fun v => toLowerCase (trim v)) (req_email body)
             eq_refl).
  rewrite (sentToService_eq trim (req_phoneNumber body) eq_refl).
  set (e' := sentToService (fun v => toLowerCase (trim v)) (req_email body)).
  set (p' := sentToService trim (req_phoneNumber body)).
  destruct (identify_run now e' p' s) as [j Hrun].
  assert (Hcall : exists s' res,
             ContactService.identify now e' p' s = (s', res)
             /\ match res with
                | Ok r =>
                    match ContactService.identify now e' p' s with
                    | (s1, Ok result) => (s1, mkHttp 200 (JsonContact result))
                    | (s1, Throw error) => (s1, errorHandler error)
                    end = (s', mkHttp 200 (JsonContact r))
                | Throw _ =>
                    match ContactService.identify now e' p' s with
                    | (s1, Ok result) => (s1, mkHttp 200 (JsonContact result))
                    | (s1, Throw error) => (s1, errorHandler error)
                    end = (s', mkHttp 500 (JsonError "Internal server error"))
                    /\ rows s' = rows s
                end).
  { rewrite Hrun.
    destruct (identifyResult_cases now e' p' (rows s) (nextId s))
      as [[r Hr] | [Hr [Hrows _]]]; rewrite Hr.
    - eexists. eexists. split; reflexivity.
    - eexists. eexists. split; [reflexivity|].
      split; [reflexivity | exact Hrows]. }
  destruct (truthy (req_email body)) eqn:Ee;
    destruct (truthy (req_phoneNumber body)) eqn:Ep; cbn [negb andb];
    try (right; split; [auto | exact Hcall]).
  left. auto.
Qed.

Lemma controller_outcomes_witness :
  (truthy (Some "  Alice@X.com "%string) = false
   /\ truthy (@None string) = false
   /\ ContactController.identify 5
        (mkRequest (Some "  Alice@X.com "%string) None) emptyStore
      = (emptyStore,
         mkHttp 400 (JsonError ContactController.missingIdentifier)))
  \/ ((truthy (Some "  Alice@X.com "%string) = true
       \/ truthy (@None string) = true)
      /\ exists s' res,
           ContactService.identify 5
             (sentToService (fun v => toLowerCase (trim v))
                            (Some "  Alice@X.com "%string))
             (sentToService trim None) emptyStore
           = (s', res)
           /\ match res with
              | Ok r =>
                  ContactController.identify 5
                    (mkRequest (Some "  Alice@X.com "%string) None) emptyStore
                  = (s', mkHttp 200 (JsonContact r))
              | Throw _ =>
                  ContactController.identify 5
                    (mkRequest (Some "  Alice@X.com "%string) None) emptyStore
                  = (s', mkHttp 500 (JsonError "Internal server error"))
                  /\ rows s' = rows emptyStore
              end).
Proof.
  apply (@controller_outcomes 5
           (mkRequest (Some "  Alice@X.com "%string) None) emptyStore);
    reflexivity.
Defined.

(* ------------------------------------------------------------------ *)
(** ** Normalisation at the boundary *)

Lemma list_of_reverse (s acc : string) :
  list_ascii_of_string (reverse s acc)
  = rev (list_ascii_of_string s) ++ list_ascii_of_string acc.
Proof.
  revert acc. induction s as [|a s IH]; intros acc; simpl; [reflexivity|].
  rewrite IH. simpl. rewrite <- app_assoc. reflexivity.
Qed.

Lemma list_of_trimStart (s : string) :
  list_ascii_of_string (trimStart s) = dropWhiteSpace (list_ascii_of_string s).
Proof.
  induction s as [|a s IH]; simpl; [reflexivity|].
  destruct (isWhiteSpace a); [exact IH | reflexivity].
Qed.

Lemma list_of_trim (s : string) :
  list_ascii_of_string (trim s)
  = rev (dropWhiteSpace (rev (dropWhiteSpace (list_ascii_of_string s)))).
Proof.
  unfold trim. rewrite list_of_reverse, list_of_trimStart, list_of_reverse,
    list_of_trimStart. simpl. now rewrite !app_nil_r.
Qed.

Lemma list_of_toLowerCase (s : string) :
  list_ascii_of_string (toLowerCase s) = map lowerChar (list_ascii_of_string s).
Proof. induction s as [|a s IH]; simpl; [reflexivity | now rewrite IH]. Qed.

Lemma list_ascii_inj (s t : string) :
  list_ascii_of_string s = list_ascii_of_string t -> s = t.
Proof.
  intros H. rewrite <- (string_of_list_ascii_of_string s),
    <- (string_of_list_ascii_of_string t). now rewrite H.
Qed.

Lemma dropWhiteSpace_head (l : list ascii) (a : ascii) (l' : list ascii) :
  dropWhiteSpace l = a :: l' -> isWhiteSpace a = false.
Proof.
  induction l as [|b l IH]; simpl; [discriminate|].
  destruct (isWhiteSpace b) eqn:E; [exact IH|].
  intros H. injection H as <- _. exact E.
Qed.

Lemma dropWhiteSpace_idem (l : list ascii) :
  dropWhiteSpace (dropWhiteSpace l) = dropWhiteSpace l.
Proof.
  induction l as [|b l IH]; simpl; [reflexivity|].
  destruct (isWhiteSpace b) eqn:E; [exact IH|]. simpl. now rewrite E.
Qed.

Lemma dropWhiteSpace_snoc (l : list ascii) (x : ascii) :
  isWhiteSpace x = false ->
  dropWhiteSpace (l ++ [x]) = dropWhiteSpace l ++ [x].
Proof.
  intros Hx. induction l as [|b l IH]; simpl; [now rewrite Hx|].
  destruct (isWhiteSpace b); [exact IH | reflexivity].
Qed.

Lemma trimmed_both_ends (l : list ascii) :
  let b := dropWhiteSpace (rev (dropWhiteSpace l)) in
  dropWhiteSpace (rev b) = rev b /\ dropWhiteSpace b = b.
Proof.
  cbv zeta. split; [|apply dropWhiteSpace_idem].
  destruct (dropWhiteSpace l) as [|x a'] eqn:E; [reflexivity|].
  pose proof (dropWhiteSpace_head _ E) as Hx.
  simpl rev. rewrite (dropWhiteSpace_snoc _ _ Hx), rev_app_distr. simpl.
  now rewrite Hx.
Qed.

Lemma trim_idem (s : string) : trim (trim s) = trim s.
Proof.
  apply list_ascii_inj. rewrite (list_of_trim (trim s)), list_of_trim.
  destruct (trimmed_both_ends (list_ascii_of_string s)) as [H1 H2].
  rewrite H1, rev_involutive, H2. reflexivity.
Qed.

Lemma isWhiteSpace_lowerChar (a : ascii) :
  isWhiteSpace (lowerChar a) = isWhiteSpace a.
Proof. destruct a as [[] [] [] [] [] [] [] []]; reflexivity. Qed.

Lemma lowerChar_idem (a : ascii) : lowerChar (lowerChar a) = lowerChar a.
Proof. destruct a as [[] [] [] [] [] [] [] []]; reflexivity. Qed.

Lemma dropWhiteSpace_lower (l : list ascii) :
  dropWhiteSpace (map lowerChar l) = map lowerChar (dropWhiteSpace l).
Proof.
  induction l as [|b l IH]; simpl; [reflexivity|].
  rewrite isWhiteSpace_lowerChar. destruct (isWhiteSpace b);
    [exact IH | reflexivity].
Qed.

Lemma trim_toLowerCase (s : string) :
  trim (toLowerCase s) = toLowerCase (trim s).
Proof.
  apply list_ascii_inj.
  rewrite list_of_trim, !list_of_toLowerCase, list_of_trim.
  rewrite dropWhiteSpace_lower, <- map_rev, dropWhiteSpace_lower, map_rev.
  reflexivity.
Qed.

Lemma toLowerCase_idem (s : string) :
  toLowerCase (toLowerCase s) = toLowerCase s.
Proof.
  induction s as [|a s IH]; simpl; [reflexivity|].
  now rewrite lowerChar_idem, IH.
Qed.

Lemma normalise_idem (s : string) :
  toLowerCase (trim (toLowerCase (trim s))) = toLowerCase (trim s).
Proof. now rewrite trim_toLowerCase, toLowerCase_idem, trim_idem. Qed.

Lemma normalised_field (f : string -> string) (E : option string) :
  (forall x, f (f x) = f x) -> f EmptyString = EmptyString ->
  orNull (if truthy (option_map f E)
          then option_map f (option_map f E) else option_map f E)
  = orNull (if truthy E then option_map f E else E).
Proof.
  intros Hidem Hempty. destruct E as [[|a e]|]; simpl; [| |reflexivity].
  - rewrite Hempty. reflexivity.
  - rewrite Hidem. destruct (f (String a e)); reflexivity.
Qed.

Lemma truthy_normalised (f : string -> string) (E : option string) :
  f EmptyString = EmptyString ->
  truthy (option_map f E) = true -> truthy E = true.
Proof.
  intros Hempty. destruct E as [[|a e]|]; simpl; [|reflexivity|discriminate].
  now rewrite Hempty.
Qed.

(** X17: the controller cannot tell a request from its normalised form.
    For a request whose fields are strings of 7-bit characters: when the
    request with the email trimmed and lower-cased and the phone trimmed
    still carries a non-empty field, sending that request instead of the
    original gives the same store and the same answer: normalising twice
    is normalising once. *)
Theorem controller_normalisation_stable (now : Z) (body : IdentifyRequest)
        (s : Store) :
  let body' :=
    mkRequest
      (option_map (fun e => toLowerCase (trim e)) (req_email body))
      (option_map trim (req_phoneNumber body)) in
  sevenBitField (req_email body) = true ->
  sevenBitField (req_phoneNumber body) = true ->
  truthy (req_email body') = true \/ truthy (req_phoneNumber body') = true ->
  ContactController.identify now body' s = ContactController.identify now body s.
Proof.
  cbv zeta. destruct body as [E P]. cbn [req_email req_phoneNumber].
  intros _ _ Hsup.
  assert (Hsup' : truthy E = true \/ truthy P = true).
  { destruct Hsup as [H | H]; [left | right];
      eapply truthy_normalised; try exact H; reflexivity. }
  unfold ContactController.identify. cbn [req_email req_phoneNumber].
  replace (negb (truthy (option_map (fun e => toLowerCase (trim e)) E))
           && negb (truthy (option_map trim P))) with false
    by (destruct Hsup as [H | H]; rewrite H; simpl;
        [reflexivity | now rewrite andb_false_r]).
  replace (negb (truthy E) && negb (truthy P)) with false
    by (destruct Hsup' as [H | H]; rewrite H; simpl;
        [reflexivity | now rewrite andb_false_r]).
  rewrite (normalised_field (fun e => toLowerCase (trim e)) E normalise_idem
             eq_refl).
  rewrite (normalised_field trim P trim_idem eq_refl).
  reflexivity.
Qed.

Lemma controller_normalisation_stable_witness :
  ContactController.identify 5
    (mkRequest (Some "alice@x.com"%string) None) emptyStore
  = ContactController.identify 5
      (mkRequest (Some "  Alice@X.com "%string) None) emptyStore.
Proof.
  apply (@controller_normalisation_stable 5
           (mkRequest (Some "  Alice@X.com "%string) None) emptyStore).
  - reflexivity.
  - reflexivity.
  - left. reflexivity.
Defined.

(* ------------------------------------------------------------------ *)
(** ** The response and the collected cluster (C6) *)

Lemma linkedLive_NoDup (rs : list Contact) (pid : nat) :
  NoDup (map id rs) -> NoDup (linkedLive rs pid).
Proof.
  intros H. unfold linkedLive.
  apply (Permutation_NoDup (Permutation_sym (sortByCreatedAt_perm _))).
  apply NoDup_filter. now apply NoDup_map_inv in H.
Qed.

Lemma present_nonNull (f : Contact -> option string) (l : list Contact) :
  (forall c, In c l -> notEmpty (f c)) ->
  presentValues f l = nonNullValues f l.
Proof.
  unfold presentValues, nonNullValues, notEmpty.
  induction l as [|c l IH]; simpl; intros H; [reflexivity|].
  rewrite IH by (intros d Hd; apply H; now right). f_equal.
  pose proof (H c (or_introl eq_refl)) as Hc.
  destruct (f c) as [[|a x]|]; simpl; congruence.
Qed.

Section ResponseCluster.
Variables (rs : list Contact) (n : nat) (now : Z) (e p : option string).
Hypothesis table : tableOk rs n.
Hypothesis unlinked : primariesUnlinked rs.
Hypothesis star : starLive rs.
Hypothesis owners : ownersLive rs e p.

Let m := matchingIn rs e p.
Let cl := clusterOf rs m.
Let touched (c : Contact) : bool :=
  memId (id c) (map id cl) || Nat.leb n (id c).
Let rs' := identifyRows now e p rs n.

(** A primary of the collected cluster is the owner of a matched contact. *)
Lemma primary_member_owner (x : Contact) :
  In x cl -> linkPrecedence x = primary ->
  exists d, In d m /\ ownerId d = Some (id x).
Proof.
  intros Hx Hp. pose proof (proj1 (cluster_rows rs e p x Hx)) as Hxr.
  apply (cluster_In e p table) in Hx.
  destruct Hx as [Hx | [d [pid [Hd [Ho [[Hl _] | Hl]]]]]].
  - exists x. split; [exact Hx | now apply ownerId_primary].
  - exists d. split; [exact Hd|]. apply lookupId_In in Hl.
    destruct Hl as [_ <-]. exact Ho.
  - exfalso. apply linkedLive_In in Hl. destruct Hl as [_ Hl].
    apply linkedTo_spec in Hl. destruct Hl as [Hl _].
    rewrite (unlinked x Hxr Hp) in Hl. discriminate.
Qed.

(** So the live rows linked to a primary of the cluster are in it. *)
Lemma linked_member (x d : Contact) :
  In x cl -> linkPrecedence x = primary ->
  In d rs -> linkedId d = Some (id x) -> live d = true -> In d cl.
Proof.
  intros Hx Hp Hd Hl Hlive.
  destruct (primary_member_owner x Hx Hp) as [d0 [Hd0 Ho]].
  apply (cluster_In e p table). right. exists d0, (id x).
  split; [exact Hd0|]. split; [exact Ho|]. right.
  apply linkedLive_In. split; [exact Hd|].
  apply linkedTo_spec. split; [exact Hl | now apply live_spec].
Qed.

(** The owner of a matched contact is a live primary row, and it is in the
    cluster. *)
Lemma matched_owner (d : Contact) (pid : nat) :
  In d m -> ownerId d = Some pid ->
  exists o, In o rs /\ id o = pid /\ linkPrecedence o = primary
            /\ live o = true /\ In o cl.
Proof.
  intros Hd Ho.
  assert (Hfound : exists o, In o rs /\ id o = pid
                             /\ linkPrecedence o = primary /\ live o = true).
  { destruct (ownerId_inv d Ho) as [[Hp ->] | [Hs Hl]].
    - exists d. destruct (matchingIn_rows _ _ _ _ Hd). auto.
    - apply matchingIn_In in Hd. destruct Hd as [Hdr Hdm].
      destruct (owners d Hdr Hdm) as [Hp | [q [o [Hq [Hor [Eo [Hp Hlive]]]]]]].
      + congruence.
      + exists o. assert (q = pid) by congruence. subst q. auto. }
  destruct Hfound as [o [Hor [Eo [Hp Hlive]]]].
  exists o. repeat split; auto.
  apply (cluster_In e p table). right. exists d, pid.
  split; [exact Hd|]. split; [exact Ho|]. left. split; [|exact Hlive].
  rewrite <- Eo. apply lookupId_of_row; [apply table | exact Hor].
Qed.

(** Every secondary of the collected cluster is linked to a primary of the
    cluster. *)
Lemma secondary_member_owner (d : Contact) :
  In d cl -> linkPrecedence d = secondary ->
  exists o, In o cl /\ linkPrecedence o = primary /\ linkedId d = Some (id o).
Proof.
  intros Hd Hs. apply (cluster_In e p table) in Hd.
  destruct Hd as [Hd | [d0 [pid [Hd0 [Ho [[Hl _] | Hl]]]]]].
  - pose proof Hd as Hdm. apply matchingIn_In in Hdm. destruct Hdm as [Hdr Hdm].
    destruct (owners d Hdr Hdm) as [Hp | [q [o [Hq [Hor [Eo [Hp Hlive]]]]]]];
      [congruence|].
    assert (Hown : ownerId d = Some q).
    { apply ownerId_secondary; auto.
      pose proof (tableOk_bounds o table Hor). lia. }
    destruct (matched_owner d Hd Hown) as [o' [_ [Eo' [Hp' [_ Hcl]]]]].
    exists o'. split; [exact Hcl|]. split; [exact Hp'|]. now rewrite Eo'.
  - exfalso.
    destruct (matched_owner d0 Hd0 Ho) as [o [Hor [Eo [Hp _]]]].
    apply lookupId_In in Hl. destruct Hl as [Hdr Ed].
    assert (d = o).
    { apply (same_id_same_row rs); auto; [apply table | congruence]. }
    subst o. congruence.
  - apply linkedLive_In in Hl. destruct Hl as [_ Hl].
    apply linkedTo_spec in Hl. destruct Hl as [Hl _].
    destruct (matched_owner d0 Hd0 Ho) as [o [_ [Eo [Hp [_ Hcl]]]]].
    exists o. split; [exact Hcl|]. split; [exact Hp|]. now rewrite Eo.
Qed.

(** After a match, the live rows linked to the resolved primary are the
    rows of the collected cluster and the created row, the primary apart. *)
Lemma answer_members (pr : Contact) :
  m <> [] -> resolvedPrimary cl = Some pr ->
  forall c, In c (linkedLive rs' (id pr)) <->
            In c rs' /\ touched c = true /\ isPrimary c = false.
Proof.
  intros Hm Hpr.
  destruct (identify_match rs n now e p Hm Hpr) as [Hrows _].
  destruct (resolved_anatomy e p table Hpr)
    as [newer [_ [Hprcl [Hprr [Hprl [Hprp [Hnew [Hall [Hw Hmerge]]]]]]]]].
  assert (Hnp : forall c, In c rs' -> linkedId c = Some (id pr) ->
                          isPrimary c = false).
  { intros c Hc Hl. destruct (isPrimary c) eqn:E; [|reflexivity].
    apply isPrimary_spec in E.
    rewrite (identify_primariesUnlinked now e p table unlinked c Hc E) in Hl.
    discriminate. }
  intros c. rewrite linkedLive_In, linkedTo_spec. split.
  - intros [Hc [Hl Hlive]]. split; [exact Hc|].
    split; [|now apply Hnp].
    unfold rs' in Hc. rewrite Hrows in Hc. apply withSecondary_In in Hc.
    destruct Hc as [Hc | ->].
    + rewrite Hmerge in Hc. apply in_map_iff in Hc.
      destruct Hc as [d [<- Hd]].
      unfold touched. rewrite mergeRow_id. apply orb_true_intro. left.
      apply memId_In, in_map.
      rewrite mergeRow_linkedId in Hl.
      apply live_spec in Hlive. rewrite mergeRow_live in Hlive.
      destruct (memId (id d) (map id newer)) eqn:Em.
      * apply memId_In, in_map_iff in Em. destruct Em as [x [Ex Hx]].
        destruct (Hnew x Hx) as [Hxcl [Hxr _]].
        assert (x = d) by (apply (same_id_same_row rs); auto; apply table).
        now subst x.
      * simpl in Hl. destruct (linkedInto (map id newer) d) eqn:Ei.
        -- unfold linkedInto in Ei. apply andb_prop in Ei.
           destruct Ei as [_ Ei].
           destruct (linkedId d) as [q|] eqn:Eq; [|discriminate].
           apply memId_In, in_map_iff in Ei. destruct Ei as [x [Ex Hx]].
           destruct (Hnew x Hx) as [Hxcl [_ [_ Hxp]]].
           apply (linked_member x); auto. now rewrite Ex.
        -- now apply (linked_member pr).
    + unfold touched. simpl. rewrite Nat.leb_refl. apply orb_true_r.
  - intros [Hc [Ht Hsec]]. split; [exact Hc|].
    assert (Hs : linkPrecedence c = secondary).
    { apply not_primary_secondary. intros Hp. apply isPrimary_spec in Hp.
      congruence. }
    unfold rs' in Hc. rewrite Hrows in Hc. apply withSecondary_In in Hc.
    destruct Hc as [Hc | ->]; [|split; reflexivity].
    rewrite Hmerge in Hc. apply in_map_iff in Hc. destruct Hc as [d [<- Hd]].
    unfold touched in Ht. rewrite mergeRow_id in Ht.
    apply orb_prop in Ht. destruct Ht as [Ht | Ht].
    2:{ exfalso. apply Nat.leb_le in Ht.
        pose proof (tableOk_bounds d table Hd). lia. }
    apply memId_In, in_map_iff in Ht. destruct Ht as [x [Ex Hx]].
    destruct (cluster_rows rs e p x Hx) as [Hxr Hxl].
    assert (x = d) by (apply (same_id_same_row rs); auto; apply table).
    subst x.
    rewrite mergeRow_linkPrecedence in Hs.
    rewrite mergeRow_linkedId. rewrite <- live_spec, mergeRow_live.
    split; [|exact Hxl].
    destruct (memId (id d) (map id newer)) eqn:Em; [reflexivity|].
    destruct (secondary_member_owner d Hx Hs) as [o [Hocl [Hop Hl]]].
    destruct (Hall o Hocl Hop) as [-> | Hon].
    + destruct (linkedInto (map id newer) d); [reflexivity | exact Hl].
    + unfold linkedInto. rewrite Hxl, Hl. simpl.
      replace (memId (id o) (map id newer)) with true; [reflexivity|].
      symmetry. apply memId_In. now apply in_map.
Qed.

(** The fields of the rows a call leaves are those of the rows it found
    and of the input. *)
Lemma identifyRows_fields (c : Contact) :
  In c rs' ->
  (exists d, In d rs /\ email c = email d /\ phoneNumber c = phoneNumber d)
  \/ (email c = e /\ phoneNumber c = p).
Proof.
  unfold rs'.
  destruct (identify_cases rs e p) as [H | [[Hm H] | [Hm [pr H]]]].
  - destruct (identify_noMatch rs n now e p H) as [-> _].
    intros Hc. apply in_app_or in Hc. destruct Hc as [Hc | [<- | []]].
    + left. exists c. auto.
    + right. split; reflexivity.
  - destruct (identify_throw rs n now e p Hm H) as [-> _].
    intros Hc. left. exists c. auto.
  - destruct (identify_match rs n now e p Hm H) as [-> _].
    destruct (resolved_anatomy e p table H) as [newer Hres].
    replace (resolvedRows (clusterOf rs (matchingIn rs e p)) rs)
      with (map (mergeRow (id pr) (map id newer)) rs)
      by (symmetry; apply Hres).
    intros Hc. apply withSecondary_In in Hc. destruct Hc as [Hc | ->].
    + apply in_map_iff in Hc. destruct Hc as [d [<- Hd]].
      left. exists d. rewrite mergeRow_email, mergeRow_phoneNumber. auto.
    + right. split; reflexivity.
Qed.

(** A completed call answers from a primary row and from the non-primary
    rows among those it touched, in createdAt order. *)
Lemma answer_cluster (r : IdentifyResponse) :
  identifyResult now e p rs n = Ok r ->
  exists pr secondaries,
    In pr rs' /\ linkPrecedence pr = primary
    /\ r = ContactService.buildResponse pr secondaries
    /\ Permutation secondaries
         (filter (fun c => negb (isPrimary c)) (filter touched rs'))
    /\ Sorted byCreatedAt secondaries
    /\ forall c, In c secondaries -> In c rs'.
Proof.
  intros Hr.
  pose proof (tableOk_ids (identify_tableOk now e p table)) as Hids.
  fold rs' in Hids.
  destruct (identify_cases rs e p) as [H | [[Hm H] | [Hm [pr H]]]].
  - destruct (identify_noMatch rs n now e p H) as [Hrows [_ Hres]].
    rewrite Hres in Hr. inversion Hr; subst r.
    exists (newPrimary n now e p), [].
    split; [unfold rs'; rewrite Hrows; apply in_or_app; right; now left|].
    split; [reflexivity|]. split; [reflexivity|].
    split; [|split; [constructor | intros c []]].
    rewrite filter_none; [constructor|].
    intros c Hc. apply filter_In in Hc. destruct Hc as [Hc Ht].
    unfold rs' in Hc. rewrite Hrows in Hc.
    apply in_app_or in Hc. destruct Hc as [Hc | [<- | []]]; [|reflexivity].
    exfalso. unfold touched, cl, m in Ht. rewrite H in Ht. simpl in Ht.
    apply Nat.leb_le in Ht. pose proof (tableOk_bounds c table Hc). lia.
  - destruct (identify_throw rs n now e p Hm H) as [_ [_ Hres]].
    rewrite Hres in Hr. discriminate.
  - destruct (identify_match rs n now e p Hm H) as [Hrows [_ Hres]].
    rewrite Hres in Hr. inversion Hr; subst r. rewrite <- Hrows. fold rs'.
    destruct (resolved_anatomy e p table H)
      as [newer [_ [_ [Hrow [_ [Hp [_ [_ [Hw Hmerge]]]]]]]]].
    exists pr, (linkedLive rs' (id pr)).
    split.
    { unfold rs'. rewrite Hrows. apply withSecondary_keeps. rewrite Hmerge.
      rewrite <- (winner_untouched pr (map id newer) unlinked Hrow Hp Hw) at 1.
      now apply in_map. }
    split; [exact Hp|]. split; [reflexivity|].
    split; [|split; [apply linkedLive_sorted|]].
    + apply NoDup_Permutation.
      * now apply linkedLive_NoDup.
      * apply NoDup_filter, NoDup_filter. now apply NoDup_map_inv in Hids.
      * intros c. rewrite (answer_members Hm H c), !filter_In.
        destruct (isPrimary c); simpl; intuition congruence.
    + intros c Hc. apply linkedLive_In in Hc. tauto.
Qed.

End ResponseCluster.

(** C6 (amended): on a store satisfying the data model whose columns hold
    no empty string, for a request as the controller passes it (null, not
    the empty string) in which every matched contact is primary or linked
    to a primary that is not soft-deleted, the response of a completed call
    is as step 7 words it: with the secondaries being the non-primary
    members of the cluster after the merge in createdAt order, emails holds
    the primary's email first if it is not null, then each secondary's
    email at its first occurrence, likewise phoneNumbers; both lists are
    free of duplicates; and secondaryContactIds lists every secondary in
    the same order. *)
Theorem response_lists (now : Z) (e p : option string) (s : Store) :
  storeOk s ->
  noEmptyFields (rows s) -> notEmpty e -> notEmpty p ->
  ownersLive (rows s) e p ->
  responseAsStated now e p s.
Proof.
  intros [Ht [Hu Hs]] Hfields He Hp Hown s' r Hcall.
  unfold touchedAfter. rewrite Hcall. simpl fst.
  apply identify_rows in Hcall. destruct Hcall as [Hrows [_ Hres]].
  symmetry in Hres.
  destruct (answer_cluster now Ht Hu Hown Hres)
    as [pr [secs [Hin [Hpp [Hr [Hperm [Hsorted Hsub]]]]]]].
  rewrite <- Hrows in Hin, Hperm, Hsub.
  assert (Hne : forall c, In c (rows s') ->
                          notEmpty (email c) /\ notEmpty (phoneNumber c)).
  { intros c Hc. rewrite Hrows in Hc.
    destruct (identifyRows_fields now e p Ht c Hc)
      as [[d [Hd [-> ->]]] | [-> ->]]; auto. }
  assert (Hall : forall c, In c (pr :: secs) -> In c (rows s')).
  { intros c [<- | Hc]; auto. }
  assert (Hemails : presentValues email (pr :: secs)
                    = nonNullValues email (pr :: secs))
    by (apply present_nonNull; intros c Hc; apply (Hne c (Hall c Hc))).
  assert (Hphones : presentValues phoneNumber (pr :: secs)
                    = nonNullValues phoneNumber (pr :: secs))
    by (apply present_nonNull; intros c Hc; apply (Hne c (Hall c Hc))).
  exists pr, secs. rewrite Hr, buildResponse_lists.
  cbn [primaryContactId emails phoneNumbers secondaryContactIds].
  rewrite Hemails, Hphones.
  split; [exact Hin|]. split; [exact Hpp|]. split; [reflexivity|].
  split; [exact Hperm|]. split; [exact Hsorted|].
  split; [reflexivity|]. split; [reflexivity|].
  split; [apply firstSeen_NoDup|]. split; [apply firstSeen_NoDup|].
  reflexivity.
Qed.

Lemma twoClusters_noEmptyFields : noEmptyFields (rows twoClusters).
Proof.
  intros c H. in_rows H; split; discriminate.
Defined.

Lemma twoClusters_ownersLive : ownersLive (rows twoClusters) joinEmail joinPhone.
Proof.
  intros c H Hm. in_rows H.
  - left. reflexivity.
  - left. reflexivity.
  - right. exists 2, bob. simpl. auto 7.
  - discriminate.
Defined.

Lemma response_lists_witness :
  exists pr secondaries,
    In pr (rows mergedClusters) /\ linkPrecedence pr = primary
    /\ 1 = id pr
    /\ Permutation secondaries
         (filter (fun c => negb (isPrimary c))
                 (touchedAfter 100 joinEmail joinPhone twoClusters))
    /\ Sorted byCreatedAt secondaries
    /\ ["a@x.com"%string; "b@x.com"%string; "c@x.com"%string]
       = firstSeen [] (nonNullValues email (pr :: secondaries))
    /\ ["111"%string; "222"%string]
       = firstSeen [] (nonNullValues phoneNumber (pr :: secondaries))
    /\ NoDup ["a@x.com"%string; "b@x.com"%string; "c@x.com"%string]
    /\ NoDup ["111"%string; "222"%string]
    /\ [2; 3; 5] = map id secondaries.
Proof.
  refine (@response_lists 100 joinEmail joinPhone twoClusters
            twoClusters_storeOk twoClusters_noEmptyFields _ _
            twoClusters_ownersLive mergedClusters _ twoClusters_merged);
    discriminate.
Defined.

(** The sample table of the counterexample satisfies the data model and
    holds no empty string; the request names a secondary whose primary is
    soft-deleted. *)
Lemma strandedAlias_storeOk : storeOk strandedAlias.
Proof.
  split; [table_ok|]. split.
  - intros c H Hp. in_rows H; (reflexivity || discriminate).
  - intros c H Hs _. in_rows H; try discriminate.
    exists 2, carolRetired. simpl. auto 6.
Qed.

Lemma strandedAlias_noEmptyFields : noEmptyFields (rows strandedAlias).
Proof. intros c H. in_rows H; split; discriminate. Qed.

(** C6 as stated fails: the request carries alice's email and the phone of
    a live secondary whose own primary is soft-deleted.  The collected
    cluster holds alice and that secondary, and a third contact is created;
    the secondary stays linked to the soft-deleted primary, so the response
    lists the created contact alone: one id for two non-primary members. *)
Lemma stranded_secondary_not_listed :
  ~ responseAsStated 100 (Some "a@x.com"%string) (Some "901"%string)
      strandedAlias.
Proof.
  intros H.
  destruct (H (fst (ContactService.identify 100 (Some "a@x.com"%string)
                      (Some "901"%string) strandedAlias))
              (mkResponse 1 ["a@x.com"%string] ["111"%string; "901"%string]
                          [4]))
    as [pr [secs [_ [_ [_ [Hperm [_ [_ [_ [_ [_ Hids]]]]]]]]]]].
  - vm_compute. reflexivity.
  - apply Permutation_length in Hperm.
    apply (f_equal (@List.length nat)) in Hids.
    rewrite length_map in Hids. simpl in Hids.
    assert (Htwo : List.length
                     (filter (fun c => negb (isPrimary c))
                        (touchedAfter 100 (Some "a@x.com"%string)
                                      (Some "901"%string) strandedAlias))
                   = 2) by (vm_compute; reflexivity).
    rewrite Htwo in Hperm. congruence.
Qed.
